(** * SQLite-backed node stores of privateGPT

    A shallow embedding of
    [private_gpt/components/node_store/sqlite_store.py]: the document-store
    and index-store writers and readers, and the two persistence adapters
    [SqliteDocumentStore] and [SqliteIndexStore].

    The Python code talks to three libraries.  Each is modelled by the part
    of its behaviour the module relies on:
    - [pathlib]: paths are lists of components below the root of the
      modelled tree; [mkdir(parents=True, exist_ok=True)], [exists()],
      [parent] and [/] are functions on a finite map from paths to nodes;
    - [sqlite3]: a database is a finite map from table names to tables, a
      table a finite map from its primary key to the payload text; a
      connection keeps the committed content apart from its own view, DML
      statements open a transaction implicitly, [commit] publishes the view
      and [close] discards what was not committed;
    - [json]: an interface [Codec] with [dumps] and [loads]; a concrete
      instance is given in module [Json].

    Numbers are integers: floating-point payloads are outside the model. *)

From stdpp Require Import gmap strings list fin_maps pretty.
From Stdlib Require Import ZArith Ascii Sorted.

#[local] Set Warnings "-register-all".
#[local] Open Scope string_scope.
#[local] Open Scope list_scope.

(** ** Python values *)

(** The values a snapshot is made of: [None], booleans, integers, strings,
    lists and dictionaries with string keys.  Dictionaries are finite maps,
    so that equality of values is Python's structural equality of
    dictionaries (the order of insertion is not observed by [==]). *)
Inductive value : Type :=
  | VNone
  | VBool (b : bool)
  | VInt (n : Z)
  | VStr (s : string)
  | VList (l : list value)
  | VDict (d : gmap string value).

(** A top-level snapshot: [dict[str, Any]]. *)
Abbreviation dict := (gmap string value).

(** Python's truth value testing, as used by [if docs:]. *)
Definition truthy (v : value) : bool :=
  match v with
  | VNone => false
  | VBool b => b
  | VInt n => negb (n =? 0)%Z
  | VStr s => negb (bool_decide (s = ""))
  | VList l => negb (bool_decide (l = []))
  | VDict d => negb (bool_decide (d = ∅))
  end.

(** ** Exceptions and results *)

(** Paths are lists of components, the root first. *)
Abbreviation path := (list string).

Inductive sqlite_error : Type :=
  | unable_to_open_database_file
  | no_such_table (t : string)
  | table_already_exists (t : string).

Inductive exn : Type :=
  | FileNotFoundError (p : path)
  | FileExistsError (p : path)
  | NotADirectoryError (p : path)
  | OperationalError (e : sqlite_error)
  | AttributeError
  | KeyError (k : string)
  | TypeError
  | JSONDecodeError (doc : string).

Inductive result (A : Type) : Type :=
  | Ok (a : A)
  | Err (e : exn).
Arguments Ok {A} a.
Arguments Err {A} e.

#[global] Instance result_ret : MRet result := λ A a, Ok a.
#[global] Instance result_bind : MBind result := λ A B f m,
  match m with
  | Ok a => f a
  | Err e => Err e
  end.

#[global] Instance result_fmap : FMap result := λ A B f m,
  match m with
  | Ok a => Ok (f a)
  | Err e => Err e
  end.

(** [d.items()]: only dictionaries have the method. *)
Definition items (v : value) : result (list (string * value)) :=
  match v with
  | VDict d => Ok (map_to_list d)
  | _ => Err AttributeError
  end.

(** [d.get(k, default)] on a snapshot. *)
Definition get (data : dict) (k : string) (default : value) : value :=
  match data !! k with
  | Some v => v
  | None => default
  end.

(** ** The codec: [json.dumps] and [json.loads] *)

(** [loads] fails on malformed text (Python raises [JSONDecodeError], which
    carries the offending document). *)
Class Codec : Type := {
  dumps : value → string;
  loads : string → option value
}.

Definition json_loads `{Codec} (payload : string) : result value :=
  match loads payload with
  | Some v => Ok v
  | None => Err (JSONDecodeError payload)
  end.

(** A value is JSON-compatible when the codec gives it back. *)
Definition json_compatible `{Codec} (v : value) : Prop :=
  loads (dumps v) = Some v.

(** ** Files and directories *)

(** Tables map the primary key to the payload text; a database maps a table
    name to its table. *)
Abbreviation table := (gmap string string).
Abbreviation database := (gmap string (gmap string string)).

Inductive node : Type :=
  | Dir
  | File (db : database).

Abbreviation filesystem := (gmap (list string) node).

(** The root directory always exists. *)
Definition node_at (fs : filesystem) (p : path) : option node :=
  match p with
  | [] => Some Dir
  | _ => fs !! p
  end.

(** [Path.exists()]. *)
Definition exists_ (fs : filesystem) (p : path) : bool :=
  bool_decide (is_Some (node_at fs p)).

(** [Path.parent]: the root is its own parent. *)
Definition parent (p : path) : path := removelast p.

(** The components of a file name given as text: split at the slashes,
    empty components and [.] dropped, as [pathlib] does. *)
Fixpoint split_slash (s : string) (cur : string) : list string :=
  match s with
  | EmptyString => [cur]
  | String c s' =>
      if Ascii.eqb c "/"%char then cur :: split_slash s' ""
      else split_slash s' (cur +:+ String c "")
  end.

Definition is_component (c : string) : bool :=
  negb (String.eqb c "") && negb (String.eqb c ".").

Definition parts (s : string) : list string :=
  List.filter is_component (split_slash s "").

Definition is_absolute (s : string) : bool :=
  match s with
  | String c _ => Ascii.eqb c "/"%char
  | EmptyString => false
  end.

(** [d / name]: an absolute name replaces the directory. *)
Definition joinpath (d : path) (name : string) : path :=
  if is_absolute name then parts name else d ++ parts name.

(** [os.mkdir] along the components [rest] below [cur], top down: an
    existing directory is kept, a missing one created, and a file in the way
    is an error ([FileExistsError] when it is the directory asked for,
    [NotADirectoryError] when it is one of its ancestors). *)
Fixpoint mkdir_from (fs : filesystem) (cur : path) (rest : list string)
  : result filesystem :=
  match rest with
  | [] => Ok fs
  | c :: rest' =>
      let q := cur ++ [c] in
      match fs !! q with
      | Some Dir => mkdir_from fs q rest'
      | Some (File _) =>
          match rest' with
          | [] => Err (FileExistsError q)
          | _ => Err (NotADirectoryError q)
          end
      | None => mkdir_from (<[q := Dir]> fs) q rest'
      end
  end.

(** [d.mkdir(parents=True, exist_ok=True)]. *)
Definition mkdir (fs : filesystem) (d : path) : result filesystem :=
  mkdir_from fs [] d.

(** ** Connections *)

(** [committed] is the content of the database file, [view] what the
    connection sees; they differ only inside a transaction. *)
Record connection : Type := {
  committed : database;
  view : database;
  in_transaction : bool
}.

(** [sqlite3.connect(p)]: opens the file, creating an empty database when
    there is none; fails when [p] is a directory or its parent is missing. *)
Definition connect (fs : filesystem) (p : path) : result connection :=
  match node_at fs p with
  | Some (File db) =>
      Ok {| committed := db; view := db; in_transaction := false |}
  | Some Dir => Err (OperationalError unable_to_open_database_file)
  | None =>
      match node_at fs (parent p) with
      | Some Dir => Ok {| committed := ∅; view := ∅; in_transaction := false |}
      | _ => Err (OperationalError unable_to_open_database_file)
      end
  end.

(** [connection.close()]: what was not committed is lost; the file holds the
    committed content. *)
Definition close (fs : filesystem) (p : path) (c : connection) : filesystem :=
  <[p := File (committed c)]> fs.

(** Code running against an open connection: it returns a result or raises,
    and in both cases leaves the connection in some state. *)
Definition sql (A : Type) : Type := connection → result A * connection.

#[global] Instance sql_ret : MRet sql := λ A a c, (Ok a, c).
#[global] Instance sql_bind : MBind sql := λ A B f m c,
  match m c with
  | (Ok a, c') => f a c'
  | (Err e, c') => (Err e, c')
  end.

Definition lift {A} (r : result A) : sql A := λ c, (r, c).

Inductive statement : Type :=
  | CREATE_TABLE (if_not_exists : bool) (t : string)
  | DELETE_FROM (t : string)
  | INSERT_OR_REPLACE_INTO (t : string) (key payload : string).

(** [connection.execute(stmt)].  A [CREATE TABLE] outside a transaction is
    committed at once; [DELETE] and [INSERT] open a transaction when there is
    none and change the view only. *)
Definition execute (stmt : statement) : sql unit := λ c,
  match stmt with
  | CREATE_TABLE if_not_exists t =>
      match view c !! t with
      | Some _ =>
          if if_not_exists then (Ok (), c)
          else (Err (OperationalError (table_already_exists t)), c)
      | None =>
          let v := <[t := ∅]> (view c) in
          (Ok (),
           if in_transaction c
           then {| committed := committed c; view := v; in_transaction := true |}
           else {| committed := v; view := v; in_transaction := false |})
      end
  | DELETE_FROM t =>
      match view c !! t with
      | Some _ =>
          (Ok (), {| committed := committed c;
                     view := <[t := ∅]> (view c);
                     in_transaction := true |})
      | None => (Err (OperationalError (no_such_table t)), c)
      end
  | INSERT_OR_REPLACE_INTO t key payload =>
      match view c !! t with
      | Some rows =>
          (Ok (), {| committed := committed c;
                     view := <[t := <[key := payload]> rows]> (view c);
                     in_transaction := true |})
      | None => (Err (OperationalError (no_such_table t)), c)
      end
  end.

(** [connection.executemany("INSERT OR REPLACE INTO t ...", rows)] *)
Fixpoint executemany (t : string) (rows : list (string * string)) : sql unit :=
  match rows with
  | [] => mret ()
  | (key, payload) :: rows' =>
      execute (INSERT_OR_REPLACE_INTO t key payload) ;; executemany t rows'
  end.

(** [connection.execute("SELECT key, payload FROM t")], all rows. *)
Definition select (t : string) : sql (list (string * string)) := λ c,
  match view c !! t with
  | Some rows => (Ok (map_to_list rows), c)
  | None => (Err (OperationalError (no_such_table t)), c)
  end.

(** [connection.commit()]. *)
Definition commit : sql unit := λ c,
  (Ok (), {| committed := view c; view := view c; in_transaction := false |}).

(** ** Code that touches the file system *)

Definition io (A : Type) : Type := filesystem → result A * filesystem.

#[global] Instance io_ret : MRet io := λ A a fs, (Ok a, fs).
#[global] Instance io_bind : MBind io := λ A B f m fs,
  match m fs with
  | (Ok a, fs') => f a fs'
  | (Err e, fs') => (Err e, fs')
  end.

(** [d.mkdir(parents=True, exist_ok=True)] as a step.  In a tree where every
    entry has its ancestors, nothing is created before [mkdir] fails, so a
    failure leaves the tree as it was. *)
Definition mkdir_parents (d : path) : io unit := λ fs,
  match mkdir fs d with
  | Ok fs' => (Ok (), fs')
  | Err e => (Err e, fs)
  end.

(** [connection = sqlite3.connect(p); try: body finally: connection.close()] *)
Definition with_connection {A} (p : path) (body : sql A) : io A := λ fs,
  match connect fs p with
  | Ok connection =>
      let '(r, connection') := body connection in
      (r, close fs p connection')
  | Err e => (Err e, fs)
  end.

(** A [for] loop that updates [acc] and may raise. *)
Fixpoint for_each {A B} (l : list A) (body : B → A → result B) (acc : B)
  : result B :=
  match l with
  | [] => Ok acc
  | x :: l' =>
      match body acc x with
      | Ok acc' => for_each l' body acc'
      | Err e => Err e
      end
  end.

(** [data[k][k'] = v] *)
Definition setitem_in (data : dict) (k k' : string) (v : value) : result dict :=
  match data !! k with
  | Some (VDict d) => Ok (<[k := VDict (<[k' := v]> d)]> data)
  | Some _ => Err TypeError
  | None => Err (KeyError k)
  end.

Definition DOCSTORE_DB : string := "docstore.sqlite".
Definition INDEXSTORE_DB : string := "indexstore.sqlite".

Section Store.
Context `{Codec}.

Definition _ensure_docstore_schema : sql unit :=
  execute (CREATE_TABLE true "documents") ;;
  execute (CREATE_TABLE true "ref_doc_info") ;;
  execute (CREATE_TABLE true "metadata").

(** The generator [((k, json.dumps(v)) for k, v in d.items())]. *)
Definition dumped (rows : list (string * value)) : list (string * string) :=
  (λ kv, (kv.1, dumps kv.2)) <$> rows.

(** [{k: v for k, v in data.items() if k not in {"documents", "ref_doc_info"}}] *)
Definition extra_of (data : dict) : dict :=
  filter (λ kv, kv.1 ≠ "documents" ∧ kv.1 ≠ "ref_doc_info") data.

Definition _write_docstore (db_path : path) (data : dict) : io unit :=
  mkdir_parents (parent db_path) ;;
  with_connection db_path (
    _ensure_docstore_schema ;;
    let docs := get data "documents" (VDict ∅) in
    execute (DELETE_FROM "documents") ;;
    (if truthy docs then
       rows ← lift (items docs);
       executemany "documents" (dumped rows)
     else mret ()) ;;
    let ref_docs := get data "ref_doc_info" (VDict ∅) in
    execute (DELETE_FROM "ref_doc_info") ;;
    (if truthy ref_docs then
       rows ← lift (items ref_docs);
       executemany "ref_doc_info" (dumped rows)
     else mret ()) ;;
    let extra := extra_of data in
    execute (DELETE_FROM "metadata") ;;
    (if truthy (VDict extra) then
       executemany "metadata" (dumped (map_to_list extra))
     else mret ()) ;;
    commit).

Definition _read_docstore (db_path : path) : io dict := λ fs,
  if negb (exists_ fs db_path) then (Err (FileNotFoundError db_path), fs)
  else with_connection db_path (
    _ensure_docstore_schema ;;
    let data : dict := {[ "documents" := VDict ∅; "ref_doc_info" := VDict ∅ ]} in
    rows ← select "documents";
    data ← lift (for_each rows (λ data row,
               v ← json_loads row.2; setitem_in data "documents" row.1 v) data);
    rows ← select "ref_doc_info";
    data ← lift (for_each rows (λ data row,
               v ← json_loads row.2; setitem_in data "ref_doc_info" row.1 v) data);
    rows ← select "metadata";
    data ← lift (for_each rows (λ data row,
               v ← json_loads row.2; mret (<[row.1 := v]> data)) data);
    mret data) fs.

Definition _write_indexstore (db_path : path) (data : dict) : io unit :=
  mkdir_parents (parent db_path) ;;
  with_connection db_path (
    execute (CREATE_TABLE true "index_metadata") ;;
    execute (DELETE_FROM "index_metadata") ;;
    (if truthy (VDict data) then
       executemany "index_metadata" (dumped (map_to_list data))
     else mret ()) ;;
    commit).

Definition _read_indexstore (db_path : path) : io dict := λ fs,
  if negb (exists_ fs db_path) then (Err (FileNotFoundError db_path), fs)
  else with_connection db_path (
    execute (CREATE_TABLE true "index_metadata") ;;
    let data : dict := ∅ in
    rows ← select "index_metadata";
    data ← lift (for_each rows (λ data row,
               v ← json_loads row.2; mret (<[row.1 := v]> data)) data);
    mret data) fs.

End Store.

(** [db_name or default] *)
Definition or_default (db_name : option string) (default : string) : string :=
  match db_name with
  | Some name => if truthy (VStr name) then name else default
  | None => default
  end.

(** The in-memory stores of llama_index, known by their [from_dict] and
    [to_dict] only. *)
Class SimpleStore (S : Type) : Type := {
  from_dict : dict → result S;
  to_dict : S → dict
}.

Module SqliteDocumentStore.
Section Adapter.
Context `{Codec} {SimpleDocumentStore : Type} `{SimpleStore SimpleDocumentStore}.

(** An instance: the state inherited from [SimpleDocumentStore] and the
    attribute [_db_path]. *)
Record t : Type := {
  base : SimpleDocumentStore;
  _db_path : option path
}.

(** [instance = cls()], then the attributes of [base_store] are copied into
    it and [_db_path] is set. *)
Definition from_persist_dir (persist_dir : path) (db_name : option string)
  : io t :=
  let db_path := joinpath persist_dir (or_default db_name DOCSTORE_DB) in
  data ← _read_docstore db_path;
  base_store ← (λ fs, (from_dict data, fs)) : io SimpleDocumentStore;
  mret {| base := base_store; _db_path := Some db_path |}.

(** [persist] returns [self] as the assignment [self._db_path = db_path]
    leaves it; when the write raises, [self] is not touched. *)
Definition persist (self : t) (persist_dir : path) (db_name : option string)
  : io t :=
  let db_path := joinpath persist_dir (or_default db_name DOCSTORE_DB) in
  _write_docstore db_path (to_dict (base self)) ;;
  mret {| base := base self; _db_path := Some db_path |}.
End Adapter.
Arguments t SimpleDocumentStore : clear implicits.
End SqliteDocumentStore.

Module SqliteIndexStore.
Section Adapter.
Context `{Codec} {SimpleIndexStore : Type} `{SimpleStore SimpleIndexStore}.

Record t : Type := {
  base : SimpleIndexStore;
  _db_path : option path
}.

Definition from_persist_dir (persist_dir : path) (db_name : option string)
  : io t :=
  let db_path := joinpath persist_dir (or_default db_name INDEXSTORE_DB) in
  data ← _read_indexstore db_path;
  base_store ← (λ fs, (from_dict data, fs)) : io SimpleIndexStore;
  mret {| base := base_store; _db_path := Some db_path |}.

Definition persist (self : t) (persist_dir : path) (db_name : option string)
  : io t :=
  let db_path := joinpath persist_dir (or_default db_name INDEXSTORE_DB) in
  _write_indexstore db_path (to_dict (base self)) ;;
  mret {| base := base self; _db_path := Some db_path |}.
End Adapter.
Arguments t SimpleIndexStore : clear implicits.
End SqliteIndexStore.

(** The simplest in-memory store: it keeps the mapping it is built from. *)
Definition dict_store : SimpleStore dict :=
  {| from_dict := Ok; to_dict := id |}.

(** ** A concrete codec *)

(** The JSON text of a value, as [json.dumps] writes it with its default
    separators, and a recursive-descent reader for that grammar.  Strings
    are sequences of code points below 256; everything outside the printable
    ASCII range is written as a [\u00XX] escape. *)
Module Json.

(** The double quote and the backslash. *)
Definition dquote : ascii := ascii_of_N 34.
Definition backslash : ascii := ascii_of_N 92.

Definition hex_digit (n : N) : ascii :=
  ascii_of_N (if (n <? 10)%N then 48 + n else 87 + n)%N.

Definition escape_char (c : ascii) : string :=
  let n := N_of_ascii c in
  if Ascii.eqb c dquote then String backslash (String dquote "")
  else if Ascii.eqb c backslash then String backslash (String backslash "")
  else if (n =? 10)%N then "\n"
  else if (n =? 13)%N then "\r"
  else if (n =? 9)%N then "\t"
  else if (n =? 8)%N then "\b"
  else if (n =? 12)%N then "\f"
  else if ((32 <=? n) && (n <=? 126))%N then String c ""
  else "\u00" +:+ String (hex_digit (n / 16)) (String (hex_digit (n mod 16)) "").

Fixpoint escape (s : string) : string :=
  match s with
  | EmptyString => ""
  | String c s' => escape_char c +:+ escape s'
  end.

Definition quote (s : string) : string :=
  String dquote (escape s +:+ String dquote "").

Fixpoint join (sep : string) (l : list string) : string :=
  match l with
  | [] => ""
  | [x] => x
  | x :: l' => x +:+ sep +:+ join sep l'
  end.

Fixpoint digits (fuel : nat) (n : N) (acc : string) : string :=
  match fuel with
  | O => acc
  | S fuel' =>
      let acc' := String (ascii_of_N (48 + n mod 10)) acc in
      if (n <? 10)%N then acc' else digits fuel' (n / 10) acc'
  end.

Definition int_text (n : Z) : string :=
  let m := Z.to_N (Z.abs n) in
  let d := digits (S (N.to_nat (N.log2 m))) m "" in
  if (n <? 0)%Z then "-" +:+ d else d.

Fixpoint dumps (v : value) : string :=
  match v with
  | VNone => "null"
  | VBool true => "true"
  | VBool false => "false"
  | VInt n => int_text n
  | VStr s => quote s
  | VList l => "[" +:+ join ", " (List.map dumps l) +:+ "]"
  | VDict d =>
      "{" +:+ join ", "
               (map_fold (λ k x acc, (quote k +:+ ": " +:+ dumps x) :: acc) [] d)
          +:+ "}"
  end.

Definition is_space (c : ascii) : bool :=
  let n := N_of_ascii c in
  ((n =? 32) || (n =? 10) || (n =? 13) || (n =? 9))%N.

Fixpoint skip_space (s : string) : string :=
  match s with
  | String c s' => if is_space c then skip_space s' else s
  | EmptyString => s
  end.

(** [expect w s]: [s] without its prefix [w]. *)
Fixpoint expect (w s : string) : option string :=
  match w, s with
  | EmptyString, _ => Some s
  | String a w', String b s' => if Ascii.eqb a b then expect w' s' else None
  | String _ _, EmptyString => None
  end.

Definition hex_value (c : ascii) : option N :=
  let n := N_of_ascii c in
  if ((48 <=? n) && (n <=? 57))%N then Some (n - 48)%N
  else if ((97 <=? n) && (n <=? 102))%N then Some (n - 87)%N
  else if ((65 <=? n) && (n <=? 70))%N then Some (n - 55)%N
  else None.

(** The text of a string literal after its opening quote. *)
Fixpoint read_string (s : string) (acc : string) : option (string * string) :=
  match s with
  | EmptyString => None
  | String c s' =>
      if Ascii.eqb c dquote then Some (acc, s')
      else if Ascii.eqb c backslash then
        match s' with
        | String e s'' =>
            let plain (x : ascii) := read_string s'' (acc +:+ String x "") in
            if Ascii.eqb e dquote then plain dquote
            else if Ascii.eqb e backslash then plain backslash
            else if Ascii.eqb e "/"%char then plain "/"%char
            else if Ascii.eqb e "n"%char then plain (ascii_of_N 10)
            else if Ascii.eqb e "r"%char then plain (ascii_of_N 13)
            else if Ascii.eqb e "t"%char then plain (ascii_of_N 9)
            else if Ascii.eqb e "b"%char then plain (ascii_of_N 8)
            else if Ascii.eqb e "f"%char then plain (ascii_of_N 12)
            else if Ascii.eqb e "u"%char then
              match s'' with
              | String "0" (String "0" (String h (String l s3))) =>
                  match hex_value h, hex_value l with
                  | Some a, Some b =>
                      read_string s3 (acc +:+ String (ascii_of_N (16 * a + b)) "")
                  | _, _ => None
                  end
              | _ => None
              end
            else None
        | EmptyString => None
        end
      else if (N_of_ascii c <? 32)%N then None
      else read_string s' (acc +:+ String c "")
  end.

Definition digit_value (c : ascii) : option Z :=
  let n := N_of_ascii c in
  if ((48 <=? n) && (n <=? 57))%N then Some (Z.of_N n - 48)%Z else None.

Fixpoint read_digits (s : string) (acc : Z) : Z * string :=
  match s with
  | String c s' =>
      match digit_value c with
      | Some d => read_digits s' (10 * acc + d)%Z
      | None => (acc, s)
      end
  | EmptyString => (acc, s)
  end.

(** An integer literal: a zero stands alone, other numbers have no leading
    zero. *)
Definition read_natural (s : string) : option (Z * string) :=
  match s with
  | String c s' =>
      if Ascii.eqb c "0"%char then Some (0%Z, s')
      else if digit_value c is Some _ then Some (read_digits s 0%Z)
      else None
  | EmptyString => None
  end.

Definition read_int (s : string) : option (Z * string) :=
  match s with
  | String c s' =>
      if Ascii.eqb c "-"%char then
        '(n, rest) ← read_natural s'; Some ((- n)%Z, rest)
      else read_natural s
  | EmptyString => None
  end.

Fixpoint read_value (fuel : nat) (s : string) : option (value * string) :=
  match fuel with
  | O => None
  | S fuel' =>
      match skip_space s with
      | EmptyString => None
      | String c s' as s0 =>
          if Ascii.eqb c "n"%char then rest ← expect "null" s0; Some (VNone, rest)
          else if Ascii.eqb c "t"%char then
            rest ← expect "true" s0; Some (VBool true, rest)
          else if Ascii.eqb c "f"%char then
            rest ← expect "false" s0; Some (VBool false, rest)
          else if Ascii.eqb c dquote then
            '(x, rest) ← read_string s' ""; Some (VStr x, rest)
          else if Ascii.eqb c "["%char then
            match skip_space s' with
            | String "]" rest => Some (VList [], rest)
            | _ => read_elements fuel' s' []
            end
          else if Ascii.eqb c "{"%char then
            match skip_space s' with
            | String "}" rest => Some (VDict ∅, rest)
            | _ => read_members fuel' s' ∅
            end
          else '(n, rest) ← read_int s0; Some (VInt n, rest)
      end
  end
with read_elements (fuel : nat) (s : string) (acc : list value)
  : option (value * string) :=
  match fuel with
  | O => None
  | S fuel' =>
      '(v, rest) ← read_value fuel' s;
      match skip_space rest with
      | String "," rest' => read_elements fuel' rest' (acc ++ [v])
      | String "]" rest' => Some (VList (acc ++ [v]), rest')
      | _ => None
      end
  end
with read_members (fuel : nat) (s : string) (acc : dict)
  : option (value * string) :=
  match fuel with
  | O => None
  | S fuel' =>
      match skip_space s with
      | String c s' =>
          if Ascii.eqb c dquote then
            '(k, rest) ← read_string s' "";
            match skip_space rest with
            | String ":" rest' =>
                '(v, rest'') ← read_value fuel' rest';
                match skip_space rest'' with
                | String "," rest3 => read_members fuel' rest3 (<[k := v]> acc)
                | String "}" rest3 => Some (VDict (<[k := v]> acc), rest3)
                | _ => None
                end
            | _ => None
            end
          else None
      | EmptyString => None
      end
  end.

Definition loads (s : string) : option value :=
  '(v, rest) ← read_value (S (String.length s)) s;
  match skip_space rest with
  | EmptyString => Some v
  | _ => None
  end.

#[export] Instance codec : Codec := Build_Codec dumps loads.

End Json.



(** ** What the operations compute *)

(** The connection just after [connect]. *)
Definition clean (db : database) : connection :=
  {| committed := db; view := db; in_transaction := false |}.

(** The stored content [connect] opens: the file's, or the empty database of
    a file it creates. *)
Definition open_db (fs : filesystem) (p : path) : result database :=
  match node_at fs p with
  | Some (File db) => Ok db
  | Some Dir => Err (OperationalError unable_to_open_database_file)
  | None =>
      match node_at fs (parent p) with
      | Some Dir => Ok ∅
      | _ => Err (OperationalError unable_to_open_database_file)
      end
  end.

(** [CREATE TABLE IF NOT EXISTS t] on a database. *)
Definition create_if_absent (t : string) (db : database) : database :=
  match db !! t with
  | Some _ => db
  | None => <[t := ∅]> db
  end.

Definition with_docstore_schema (db : database) : database :=
  create_if_absent "metadata"
    (create_if_absent "ref_doc_info" (create_if_absent "documents" db)).

(** The rows a writer stores for the value under [documents] or
    [ref_doc_info]: those of a dictionary, none for another value that is
    false, and [AttributeError] for another value that is true. *)
Definition rows_of (v : value) : result dict :=
  match v with
  | VDict d => Ok d
  | _ => if truthy v then Err AttributeError else Ok ∅
  end.

Section Written.
Context `{Codec}.

(** The database after a complete document-store write. *)
Definition written (db : database) (docs ref_docs extra : dict) : database :=
  <["metadata" := dumps <$> extra]>
    (<["ref_doc_info" := dumps <$> ref_docs]>
       (<["documents" := dumps <$> docs]> db)).

(** The loop body [acc[key] = json.loads(payload)]. *)
Definition store_row (acc : dict) (row : string * string) : result dict :=
  v ← json_loads row.2; mret (<[row.1 := v]> acc).

(** Decoding a whole table, row by row. *)
Definition decode_table (tbl : table) : result dict :=
  for_each (map_to_list tbl) store_row ∅.

(** Every payload of the table is well-formed text. *)
Definition decodable (tbl : table) : Prop :=
  ∀ k s, tbl !! k = Some s → is_Some (loads s).

(** The rows of table [t], none when the table is missing. *)
Definition table_of (db : database) (t : string) : table :=
  default ∅ (db !! t).

(** The snapshot a document-store database decodes to. *)
Definition decode_docstore (db : database) : result dict :=
  docs ← decode_table (table_of db "documents");
  ref_docs ← decode_table (table_of db "ref_doc_info");
  extra ← decode_table (table_of db "metadata");
  mret (extra ∪ {[ "documents" := VDict docs; "ref_doc_info" := VDict ref_docs ]}).
End Written.

(** The table after inserting [rows] one by one. *)
Definition insert_rows (rows : list (string * string)) (tbl : table) : table :=
  foldl (λ m kv, <[kv.1 := kv.2]> m) tbl rows.

(** * The chat service

    [private_gpt/server/chat]: the inline citations, the assembly of the chat
    engine and the chat service.  The chat engines, the retriever and the
    nodes they return belong to llama_index and are parameters. *)

(** ** Python strings *)

(** [str.isspace] on the code points below 256. *)
Definition isspace (c : ascii) : bool :=
  let n := N_of_ascii c in
  (((9 <=? n) && (n <=? 13)) || ((28 <=? n) && (n <=? 32))
   || (n =? 133) || (n =? 160))%N.

(** [s.lstrip()] *)
Fixpoint lstrip (s : string) : string :=
  match s with
  | String c s' => if isspace c then lstrip s' else s
  | EmptyString => EmptyString
  end.

(** [s.rstrip()] *)
Fixpoint rstrip (s : string) : string :=
  match s with
  | String c s' =>
      match rstrip s' with
      | EmptyString => if isspace c then EmptyString else String c EmptyString
      | r => String c r
      end
  | EmptyString => EmptyString
  end.

(** [s.strip()] *)
Definition strip (s : string) : string := lstrip (rstrip s).

(** [sep.join(l)] *)
Fixpoint str_join (sep : string) (l : list string) : string :=
  match l with
  | [] => ""
  | [x] => x
  | x :: l' => x +:+ sep +:+ str_join sep l'
  end.

(** The line feed. *)
Definition nl : string := String (ascii_of_N 10) "".

(** How a list or a dictionary is written by [str()]. *)
Class Format : Type := {
  format_container : value → string
}.

(** [f"{v}"] *)
Definition format `{Format} (v : value) : string :=
  match v with
  | VNone => "None"
  | VBool true => "True"
  | VBool false => "False"
  | VInt n => pretty n
  | VStr s => s
  | VList _ | VDict _ => format_container v
  end.

(** ** Inline citations *)

(** The fields of [Chunk] and of its [IngestedDoc] that the formatter reads. *)
Record IngestedDoc : Type := {
  doc_id : string;
  doc_metadata : option (gmap string value)
}.

Record Chunk : Type := {
  document : IngestedDoc;
  text : string
}.

Record CitationDetail : Type := {
  index : nat;
  label : string;
  description : string;
  chunk : Chunk
}.

Record InlineCitationFormatter : Type := {
  heading : string
}.

(** [InlineCitationFormatter()] *)
Definition default_formatter : InlineCitationFormatter := {| heading := "Sources" |}.

(** The key under which a chunk is remembered as seen. *)
Definition chunk_key (c : Chunk) : string * string := (doc_id (document c), text c).

(** The first loop of [_build_citation_details]. *)
Fixpoint unique_chunks (seen_chunks : gset (string * string)) (sources : list Chunk)
  : list Chunk :=
  match sources with
  | [] => []
  | chunk :: sources' =>
      if decide (chunk_key chunk ∈ seen_chunks) then unique_chunks seen_chunks sources'
      else chunk :: unique_chunks ({[ chunk_key chunk ]} ∪ seen_chunks) sources'
  end.

Section Citations.
Context `{Format}.

(** The body of the second loop. *)
Definition citation_detail (index : nat) (chunk : Chunk) : CitationDetail :=
  let metadata := default ∅ (doc_metadata (document chunk)) in
  let file_name := get metadata "file_name" VNone in
  let page_label := get metadata "page_label" VNone in
  let doc_reference :=
    if truthy file_name then file_name else VStr (doc_id (document chunk)) in
  let page_suffix :=
    if truthy page_label then " (page " +:+ format page_label +:+ ")" else "" in
  {| index := index;
     label := "[" +:+ pretty index +:+ "]";
     description := strip (format doc_reference +:+ page_suffix);
     chunk := chunk |}.

Definition _build_citation_details (sources : list Chunk) : list CitationDetail :=
  imap (λ i chunk, citation_detail (S i) chunk) (unique_chunks ∅ sources).

Definition build_suffix (self : InlineCitationFormatter) (sources : list Chunk)
  : string :=
  let details := _build_citation_details sources in
  if bool_decide (details = []) then ""
  else
    let inline_markers := str_join " " (label <$> details) in
    let sources_lines := (λ detail, label detail +:+ " " +:+ description detail)
                           <$> details in
    let sources_block := heading self +:+ nl +:+ str_join nl sources_lines in
    " " +:+ inline_markers +:+ nl +:+ nl +:+ sources_block.

Definition decorate (self : InlineCitationFormatter) (text : string)
  (sources : list Chunk) : string :=
  let suffix := build_suffix self sources in
  if bool_decide (suffix = "") then text
  else rstrip text +:+ suffix.
End Citations.

(** ** The chat engine *)

Inductive MessageRole : Type :=
  | SYSTEM | DEVELOPER | USER | ASSISTANT | FUNCTION | TOOL | CHATBOT | MODEL.

#[global] Instance MessageRole_eq_dec : EqDecision MessageRole.
Proof. solve_decision. Defined.

Record ChatMessage : Type := {
  role : MessageRole;
  content : option string
}.

Record ChatEngineInput : Type := {
  system_message : option ChatMessage;
  last_message : option ChatMessage;
  chat_history : option (list ChatMessage)
}.

(** [l.pop(0)] and [l.pop(-1)]: the list that is left; [None] stands for
    [IndexError]. *)
Definition pop_first {A} (l : list A) : option (list A) :=
  match l with
  | [] => None
  | _ :: l' => Some l'
  end.

Definition pop_last {A} (l : list A) : option (list A) :=
  match l with
  | [] => None
  | _ => Some (removelast l)
  end.

(** [ChatEngineInput.from_messages].  The list it is given is changed in
    place, and [chat_history] is that very list: the second component is the
    list as the call leaves it.  A message object is always true. *)
Definition from_messages (messages : list ChatMessage)
  : option (ChatEngineInput * list ChatMessage) :=
  let system_message :=
    match head messages with
    | Some m => if decide (role m = SYSTEM) then Some m else None
    | None => None
    end in
  let last_message :=
    match last messages with
    | Some m => if decide (role m = USER) then Some m else None
    | None => None
    end in
  messages ← (if system_message is Some _ then pop_first messages else Some messages);
  messages ← (if last_message is Some _ then pop_last messages else Some messages);
  let chat_history :=
    if bool_decide (0 < length messages) then Some messages else None in
  Some ({| system_message := system_message;
           last_message := last_message;
           chat_history := chat_history |}, messages).

(** The settings [build_chat_engine] reads; [similarity] stands for the type
    of [rag.similarity_value], with its truth value. *)
Record RerankSettings : Type := {
  enabled : bool;
  model : string;
  top_n : Z
}.

Record RagSettings (similarity : Type) : Type := {
  similarity_top_k : Z;
  similarity_value : option similarity;
  rerank : RerankSettings
}.
Arguments similarity_top_k {similarity} _.
Arguments similarity_value {similarity} _.
Arguments rerank {similarity} _.

Inductive node_postprocessor (similarity : Type) : Type :=
  | MetadataReplacementPostProcessor (target_metadata_key : string)
  | SimilarityPostprocessor (similarity_cutoff : similarity)
  | SentenceTransformerRerank (model : string) (top_n : Z).
Arguments MetadataReplacementPostProcessor {similarity} _.
Arguments SimilarityPostprocessor {similarity} _.
Arguments SentenceTransformerRerank {similarity} _ _.

Record RagWorkflowInput (context_filter : Type) : Type := {
  system_prompt : option string;
  use_context : bool;
  workflow_context_filter : option context_filter
}.
Arguments system_prompt {context_filter} _.
Arguments use_context {context_filter} _.
Arguments workflow_context_filter {context_filter} _.

(** The engines [build_chat_engine] asks llama_index for: the arguments of
    [SimpleChatEngine.from_defaults], and those of
    [ContextChatEngine.from_defaults] with the arguments of [get_retriever]. *)
Inductive chat_engine (similarity context_filter : Type) : Type :=
  | SimpleChatEngine (system_prompt : option string)
  | ContextChatEngine (system_prompt : option string)
      (retriever_context_filter : option context_filter)
      (retriever_similarity_top_k : Z)
      (node_postprocessors : list (node_postprocessor similarity)).
Arguments SimpleChatEngine {similarity context_filter} _.
Arguments ContextChatEngine {similarity context_filter} _ _ _ _.

Section RagWorkflow.
Context {similarity context_filter : Type}.
(** [bool(similarity_value)] for a value that is not [None]. *)
Context (similarity_truthy : similarity → bool).

(** [RagWorkflowFactory.build_chat_engine], for a factory with the settings
    [rag]. *)
Definition build_chat_engine (rag : RagSettings similarity)
  (workflow_input : RagWorkflowInput context_filter)
  : chat_engine similarity context_filter :=
  if negb (use_context workflow_input) then
    SimpleChatEngine (system_prompt workflow_input)
  else
    let node_postprocessors := [MetadataReplacementPostProcessor "window"] in
    let node_postprocessors :=
      match similarity_value rag with
      | Some value =>
          if similarity_truthy value
          then node_postprocessors ++ [SimilarityPostprocessor value]
          else node_postprocessors
      | None => node_postprocessors
      end in
    let node_postprocessors :=
      if enabled (rerank rag)
      then node_postprocessors
             ++ [SentenceTransformerRerank (model (rerank rag)) (top_n (rerank rag))]
      else node_postprocessors in
    ContextChatEngine (system_prompt workflow_input)
      (workflow_context_filter workflow_input) (similarity_top_k rag)
      node_postprocessors.
End RagWorkflow.

(** ** The chat service *)

Record Completion : Type := {
  response : string;
  sources : option (list Chunk)
}.

Record CompletionGen : Type := {
  response_gen : list string;
  gen_sources : option (list Chunk)
}.

Section ChatService.
Context `{Format} {similarity context_filter node : Type}.
Context (similarity_truthy : similarity → bool).
(** [Chunk.from_node] *)
Context (from_node : node → Chunk).
(** [chat_engine.chat(message, chat_history)]: the response text and the
    source nodes; [chat_engine.stream_chat]: the tokens and the source
    nodes. *)
Context (engine_chat : chat_engine similarity context_filter → string →
                       option (list ChatMessage) → string * list node).
Context (engine_stream_chat : chat_engine similarity context_filter → string →
                              option (list ChatMessage) → list string * list node).

(** The service: its settings and its citation formatter. *)
Record ChatService : Type := {
  settings_rag : RagSettings similarity;
  citation_formatter : InlineCitationFormatter
}.

Definition _workflow_input (system_prompt : option string) (use_context : bool)
  (context_filter0 : option context_filter) : RagWorkflowInput context_filter :=
  {| system_prompt := system_prompt;
     use_context := use_context;
     workflow_context_filter := context_filter0 |}.

Definition _decorate_response (self : ChatService) (text : string)
  (sources : list Chunk) (use_context : bool) : string :=
  if negb use_context then text
  else decorate (citation_formatter self) text sources.

(** The generator that yields the tokens of [generator], then [suffix]. *)
Definition _append_suffix_to_generator (generator : list string) (suffix : string)
  : list string :=
  generator ++ [suffix].

Definition stream_chat (self : ChatService) (messages : list ChatMessage)
  (use_context : bool) (context_filter0 : option context_filter)
  : option CompletionGen :=
  '(chat_engine_input, _) ← from_messages messages;
  let last_message :=
    match last_message chat_engine_input with
    | Some m => content m
    | None => None
    end in
  let system_prompt :=
    match system_message chat_engine_input with
    | Some m => content m
    | None => None
    end in
  let chat_history :=
    match chat_history chat_engine_input with
    | Some h => if bool_decide (h = []) then None else Some h
    | None => None
    end in
  let workflow_input := _workflow_input system_prompt use_context context_filter0 in
  let chat_engine :=
    build_chat_engine similarity_truthy (settings_rag self) workflow_input in
  let streaming_response :=
    engine_stream_chat chat_engine (default "" last_message) chat_history in
  let sources := from_node <$> streaming_response.2 in
  let suffix :=
    if use_context && negb (bool_decide (sources = []))
    then build_suffix (citation_formatter self) sources
    else "" in
  let response_gen :=
    if negb (bool_decide (suffix = ""))
    then _append_suffix_to_generator streaming_response.1 suffix
    else streaming_response.1 in
  Some {| response_gen := response_gen; gen_sources := Some sources |}.

Definition chat (self : ChatService) (messages : list ChatMessage)
  (use_context : bool) (context_filter0 : option context_filter)
  : option Completion :=
  '(chat_engine_input, _) ← from_messages messages;
  let last_message :=
    match last_message chat_engine_input with
    | Some m => content m
    | None => None
    end in
  let system_prompt :=
    match system_message chat_engine_input with
    | Some m => content m
    | None => None
    end in
  let chat_history :=
    match chat_history chat_engine_input with
    | Some h => if bool_decide (h = []) then None else Some h
    | None => None
    end in
  let workflow_input := _workflow_input system_prompt use_context context_filter0 in
  let chat_engine :=
    build_chat_engine similarity_truthy (settings_rag self) workflow_input in
  let wrapped_response :=
    engine_chat chat_engine (default "" last_message) chat_history in
  let sources := from_node <$> wrapped_response.2 in
  let response_text := _decorate_response self wrapped_response.1 sources use_context in
  Some {| response := response_text; sources := Some sources |}.
End ChatService.

(** A path the writers can use: no file stands where a directory is needed
    and the path itself is not a directory. *)
Definition writable (fs : filesystem) (p : path) : Prop :=
  (∀ q db, q `prefix_of` parent p → fs !! q ≠ Some (File db))
  ∧ node_at fs p ≠ Some Dir.

(** The database stored at [p], empty when there is no file. *)
Definition stored (fs : filesystem) (p : path) : database :=
  match node_at fs p with
  | Some (File db) => db
  | _ => ∅
  end.

(** The mapping the reader starts from: both sub-mappings empty. *)
Definition empty_store : dict :=
  {[ "documents" := VDict ∅; "ref_doc_info" := VDict ∅ ]}.

(** A snapshot in the shape the writer is given: [documents] and
    [ref_doc_info], when present, are mappings from identifiers to payloads. *)
Definition snapshot (S : dict) : Prop :=
  ∀ k v, k = "documents" ∨ k = "ref_doc_info" → S !! k = Some v → ∃ d, v = VDict d.

(** The mapping under [k], empty when [k] is absent. *)
Definition mapping_of (S : dict) (k : string) : dict :=
  match S !! k with
  | Some (VDict d) => d
  | _ => ∅
  end.

(** The payloads of a snapshot: the values of its documents, of its
    [ref_doc_info] entries, and of its other top-level keys. *)
Definition payload (S : dict) (v : value) : Prop :=
  (∃ k d id, (k = "documents" ∨ k = "ref_doc_info")
             ∧ S !! k = Some (VDict d) ∧ d !! id = Some v)
  ∨ (∃ k, k ≠ "documents" ∧ k ≠ "ref_doc_info" ∧ S !! k = Some v).

(** ** Sequences of calls on one path *)

Inductive call : Type :=
  | Write_docstore (data : dict)
  | Read_docstore
  | Write_indexstore (data : dict)
  | Read_indexstore.

Definition is_read (c : call) : Prop :=
  match c with
  | Read_docstore | Read_indexstore => True
  | _ => False
  end.

(** The exception a call raised, if any. *)
Definition raised {A} (r : result A) : option exn :=
  match r with
  | Ok _ => None
  | Err e => Some e
  end.

Definition run_call `{Codec} (p : path) (c : call) (fs : filesystem)
  : option exn * filesystem :=
  match c with
  | Write_docstore data =>
      (raised (_write_docstore p data fs).1, (_write_docstore p data fs).2)
  | Read_docstore => (raised (_read_docstore p fs).1, (_read_docstore p fs).2)
  | Write_indexstore data =>
      (raised (_write_indexstore p data fs).1, (_write_indexstore p data fs).2)
  | Read_indexstore => (raised (_read_indexstore p fs).1, (_read_indexstore p fs).2)
  end.

(** The calls one after the other, whether they raise or not; the
    exceptions raised, and the files left. *)
Fixpoint run_calls `{Codec} (p : path) (cs : list call) (fs : filesystem)
  : list (option exn) * filesystem :=
  match cs with
  | [] => ([], fs)
  | c :: cs' =>
      let r := run_call p c fs in
      let rs := run_calls p cs' r.2 in
      (r.1 :: rs.1, rs.2)
  end.

(** The tables the two stores create. *)
Definition store_table (t : string) : Prop :=
  t = "documents" ∨ t = "ref_doc_info" ∨ t = "metadata" ∨ t = "index_metadata".

(** ** The scenarios of the design *)

(** Scenario A: one document, no reference documents. *)
Definition scenario_A : dict :=
  {[ "documents" := VDict {[ "d1" := VDict {[ "text" := VStr "hello" ]} ]};
     "ref_doc_info" := VDict ∅ ]}.

(** Scenario B: an extra top-level field next to two empty mappings. *)
Definition scenario_B : dict :=
  {[ "class_name" := VStr "X";
     "documents" := VDict ∅;
     "ref_doc_info" := VDict ∅ ]}.

(** Scenario C: an index-store snapshot. *)
Definition scenario_C : dict :=
  {[ "index_1" := VDict {[ "type" := VStr "vector" ]} ]}.

(** A snapshot without [ref_doc_info]. *)
Definition scenario_partial : dict :=
  {[ "class_name" := VStr "X";
     "documents" := VDict {[ "d1" := VDict {[ "text" := VStr "hello" ]} ]} ]}.

(** A document-store database with one payload that is not JSON. *)
Definition corrupt_db : database :=
  {[ "documents" := {[ "d1" := "{bad" ]};
     "ref_doc_info" := ∅;
     "metadata" := ∅;
     "index_metadata" := {[ "index_1" := "{bad" ]} ]}.

(** The names of the three document-store tables. *)
Definition docstore_table (t : string) : Prop :=
  t = "documents" ∨ t = "ref_doc_info" ∨ t = "metadata".

(** A snapshot whose [ref_doc_info] is a list: the writer fails on it after
    it has cleared and refilled [documents]. *)
Definition scenario_bad : dict :=
  {[ "documents" := VDict {[ "d2" := VInt 2 ]};
     "ref_doc_info" := VList [VInt 1] ]}.

(** A persist directory, and the two database files in it. *)
Definition persist_dir : path := ["local_data"; "private_gpt"].
Definition docstore_path : path := joinpath persist_dir DOCSTORE_DB.
Definition indexstore_path : path := joinpath persist_dir INDEXSTORE_DB.

(** A document-store database whose [metadata] has a row keyed
    [documents]. *)
Definition shadow_db : database :=
  {[ "documents" := {[ "d1" := "1" ]};
     "ref_doc_info" := ∅;
     "metadata" := {[ "documents" := "null" ]} ]}.


(** * Ingestion

    [private_gpt/components/ingest/ingest_helper.py].  The reader that turns a
    file into documents belongs to llama_index and is a parameter. *)

Module Document.
(** The fields of llama_index's [Document] that the helper reads and writes. *)
Record t : Type := {
  doc_id : string;
  text : string;
  metadata : gmap string value;
  excluded_embed_metadata_keys : list string;
  excluded_llm_metadata_keys : list string
}.

(** [Document(text=text, doc_id=doc_id)] *)
Definition new (text doc_id : string) : t :=
  {| doc_id := doc_id;
     text := text;
     metadata := ∅;
     excluded_embed_metadata_keys := [];
     excluded_llm_metadata_keys := [] |}.


(** [document.metadata = metadata] *)
Definition set_metadata (metadata : gmap string value) (document : t) : t :=
  {| doc_id := doc_id document;
     text := text document;
     metadata := metadata;
     excluded_embed_metadata_keys := excluded_embed_metadata_keys document;
     excluded_llm_metadata_keys := excluded_llm_metadata_keys document |}.

(** [document.metadata[key] = v] *)
Definition setitem (key : string) (v : value) (document : t) : t :=
  set_metadata (<[key := v]> (metadata document)) document.


End Document.

(** ** The heading pattern *)

(** The line feed, the only character [re] takes for a line break. *)
Definition is_linebreak (c : ascii) : bool := bool_decide (c = ascii_of_N 10).

Definition is_hash (c : ascii) : bool := bool_decide (c = ascii_of_N 35).

(** A character class repeated at least [lo] and at most [hi] times ([None]:
    any number of times), greedy: the longest repetition is tried first and
    given up character by character while [k], the rest of the pattern, fails
    on what follows. *)
Fixpoint greedy {A} (p : ascii → bool) (lo : nat) (hi : option nat) (s : string)
  (k : string → option A) : option A :=
  let stop := match lo with 0 => k s | S _ => None end in
  match s with
  | String c s' =>
      if p c && negb (bool_decide (hi = Some 0)) then
        match greedy p (pred lo) (pred <$> hi) s' k with
        | Some r => Some r
        | None => stop
        end
      else stop
  | EmptyString => stop
  end.

(** [$] with [re.MULTILINE]: at the end of the text or before a line break. *)
Definition at_end_of_line (s : string) : bool :=
  match s with
  | String c _ => is_linebreak c
  | EmptyString => true
  end.

(** [#{1,6}\s+.+$] matched where [s] starts: the text after the match. *)
Definition _HEADING_PATTERN (s : string) : option string :=
  greedy is_hash 1 (Some 6) s (λ s,
  greedy isspace 1 None s (λ s,
  greedy (λ c, negb (is_linebreak c)) 1 None s (λ s,
  if at_end_of_line s then Some s else None))).

(** A match: where it starts and the group [heading]. *)
Record Match : Type := {
  start : nat;
  group : string
}.

(** The matches from the position [pos] on, [s] being the text from there.
    [^] with [re.MULTILINE] holds at the start of the text and after a line
    break; after a match the search goes on where the match ended, so the
    [skip] characters left of it are passed over. *)
Fixpoint finditer_from (pos : nat) (beginning_of_line : bool) (skip : nat)
  (s : string) : list Match :=
  match s with
  | String c s' =>
      match skip with
      | S skip' => finditer_from (S pos) (is_linebreak c) skip' s'
      | 0 =>
          match (if beginning_of_line then _HEADING_PATTERN s else None) with
          | Some rest =>
              let len := String.length s - String.length rest in
              {| start := pos; group := String.substring 0 len s |}
                :: finditer_from (S pos) (is_linebreak c) (pred len) s'
          | None => finditer_from (S pos) (is_linebreak c) 0 s'
          end
      end
  | EmptyString => []
  end.

(** [list(_HEADING_PATTERN.finditer(text))] *)
Definition finditer (text : string) : list Match := finditer_from 0 true 0 text.

(** ** The helper *)

(** [s.lstrip(chars)] *)
Fixpoint lstrip_chars (chars : list ascii) (s : string) : string :=
  match s with
  | String c s' => if bool_decide (c ∈ chars) then lstrip_chars chars s' else s
  | EmptyString => EmptyString
  end.

(** [s.count(c)] for a string [c] of one character *)
Fixpoint count (c : ascii) (s : string) : nat :=
  match s with
  | String c' s' => (if bool_decide (c' = c) then 1 else 0) + count c s'
  | EmptyString => 0
  end.


(** [text[start:end]] for [start ≤ end] *)
Definition slice (text : string) (start end_ : nat) : string :=
  String.substring start (end_ - start) text.

(** A dictionary is its own deep copy; [metadata or {}] is [metadata]. *)
Definition _clone_metadata (document : Document.t) : gmap string value :=
  Document.metadata document.

(** The chunk of the text before the first heading. *)
Definition preamble_chunk (source_document : Document.t) (prefix : string)
  : Document.t :=
  let chunk_doc :=
    Document.new prefix (Document.doc_id source_document +:+ "_preamble") in
  let chunk_doc := Document.set_metadata (_clone_metadata source_document) chunk_doc in
  let chunk_doc := Document.setitem "chapter_title" (VStr "Preamble") chunk_doc in
  Document.setitem "chapter_level" (VInt 0) chunk_doc.

(** The chunk of the heading [idx], if its text is not empty. *)
Definition chapter_chunk (source_document : Document.t) (text : string)
  (heading_matches : list Match) (idx : nat) (match_ : Match)
  : option Document.t :=
  let start_ := start match_ in
  let end_ :=
    match heading_matches !! (idx + 1) with
    | Some next => start next
    | None => String.length text
    end in
  let chunk_text := strip (slice text start_ end_) in
  if bool_decide (chunk_text = "") then None
  else
    let heading_line := group match_ in
    let chunk_doc :=
      Document.new chunk_text
        (Document.doc_id source_document +:+ "_chapter_" +:+ pretty idx) in
    let chunk_doc := Document.set_metadata (_clone_metadata source_document) chunk_doc in
    let chunk_doc :=
      Document.setitem "chapter_title"
        (VStr (strip (lstrip_chars [ascii_of_N 35] heading_line))) chunk_doc in
    Some (Document.setitem "chapter_level"
            (VInt (Z.of_nat (count (ascii_of_N 35) heading_line))) chunk_doc).

(** The text of a document is a string, and [text or ""] is that string.
    The chunks are returned in the order in which they are appended. *)
Definition _chunk_document_by_markdown_heading (source_document : Document.t)
  : list Document.t :=
  let text := Document.text source_document in
  let heading_matches := finditer text in
  match heading_matches with
  | [] =>
      let cloned_document := Document.new text (Document.doc_id source_document) in
      [Document.set_metadata (_clone_metadata source_document) cloned_document]
  | first :: _ =>
      let first_heading_start := start first in
      let prefix := strip (slice text 0 first_heading_start) in
      let chunks :=
        if bool_decide (prefix = "") then []
        else [preamble_chunk source_document prefix] in
      chunks ++ omap id (imap (chapter_chunk source_document text heading_matches)
                           heading_matches)
  end.


Section Reader.
(** [DoclingReader().load_data], when the reader could be imported. *)
Context (load_data : option (path → list Document.t)).


End Reader.

(** ** What the pattern and the chunks are compared with *)

(** Every character of [s] is in the class [p]. *)
Fixpoint all_chars (p : ascii → bool) (s : string) : bool :=
  match s with
  | String c s' => p c && all_chars p s'
  | EmptyString => true
  end.

(** [text] ends with a line break. *)
Fixpoint ends_line (text : string) : bool :=
  match text with
  | String c EmptyString => is_linebreak c
  | String _ text' => ends_line text'
  | EmptyString => false
  end.

(** An occurrence of the heading pattern in [text]: [heading] stands after
    [before] and in front of [after], at the beginning and at the end of a
    line, and is one to six hashes, white space and a title without line
    break. *)
Definition occurrence (text before heading after : string) : Prop :=
  text = before +:+ heading +:+ after
  ∧ (before = "" ∨ ends_line before = true)
  ∧ at_end_of_line after = true
  ∧ ∃ hashes spaces title,
      heading = hashes +:+ spaces +:+ title
      ∧ all_chars is_hash hashes = true
      ∧ (1 ≤ String.length hashes ≤ 6)%nat
      ∧ all_chars isspace spaces = true
      ∧ (1 ≤ String.length spaces)%nat
      ∧ all_chars (λ c, negb (is_linebreak c)) title = true
      ∧ (1 ≤ String.length title)%nat.

(** What a match says about the text: it is an occurrence of the pattern
    that starts at [start]. *)
Definition match_in (text : string) (m : Match) : Prop :=
  ∃ before after,
    occurrence text before (group m) after ∧ start m = String.length before.

(** Matches follow each other without overlap. *)
Definition before_match (m1 m2 : Match) : Prop :=
  (start m1 + String.length (group m1) ≤ start m2)%nat.

(** The metadata of the chunk of the match [m]. *)
Definition chapter_metadata (source : Document.t) (m : Match) : gmap string value :=
  <["chapter_level" := VInt (Z.of_nat (count (ascii_of_N 35) (group m)))]>
    (<["chapter_title" := VStr (strip (lstrip_chars [ascii_of_N 35] (group m)))]>
       (Document.metadata source)).

(** The segments of [text] that start at the positions [starts]: each one
    ends where the next one starts, the last one with the text. *)
Fixpoint cuts (text : string) (starts : list nat) : list string :=
  match starts with
  | [] => []
  | a :: l => slice text a (default (String.length text) (head l)) :: cuts text l
  end.

(** ** Conversations and sources *)

(** The pieces of a text put together: what a client holds once it has read
    every token of a stream. *)
Definition joined (tokens : list string) : string := foldr String.append "" tokens.

(** Metadata whose values are no lists and no dictionaries: [str()] of a
    container is never asked for. *)
Definition flat_format : Format := {| format_container := λ _, "" |}.

Definition report_page : Chunk :=
  {| document := {| doc_id := "doc-1";
                    doc_metadata := Some {[ "file_name" := VStr "report.pdf";
                                            "page_label" := VStr "4" ]} |};
     text := "Revenue grew." |}.

(** The same document and text as [report_page], with other metadata. *)
Definition report_again : Chunk :=
  {| document := {| doc_id := "doc-1"; doc_metadata := None |};
     text := "Revenue grew." |}.

Definition notes : Chunk :=
  {| document := {| doc_id := "doc-2"; doc_metadata := None |};
     text := "Costs fell." |}.

(** An engine that answers every message with the same two tokens and, with
    context, the same three nodes. *)
Definition fixed_stream (engine : chat_engine Z unit) (message : string)
  (history : option (list ChatMessage)) : list string * list Chunk :=
  (["Revenue grew"; ". "],
   match engine with
   | SimpleChatEngine _ => []
   | ContextChatEngine _ _ _ _ => [report_page; notes; report_again]
   end).

Definition fixed_chat (engine : chat_engine Z unit) (message : string)
  (history : option (list ChatMessage)) : string * list Chunk :=
  (joined (fixed_stream engine message history).1,
   (fixed_stream engine message history).2).

Definition rag_settings : RagSettings Z :=
  {| similarity_top_k := 2;
     similarity_value := Some 0%Z;
     rerank := {| enabled := true; model := "cross-encoder"; top_n := 1 |} |}.

Definition conversation : list ChatMessage :=
  [ {| role := SYSTEM; content := Some "Be brief." |};
    {| role := USER; content := Some "How was the year?" |};
    {| role := ASSISTANT; content := Some "Good." |};
    {| role := USER; content := Some "And revenue?" |} ].

(** A document with a preamble and two headings, and one without heading. *)
Definition handbook_text : string :=
  "Intro" +:+ nl +:+ "# Setup" +:+ nl +:+ "Install it." +:+ nl
  +:+ "## C# notes" +:+ nl.

Definition handbook : Document.t :=
  {| Document.doc_id := "hb";
     Document.text := handbook_text;
     Document.metadata := {[ "page_label" := VStr "1" ]};
     Document.excluded_embed_metadata_keys := [];
     Document.excluded_llm_metadata_keys := [] |}.

Definition plain_note : Document.t :=
  {| Document.doc_id := "note";
     Document.text := "No heading here.";
     Document.metadata := ∅;
     Document.excluded_embed_metadata_keys := [];
     Document.excluded_llm_metadata_keys := [] |}.

(** * Properties *)

(** ** Connections and statements *)

Lemma connect_open_db fs p : connect fs p = clean <$> open_db fs p.
Proof.
  unfold connect, open_db, clean.
  destruct (node_at fs p) as [[|db]|]; try reflexivity.
  destruct (node_at fs (parent p)) as [[|db]|]; reflexivity.
Qed.

Lemma lookup_create_if_absent t t' db :
  create_if_absent t db !! t' =
    if decide (t = t') then Some (default ∅ (db !! t)) else db !! t'.
Proof.
  unfold create_if_absent. destruct (db !! t) as [tbl|] eqn:E.
  - case_decide; subst; simpl; congruence.
  - rewrite lookup_insert. case_decide; reflexivity.
Qed.

Lemma create_if_absent_subseteq t db : db ⊆ create_if_absent t db.
Proof.
  unfold create_if_absent. destruct (db !! t) eqn:E; [done|].
  by apply insert_subseteq.
Qed.

Lemma create_if_absent_idemp t db :
  create_if_absent t (create_if_absent t db) = create_if_absent t db.
Proof.
  unfold create_if_absent at 1. rewrite lookup_create_if_absent.
  by rewrite decide_True.
Qed.

Lemma insert_create_if_absent t tbl db :
  <[t := tbl]> (create_if_absent t db) = <[t := tbl]> db.
Proof.
  unfold create_if_absent. destruct (db !! t); [done|].
  by rewrite insert_insert_eq.
Qed.

Lemma create_if_absent_insert_ne t t' tbl db :
  t ≠ t' →
  create_if_absent t (<[t' := tbl]> db) = <[t' := tbl]> (create_if_absent t db).
Proof.
  intros Hne. unfold create_if_absent. rewrite lookup_insert_ne by done.
  destruct (db !! t); [done|]. by apply insert_insert_ne.
Qed.

Lemma create_if_absent_comm t t' db :
  create_if_absent t (create_if_absent t' db)
  = create_if_absent t' (create_if_absent t db).
Proof.
  destruct (decide (t = t')) as [->|Hne]; [done|].
  unfold create_if_absent at 1 3.
  rewrite !lookup_create_if_absent, !decide_False by done.
  destruct (db !! t) eqn:Et, (db !! t') eqn:Et'; unfold create_if_absent;
    rewrite ?Et, ?Et'; try done.
  by apply insert_insert_ne.
Qed.

Lemma sql_bind_ok {A B} (m : sql A) (f : A → sql B) c a c' :
  m c = (Ok a, c') → (m ≫= f) c = f a c'.
Proof. intros E. unfold mbind, sql_bind. by rewrite E. Qed.

Lemma sql_bind_err {A B} (m : sql A) (f : A → sql B) c e c' :
  m c = (Err e, c') → (m ≫= f) c = (Err e, c').
Proof. intros E. unfold mbind, sql_bind. by rewrite E. Qed.

Lemma execute_create_clean t db :
  execute (CREATE_TABLE true t) (clean db) = (Ok (), clean (create_if_absent t db)).
Proof.
  unfold execute, clean, create_if_absent; simpl.
  destruct (db !! t); reflexivity.
Qed.

Lemma execute_delete t c tbl :
  view c !! t = Some tbl →
  execute (DELETE_FROM t) c =
    (Ok (), {| committed := committed c; view := <[t := ∅]> (view c);
               in_transaction := true |}).
Proof. intros E. unfold execute. by rewrite E. Qed.

Lemma executemany_insert_rows t rows c tbl :
  view c !! t = Some tbl →
  in_transaction c = true →
  executemany t rows c =
    (Ok (), {| committed := committed c;
               view := <[t := insert_rows rows tbl]> (view c);
               in_transaction := true |}).
Proof.
  revert c tbl. induction rows as [|[k s] rows IH]; intros c tbl Ht Htx; simpl.
  - unfold mret, sql_ret. rewrite insert_id by done. destruct c; simpl in *.
    by subst.
  - erewrite sql_bind_ok; last first.
    { unfold execute. rewrite Ht. reflexivity. }
    erewrite IH; simpl; [|by rewrite lookup_insert_eq|done].
    by rewrite insert_insert_eq.
Qed.

Lemma insert_rows_union rows (tbl : table) :
  NoDup rows.*1 → insert_rows rows tbl = list_to_map rows ∪ tbl.
Proof.
  revert tbl. induction rows as [|[k s] rows IH]; intros tbl Hnd; simpl.
  - by rewrite (left_id_L ∅ (∪)).
  - inversion_clear Hnd as [|?? Hk Hnd'].
    unfold insert_rows in *. simpl. rewrite IH by done.
    rewrite <- insert_union_r by (by apply not_elem_of_list_to_map_1).
    by rewrite insert_union_l.
Qed.

Section StatementFacts.
Context `{Codec}.

Lemma dumped_prod_map rows : dumped rows = prod_map id dumps <$> rows.
Proof. unfold dumped. apply list_fmap_ext. by intros ? [??]. Qed.

Lemma insert_rows_dumped (d : dict) (tbl : table) :
  insert_rows (dumped (map_to_list d)) tbl = (dumps <$> d) ∪ tbl.
Proof.
  rewrite insert_rows_union.
  - by rewrite dumped_prod_map, list_to_map_fmap, list_to_map_to_list.
  - assert ((dumped (map_to_list d)).*1 = (map_to_list d).*1) as ->.
    { rewrite dumped_prod_map, <- list_fmap_compose.
      apply list_fmap_ext. by intros ? [??]. }
    apply NoDup_fst_map_to_list.
Qed.

Lemma truthy_dict_false (d : dict) : truthy (VDict d) = false → d = ∅.
Proof.
  simpl. intros E. apply negb_false_iff in E. by apply bool_decide_eq_true in E.
Qed.

(** Clearing a table and filling it from the value [v]. *)
Lemma replace_rows_spec {A} t v (k : sql A) c tbl :
  view c !! t = Some tbl →
  (execute (DELETE_FROM t) ;;
   (if truthy v then rows ← lift (items v); executemany t (dumped rows)
    else mret ()) ;;
   k) c
  = match rows_of v with
    | Ok d => k {| committed := committed c;
                   view := <[t := dumps <$> d]> (view c);
                   in_transaction := true |}
    | Err e => (Err e, {| committed := committed c;
                          view := <[t := ∅]> (view c);
                          in_transaction := true |})
    end.
Proof.
  intros Ht. erewrite sql_bind_ok by (by eapply execute_delete).
  set (c1 := {| committed := committed c; view := <[t := ∅]> (view c);
                in_transaction := true |}).
  assert (Hfill : ∀ d : dict,
    executemany t (dumped (map_to_list d)) c1
    = (Ok (), {| committed := committed c;
                 view := <[t := dumps <$> d]> (view c);
                 in_transaction := true |})).
  { intros d. erewrite executemany_insert_rows;
      [|subst c1; simpl; apply lookup_insert_eq|done].
    subst c1; simpl.
    by rewrite insert_insert_eq, insert_rows_dumped, (right_id_L ∅ (∪)). }
  destruct v as [| b | n | s | l | d]; unfold rows_of;
    destruct (truthy _) eqn:Etr;
    try (rewrite fmap_empty; reflexivity); try reflexivity.
  - erewrite sql_bind_ok; [reflexivity|].
    erewrite sql_bind_ok by reflexivity. apply Hfill.
  - apply truthy_dict_false in Etr as ->.
    by rewrite fmap_empty.
Qed.
End StatementFacts.

Lemma with_connection_eq {A} p (body : sql A) fs :
  with_connection p body fs =
    match open_db fs p with
    | Ok db => ((body (clean db)).1, <[p := File (committed (body (clean db)).2)]> fs)
    | Err e => (Err e, fs)
    end.
Proof.
  unfold with_connection. rewrite connect_open_db.
  destruct (open_db fs p) as [db|e]; simpl; [|done].
  by destruct (body (clean db)).
Qed.

Lemma with_docstore_schema_lookup db t :
  t = "documents" ∨ t = "ref_doc_info" ∨ t = "metadata" →
  with_docstore_schema db !! t = Some (default ∅ (db !! t)).
Proof.
  unfold with_docstore_schema. rewrite !lookup_create_if_absent.
  intros [-> | [-> | ->]]; repeat (case_decide; try done); simplify_eq;
    by destruct (db !! _).
Qed.

Lemma with_docstore_schema_lookup_ne db t :
  t ≠ "documents" → t ≠ "ref_doc_info" → t ≠ "metadata" →
  with_docstore_schema db !! t = db !! t.
Proof.
  intros. unfold with_docstore_schema. rewrite !lookup_create_if_absent.
  by rewrite !decide_False.
Qed.

Lemma with_docstore_schema_subseteq db : db ⊆ with_docstore_schema db.
Proof.
  unfold with_docstore_schema.
  repeat (etrans; [|apply create_if_absent_subseteq]). done.
Qed.

Lemma with_docstore_schema_idemp db :
  with_docstore_schema (with_docstore_schema db) = with_docstore_schema db.
Proof.
  apply map_eq. intros t.
  destruct (decide (t = "documents" ∨ t = "ref_doc_info" ∨ t = "metadata"))
    as [Ht|Ht].
  - by rewrite !with_docstore_schema_lookup by done.
  - rewrite !with_docstore_schema_lookup_ne by tauto. done.
Qed.

Section WriterFacts.
Context `{Codec}.

Lemma ensure_docstore_schema_clean db :
  _ensure_docstore_schema (clean db) = (Ok (), clean (with_docstore_schema db)).
Proof.
  unfold _ensure_docstore_schema.
  erewrite sql_bind_ok by apply execute_create_clean.
  erewrite sql_bind_ok by apply execute_create_clean.
  apply execute_create_clean.
Qed.

Lemma replace_dict_spec {A} t (d : dict) (k : sql A) c tbl :
  view c !! t = Some tbl →
  (execute (DELETE_FROM t) ;;
   (if truthy (VDict d) then executemany t (dumped (map_to_list d))
    else mret ()) ;;
   k) c
  = k {| committed := committed c;
         view := <[t := dumps <$> d]> (view c);
         in_transaction := true |}.
Proof.
  intros Ht. erewrite sql_bind_ok by (by eapply execute_delete).
  destruct (truthy (VDict d)) eqn:Etr.
  - erewrite sql_bind_ok; [reflexivity|].
    erewrite executemany_insert_rows; [|simpl; apply lookup_insert_eq|done].
    simpl. by rewrite insert_insert_eq, insert_rows_dumped, (right_id_L ∅ (∪)).
  - apply truthy_dict_false in Etr as ->. by rewrite fmap_empty.
Qed.

Lemma written_with_docstore_schema db docs ref_docs extra :
  written (with_docstore_schema db) docs ref_docs extra
  = written db docs ref_docs extra.
Proof.
  unfold written, with_docstore_schema.
  rewrite <- !(create_if_absent_insert_ne _ "documents") by done.
  rewrite insert_create_if_absent.
  rewrite <- !(create_if_absent_insert_ne _ "ref_doc_info") by done.
  rewrite insert_create_if_absent.
  by rewrite insert_create_if_absent.
Qed.

(** What a document-store write does, case by case. *)
Lemma write_docstore_eq p data fs :
  _write_docstore p data fs =
    match mkdir fs (parent p) with
    | Err e => (Err e, fs)
    | Ok fs1 =>
        match open_db fs1 p with
        | Err e => (Err e, fs1)
        | Ok db =>
            match rows_of (get data "documents" (VDict ∅)) with
            | Err e => (Err e, <[p := File (with_docstore_schema db)]> fs1)
            | Ok docs =>
                match rows_of (get data "ref_doc_info" (VDict ∅)) with
                | Err e => (Err e, <[p := File (with_docstore_schema db)]> fs1)
                | Ok ref_docs =>
                    (Ok (),
                     <[p := File (written db docs ref_docs (extra_of data))]> fs1)
                end
            end
        end
    end.
Proof.
  unfold _write_docstore, mbind at 1, io_bind, mkdir_parents.
  destruct (mkdir fs (parent p)) as [fs1|e]; [|done].
  rewrite with_connection_eq.
  destruct (open_db fs1 p) as [db|e]; [|done].
  erewrite sql_bind_ok by apply ensure_docstore_schema_clean.
  cbv zeta.
  erewrite replace_rows_spec
    by (simpl; apply with_docstore_schema_lookup; auto).
  destruct (rows_of (get data "documents" _)) as [docs|e]; [|done].
  erewrite replace_rows_spec; last first.
  { simpl. rewrite lookup_insert_ne by done.
    apply with_docstore_schema_lookup; auto. }
  destruct (rows_of (get data "ref_doc_info" _)) as [ref_docs|e]; [|done].
  erewrite replace_dict_spec; last first.
  { simpl. rewrite !lookup_insert_ne by done.
    apply with_docstore_schema_lookup; auto. }
  simpl. by rewrite <- written_with_docstore_schema.
Qed.

(** The same for the index store. *)
Lemma write_indexstore_eq p data fs :
  _write_indexstore p data fs =
    match mkdir fs (parent p) with
    | Err e => (Err e, fs)
    | Ok fs1 =>
        match open_db fs1 p with
        | Err e => (Err e, fs1)
        | Ok db =>
            (Ok (), <[p := File (<["index_metadata" := dumps <$> data]> db)]> fs1)
        end
    end.
Proof.
  unfold _write_indexstore, mbind at 1, io_bind, mkdir_parents.
  destruct (mkdir fs (parent p)) as [fs1|e]; [|done].
  rewrite with_connection_eq.
  destruct (open_db fs1 p) as [db|e]; [|done].
  erewrite sql_bind_ok by apply execute_create_clean.
  erewrite replace_dict_spec; last first.
  { simpl. rewrite lookup_create_if_absent, decide_True by done. done. }
  simpl. by rewrite insert_create_if_absent.
Qed.
End WriterFacts.

(** ** Reading *)

Lemma select_view t c tbl :
  view c !! t = Some tbl → select t c = (Ok (map_to_list tbl), c).
Proof. intros E. unfold select. by rewrite E. Qed.

Lemma lift_bind {A B} (r : result A) (f : A → sql B) c :
  (lift r ≫= f) c = match r with Ok a => f a c | Err e => (Err e, c) end.
Proof. unfold mbind, sql_bind, lift. by destruct r. Qed.

Section ReaderFacts.
Context `{Codec}.

Lemma for_each_store_union rows (acc : dict) :
  for_each rows store_row acc = (m ← for_each rows store_row ∅; mret (m ∪ acc)).
Proof.
  revert acc. induction rows as [|[k s] rows IH]; intros acc; simpl.
  - unfold mret, result_ret. by rewrite (left_id_L ∅ (∪)).
  - unfold store_row at 1 3, json_loads; simpl.
    destruct (loads s) as [v|]; simpl; [|done].
    rewrite (IH (<[k := v]> acc)), (IH (<[k := v]> ∅)).
    destruct (for_each rows store_row ∅) as [m|e]; simpl; [|done].
    unfold mret, result_ret. f_equal.
    rewrite insert_empty, <- (assoc_L (∪)). by rewrite <- insert_union_singleton_l.
Qed.

Lemma for_each_store_ok rows :
  NoDup rows.*1 →
  Forall (λ row, is_Some (loads row.2)) rows →
  for_each rows store_row ∅ = Ok (omap loads (list_to_map rows)).
Proof.
  induction rows as [|[k s] rows IH]; intros Hnd Hall; simpl.
  - by rewrite omap_empty.
  - inversion_clear Hnd as [|?? Hk Hnd'].
    inversion_clear Hall as [|?? [v Hv] Hall']. simpl in Hv.
    unfold store_row at 1, json_loads; simpl. rewrite Hv; simpl.
    rewrite for_each_store_union, IH by done. simpl.
    unfold mret, result_ret. f_equal.
    erewrite omap_insert_Some by done.
    rewrite insert_empty, (insert_union_singleton_l (omap _ _)).
    apply map_union_comm. apply map_disjoint_singleton_r.
    rewrite lookup_omap. apply not_elem_of_list_to_map_1 in Hk.
    by rewrite Hk.
Qed.

Lemma for_each_store_err rows :
  ¬ Forall (λ row, is_Some (loads row.2)) rows →
  ∃ row, row ∈ rows ∧ loads row.2 = None
         ∧ for_each rows store_row ∅ = Err (JSONDecodeError row.2).
Proof.
  cut (∀ acc, ¬ Forall (λ row, is_Some (loads row.2)) rows →
         ∃ row, row ∈ rows ∧ loads row.2 = None
                ∧ for_each rows store_row acc = Err (JSONDecodeError row.2)).
  { intros Hc. apply Hc. }
  induction rows as [|[k s] rows IH]; intros acc Hall; simpl.
  - destruct Hall. constructor.
  - unfold store_row at 1, json_loads; simpl.
    destruct (loads s) as [v|] eqn:Hv; simpl.
    + destruct (IH (<[k := v]> acc)) as (row & Hin & Hrow & E).
      { intros Hall'. apply Hall. constructor; [simpl; by rewrite Hv|done]. }
      exists row. split_and!; [by right|done|done].
    + exists (k, s). split_and!; [by left|done|done].
Qed.

Lemma decode_table_ok tbl :
  decodable tbl → decode_table tbl = Ok (omap loads tbl).
Proof.
  intros Hd. unfold decode_table.
  rewrite for_each_store_ok.
  - by rewrite list_to_map_to_list.
  - apply NoDup_fst_map_to_list.
  - apply Forall_forall. intros [k s] Hin%elem_of_map_to_list. by eapply Hd.
Qed.

Lemma decode_table_err tbl :
  ¬ decodable tbl →
  ∃ k s, tbl !! k = Some s ∧ loads s = None
         ∧ decode_table tbl = Err (JSONDecodeError s).
Proof.
  intros Hd. unfold decode_table.
  destruct (for_each_store_err (map_to_list tbl)) as ([k s] & Hin & Hs & E).
  { intros Hall. apply Hd. intros k s Hks.
    rewrite Forall_forall in Hall.
    by apply (Hall (k, s)), elem_of_map_to_list. }
  exists k, s. by apply elem_of_map_to_list in Hin.
Qed.

Lemma decodable_dec tbl : decodable tbl ∨ ¬ decodable tbl.
Proof.
  destruct (decide (map_Forall (λ _ s, is_Some (loads s)) tbl)) as [Hd|Hd];
    [left|right]; done.
Qed.

(** The loop body [data[k][key] = json.loads(payload)]. *)
Lemma for_each_setitem_in rows k (data d : dict) :
  data !! k = Some (VDict d) →
  for_each rows
    (λ data row, v ← json_loads row.2; setitem_in data k row.1 v) data
  = (m ← for_each rows store_row d; mret (<[k := VDict m]> data)).
Proof.
  revert data d. induction rows as [|[k' s] rows IH]; intros data d Hk; simpl.
  - unfold mret, result_ret. by rewrite insert_id.
  - unfold store_row at 1, json_loads; simpl.
    destruct (loads s) as [v|]; simpl; [|done].
    unfold setitem_in. rewrite Hk.
    erewrite IH by apply lookup_insert_eq.
    destruct (for_each rows store_row _) as [m|e]; simpl; [|done].
    unfold mret, result_ret. by rewrite insert_insert_eq.
Qed.
End ReaderFacts.

Section ReaderEquations.
Context `{Codec}.

Lemma exists_false fs p : exists_ fs p = false ↔ node_at fs p = None.
Proof.
  unfold exists_. rewrite bool_decide_eq_false, <- eq_None_not_Some. done.
Qed.

(** What a document-store read does, case by case. *)
Lemma read_docstore_eq p fs :
  _read_docstore p fs =
    match node_at fs p with
    | None => (Err (FileNotFoundError p), fs)
    | Some Dir => (Err (OperationalError unable_to_open_database_file), fs)
    | Some (File db) =>
        (decode_docstore (with_docstore_schema db),
         <[p := File (with_docstore_schema db)]> fs)
    end.
Proof.
  unfold _read_docstore.
  destruct (exists_ fs p) eqn:Eex; simpl.
  2:{ apply exists_false in Eex. by rewrite Eex. }
  rewrite with_connection_eq. unfold open_db.
  destruct (node_at fs p) as [[|db]|] eqn:Enode; [done| |].
  2:{ apply exists_false in Enode. congruence. }
  set (db1 := with_docstore_schema db).
  match goal with
  | |- ((?b ?c).1, _) = _ =>
      assert (Hb : b c = (decode_docstore db1, clean db1)); [|by rewrite Hb]
  end.
  erewrite sql_bind_ok by apply ensure_docstore_schema_clean.
  fold db1.
  assert (Htbl : ∀ t, t = "documents" ∨ t = "ref_doc_info" ∨ t = "metadata" →
            view (clean db1) !! t = Some (table_of db1 t)).
  { intros t Ht. simpl. unfold table_of. subst db1.
    rewrite !with_docstore_schema_lookup by done. done. }
  cbv zeta.
  erewrite sql_bind_ok by (apply select_view, Htbl; auto).
  rewrite lift_bind.
  erewrite for_each_setitem_in by (by simplify_map_eq).
  unfold decode_docstore. fold (decode_table (table_of db1 "documents")).
  destruct (decode_table (table_of db1 "documents")) as [docs|e]; simpl; [|done].
  erewrite sql_bind_ok by (apply select_view, Htbl; auto).
  rewrite lift_bind.
  erewrite for_each_setitem_in by (by simplify_map_eq).
  fold (decode_table (table_of db1 "ref_doc_info")).
  destruct (decode_table (table_of db1 "ref_doc_info")) as [refs|e]; simpl;
    [|done].
  erewrite sql_bind_ok by (apply select_view, Htbl; auto).
  rewrite lift_bind. fold store_row.
  rewrite for_each_store_union.
  fold (decode_table (table_of db1 "metadata")).
  destruct (decode_table (table_of db1 "metadata")) as [extra|e]; simpl;
    [|done].
  unfold mret, result_ret, sql_ret; simpl. by f_equal.
Qed.

Lemma read_indexstore_eq p fs :
  _read_indexstore p fs =
    match node_at fs p with
    | None => (Err (FileNotFoundError p), fs)
    | Some Dir => (Err (OperationalError unable_to_open_database_file), fs)
    | Some (File db) =>
        (decode_table (table_of db "index_metadata"),
         <[p := File (create_if_absent "index_metadata" db)]> fs)
    end.
Proof.
  unfold _read_indexstore.
  destruct (exists_ fs p) eqn:Eex; simpl.
  2:{ apply exists_false in Eex. by rewrite Eex. }
  rewrite with_connection_eq. unfold open_db.
  destruct (node_at fs p) as [[|db]|] eqn:Enode; [done| |].
  2:{ apply exists_false in Enode. congruence. }
  match goal with
  | |- ((?b ?c).1, _) = _ =>
      assert (Hb : b c = (decode_table (table_of db "index_metadata"),
                          clean (create_if_absent "index_metadata" db)));
      [|by rewrite Hb]
  end.
  erewrite sql_bind_ok by apply execute_create_clean.
  cbv zeta.
  erewrite sql_bind_ok; last first.
  { apply select_view. simpl. rewrite lookup_create_if_absent.
    by rewrite decide_True. }
  rewrite lift_bind. fold (table_of db "index_metadata"). fold store_row.
  fold (decode_table (table_of db "index_metadata")).
  by destruct (decode_table (table_of db "index_metadata")) as [data|e].
Qed.
End ReaderEquations.

(** ** Directories *)

Lemma mkdir_from_subseteq fs cur rest fs' :
  mkdir_from fs cur rest = Ok fs' → fs ⊆ fs'.
Proof.
  revert fs cur. induction rest as [|c rest IH]; intros fs cur E; simpl in E.
  - by simplify_eq.
  - destruct (fs !! (cur ++ [c])) as [[|db]|] eqn:Eq.
    + by eapply IH.
    + by destruct rest.
    + etrans; [|by eapply IH]. by apply insert_subseteq.
Qed.

Lemma mkdir_from_longer fs cur rest fs' q :
  mkdir_from fs cur rest = Ok fs' →
  length (cur ++ rest) < length q → fs' !! q = fs !! q.
Proof.
  revert fs cur. induction rest as [|c rest IH]; intros fs cur E Hlen;
    simpl in E.
  - by simplify_eq.
  - assert (Hlen' : length ((cur ++ [c]) ++ rest) < length q)
      by (by rewrite <- app_assoc).
    destruct (fs !! (cur ++ [c])) as [[|db]|] eqn:Eq.
    + by eapply IH.
    + by destruct rest.
    + erewrite IH by done. apply lookup_insert_ne. intros Heq.
      rewrite <- Heq, !length_app in Hlen'. lia.
Qed.

Lemma mkdir_from_dirs fs cur rest fs' k1 k2 :
  mkdir_from fs cur rest = Ok fs' →
  rest = k1 ++ k2 → k1 ≠ [] → fs' !! (cur ++ k1) = Some Dir.
Proof.
  revert fs cur k1. induction rest as [|c rest IH]; intros fs cur k1 E Hk Hne.
  - by destruct k1.
  - destruct k1 as [|c' k1]; [done|]. simpl in Hk. simplify_eq.
    simpl in E.
    assert (Hstep : ∀ fs0, fs0 !! (cur ++ [c']) = Some Dir →
              mkdir_from fs0 (cur ++ [c']) (k1 ++ k2) = Ok fs' →
              fs' !! (cur ++ c' :: k1) = Some Dir).
    { intros fs0 Hq E0. destruct k1 as [|c'' k1].
      - eapply lookup_weaken; [done|]. by eapply mkdir_from_subseteq.
      - rewrite (cons_middle c' cur), app_assoc. by eapply IH. }
    destruct (fs !! (cur ++ [c'])) as [[|db]|] eqn:Eq.
    + by eapply Hstep.
    + by destruct (k1 ++ k2).
    + eapply Hstep; [|done]. apply lookup_insert_eq.
Qed.

Lemma mkdir_from_stable fs cur rest :
  (∀ k1 k2, rest = k1 ++ k2 → k1 ≠ [] → fs !! (cur ++ k1) = Some Dir) →
  mkdir_from fs cur rest = Ok fs.
Proof.
  revert cur. induction rest as [|c rest IH]; intros cur Hd; simpl; [done|].
  rewrite (Hd [c] rest) by done. apply IH.
  intros k1 k2 -> Hne. rewrite <- app_assoc. by eapply (Hd (c :: k1)).
Qed.

Lemma mkdir_from_ok fs cur rest :
  (∀ k1 k2 db, rest = k1 ++ k2 → k1 ≠ [] → fs !! (cur ++ k1) ≠ Some (File db)) →
  ∃ fs', mkdir_from fs cur rest = Ok fs'.
Proof.
  revert fs cur. induction rest as [|c rest IH]; intros fs cur Hd; simpl;
    [by eexists|].
  destruct (fs !! (cur ++ [c])) as [[|db]|] eqn:Eq.
  - apply IH. intros k1 k2 db -> Hne.
    rewrite <- app_assoc. by eapply (Hd (c :: k1)).
  - by destruct (Hd [c] rest db).
  - apply IH. intros k1 k2 db -> Hne.
    rewrite lookup_insert_ne.
    + rewrite <- app_assoc. by eapply (Hd (c :: k1)).
    + intros Heq. apply (f_equal length) in Heq.
      rewrite !length_app in Heq. destruct k1; simpl in *; [done|lia].
Qed.

Lemma mkdir_from_error fs cur rest e :
  mkdir_from fs cur rest = Err e →
  (∃ q, e = FileExistsError q) ∨ (∃ q, e = NotADirectoryError q).
Proof.
  revert fs cur. induction rest as [|c rest IH]; intros fs cur E; simpl in E;
    [done|].
  destruct (fs !! (cur ++ [c])) as [[|db]|] eqn:Eq; [by eapply IH| |by eapply IH].
  destruct rest; simplify_eq; eauto.
Qed.

Lemma parent_length p : p ≠ [] → length p = S (length (parent p)).
Proof.
  intros Hp. unfold parent.
  rewrite (app_removelast_last "" Hp) at 1.
  rewrite length_app. simpl. lia.
Qed.

Lemma node_at_nonempty fs p : p ≠ [] → node_at fs p = fs !! p.
Proof. by destruct p. Qed.

Lemma mkdir_node_at_parent fs d fs' : mkdir fs d = Ok fs' → node_at fs' d = Some Dir.
Proof.
  intros E. destruct d as [|c d]; [done|].
  rewrite node_at_nonempty by done.
  apply (mkdir_from_dirs fs [] (c :: d) fs' (c :: d) []); [done| |done].
  by rewrite app_nil_r.
Qed.

Lemma mkdir_lookup_child fs p fs' :
  p ≠ [] → mkdir fs (parent p) = Ok fs' → fs' !! p = fs !! p.
Proof.
  intros Hp E. eapply mkdir_from_longer; [done|].
  simpl. rewrite (parent_length p) by done. lia.
Qed.

(** On a writable path the directory can be made and the database opened. *)
Lemma writable_open fs p :
  writable fs p →
  ∃ fs1, mkdir fs (parent p) = Ok fs1 ∧ open_db fs1 p = Ok (stored fs p)
         ∧ fs1 !! p = fs !! p ∧ p ≠ [].
Proof.
  intros [Hfiles Hdir].
  assert (Hp : p ≠ []) by (by intros ->).
  destruct (mkdir_from_ok fs [] (parent p)) as [fs1 E].
  { intros k1 k2 db Hk _. apply Hfiles. by exists k2. }
  exists fs1. split_and!; try done.
  - unfold open_db, stored. rewrite !(node_at_nonempty _ p) in * by done.
    rewrite (mkdir_lookup_child fs p fs1) by done.
    destruct (fs !! p) as [[|db]|]; [done..|].
    by rewrite (mkdir_node_at_parent fs (parent p) fs1).
  - by apply mkdir_lookup_child.
Qed.

(** ** Writing, then reading *)

Section RoundTrip.
Context `{Codec}.

Lemma omap_loads_dumps (d : dict) :
  (∀ k v, d !! k = Some v → json_compatible v) → omap loads (dumps <$> d) = d.
Proof.
  intros Hc. apply map_eq. intros k. rewrite lookup_omap, lookup_fmap.
  destruct (d !! k) as [v|] eqn:E; simpl; [|done]. by apply (Hc k).
Qed.

Lemma decodable_dumps (d : dict) :
  (∀ k v, d !! k = Some v → json_compatible v) → decodable (dumps <$> d).
Proof.
  intros Hc k s. rewrite lookup_fmap.
  destruct (d !! k) as [v|] eqn:E; simpl; [|done].
  intros [= <-]. rewrite (Hc k v E). by eexists.
Qed.

Lemma decode_table_dumps (d : dict) :
  (∀ k v, d !! k = Some v → json_compatible v) →
  decode_table (dumps <$> d) = Ok d.
Proof.
  intros Hc. rewrite decode_table_ok by (by apply decodable_dumps).
  by rewrite omap_loads_dumps.
Qed.

Lemma with_docstore_schema_written db docs ref_docs extra :
  with_docstore_schema (written db docs ref_docs extra)
  = written db docs ref_docs extra.
Proof.
  apply map_eq. intros t.
  destruct (decide (t = "documents" ∨ t = "ref_doc_info" ∨ t = "metadata"))
    as [Ht|Ht].
  - rewrite with_docstore_schema_lookup by done. unfold written.
    destruct Ht as [-> | [-> | ->]]; by simplify_map_eq.
  - rewrite with_docstore_schema_lookup_ne by tauto. done.
Qed.

Lemma table_of_written db docs ref_docs extra :
  table_of (written db docs ref_docs extra) "documents" = dumps <$> docs
  ∧ table_of (written db docs ref_docs extra) "ref_doc_info" = dumps <$> ref_docs
  ∧ table_of (written db docs ref_docs extra) "metadata" = dumps <$> extra.
Proof. unfold table_of, written. split_and!; by simplify_map_eq. Qed.

Lemma rows_of_snapshot S k :
  snapshot S → k = "documents" ∨ k = "ref_doc_info" →
  rows_of (get S k (VDict ∅)) = Ok (mapping_of S k).
Proof.
  intros HS Hk. unfold get, mapping_of.
  destruct (S !! k) as [v|] eqn:E; [|done].
  by destruct (HS k v Hk E) as [d ->].
Qed.

Lemma lookup_extra_of (S : dict) k :
  extra_of S !! k =
    if decide (k = "documents" ∨ k = "ref_doc_info") then None else S !! k.
Proof.
  unfold extra_of. case_decide as Hk.
  - apply map_lookup_filter_None. right. intros v _ [??]. simpl in *. tauto.
  - destruct (S !! k) as [v|] eqn:E.
    + apply map_lookup_filter_Some. split; [done|]. simpl. tauto.
    + apply map_lookup_filter_None. by left.
Qed.

(** A successful write on a writable path. *)
Lemma write_docstore_ok fs p S docs ref_docs :
  writable fs p →
  rows_of (get S "documents" (VDict ∅)) = Ok docs →
  rows_of (get S "ref_doc_info" (VDict ∅)) = Ok ref_docs →
  ∃ fs1, mkdir fs (parent p) = Ok fs1 ∧ p ≠ [] ∧
    _write_docstore p S fs =
      (Ok (), <[p := File (written (stored fs p) docs ref_docs (extra_of S))]> fs1).
Proof.
  intros (fs1 & Emk & Eopen & _ & Hp)%writable_open Hdocs Hrefs.
  exists fs1. split_and!; [done..|].
  by rewrite write_docstore_eq, Emk, Eopen, Hdocs, Hrefs.
Qed.

Lemma assemble_snapshot S :
  snapshot S →
  extra_of S ∪ {[ "documents" := VDict (mapping_of S "documents");
                  "ref_doc_info" := VDict (mapping_of S "ref_doc_info") ]}
  = S ∪ empty_store.
Proof.
  intros HS. apply map_eq. intros k.
  rewrite !lookup_union, lookup_extra_of. unfold empty_store, mapping_of.
  case_decide as Hk.
  - destruct (S !! k) as [v|] eqn:E.
    + destruct (HS k v Hk E) as [d ->].
      destruct Hk as [-> | ->]; rewrite ?E; by simplify_map_eq.
    + destruct Hk as [-> | ->]; rewrite ?E; by simplify_map_eq.
  - assert (Hk1 : "documents" ≠ k) by (intros <-; tauto).
    assert (Hk2 : "ref_doc_info" ≠ k) by (intros <-; tauto).
    by rewrite !lookup_insert_ne, !lookup_singleton_ne by done.
Qed.
End RoundTrip.

(** Writing a well-shaped snapshot with JSON-compatible payloads, then
    reading. *)
Lemma write_then_read_docstore `{Codec} (fs : filesystem) (p : path) (S : dict) :
writable fs p →
snapshot S →
(∀ v, payload S v → json_compatible v) →
∃ fs1,
  mkdir fs (parent p) = Ok fs1 ∧ p ≠ []
  ∧ _write_docstore p S fs =
      (Ok (), <[p := File (written (stored fs p) (mapping_of S "documents")
                             (mapping_of S "ref_doc_info") (extra_of S))]> fs1)
  ∧ ∀ fs', fs' !! p = Some (File (written (stored fs p) (mapping_of S "documents")
                             (mapping_of S "ref_doc_info") (extra_of S))) →
      _read_docstore p fs' = (Ok (S ∪ empty_store), fs').
Proof.
intros Hw HS Hc.
destruct (write_docstore_ok fs p S (mapping_of S "documents")
            (mapping_of S "ref_doc_info") Hw) as (fs0 & Emk & Hp & Ew);
  [apply rows_of_snapshot; auto..|].
exists fs0. split_and!; [done..|]. intros fs' Hfs'.
rewrite read_docstore_eq, node_at_nonempty, Hfs' by done.
rewrite with_docstore_schema_written, (insert_id fs') by done. f_equal.
unfold decode_docstore.
destruct (table_of_written (stored fs p) (mapping_of S "documents")
            (mapping_of S "ref_doc_info") (extra_of S)) as (-> & -> & ->).
assert (Hmap : ∀ k, k = "documents" ∨ k = "ref_doc_info" →
          ∀ id v, mapping_of S k !! id = Some v → json_compatible v).
{ intros k Hk id v. unfold mapping_of.
  destruct (S !! k) as [[| | | | |d]|] eqn:E; try by rewrite lookup_empty.
  intros Hid. apply Hc. left. by exists k, d, id. }
rewrite !decode_table_dumps; simpl.
- unfold mret, result_ret. by rewrite assemble_snapshot.
- apply Hmap. auto.
- apply Hmap. auto.
- intros k v. rewrite lookup_extra_of. case_decide as Hk; [done|].
  intros E. apply Hc. right. exists k. split_and!; [tauto..|done].
Qed.

Lemma writable_empty p : p ≠ [] → writable ∅ p.
Proof.
intros Hp. split.
- intros q db _. by rewrite lookup_empty.
- by rewrite node_at_nonempty, lookup_empty.
Qed.

(** C1. Round trip of the document store: on a writable path, writing a
    snapshot whose payloads are JSON-compatible and reading the path back
    gives a mapping equal to the snapshot, where [documents] and
    [ref_doc_info] are read back as empty mappings when the snapshot has no
    such key. *)
Theorem docstore_round_trip `{Codec} (fs : filesystem) (p : path) (S : dict) :
writable fs p →
snapshot S →
(∀ v, payload S v → json_compatible v) →
∃ fs1 fs2,
  _write_docstore p S fs = (Ok (), fs1)
  ∧ _read_docstore p fs1 = (Ok (S ∪ empty_store), fs2).
Proof.
intros Hw HS Hc.
destruct (write_then_read_docstore fs p S Hw HS Hc) as (fs0 & _ & _ & Ew & Er).
eexists _, _. split; [exact Ew|]. apply Er, lookup_insert_eq.
Qed.

Lemma docstore_round_trip_witness :
∃ fs1 fs2,
  _write_docstore (H := Json.codec) docstore_path scenario_A ∅ = (Ok (), fs1)
  ∧ _read_docstore (H := Json.codec) docstore_path fs1
    = (Ok (scenario_A ∪ empty_store), fs2).
Proof.
apply (docstore_round_trip (H := Json.codec) ∅ docstore_path scenario_A).
- by apply writable_empty.
- intros k v [-> | ->] E; vm_compute in E; injection E as <-; by eexists.
- intros v [(k & d & id & Hk & Hd & Hid) | (k & Hk1 & Hk2 & Hv)].
  + unfold scenario_A in Hd. destruct Hk as [-> | ->]; simplify_map_eq.
    by vm_compute.
  + unfold scenario_A in Hv.
    by rewrite lookup_insert_ne, lookup_singleton_ne in Hv.
Defined.

(** ** The index store *)

Lemma write_indexstore_ok `{Codec} fs p (S : dict) :
writable fs p →
∃ fs1, mkdir fs (parent p) = Ok fs1 ∧ p ≠ [] ∧
  _write_indexstore p S fs =
    (Ok (), <[p := File (<["index_metadata" := dumps <$> S]> (stored fs p))]> fs1).
Proof.
intros (fs1 & Emk & Eopen & _ & Hp)%writable_open.
exists fs1. split_and!; [done..|].
by rewrite write_indexstore_eq, Emk, Eopen.
Qed.

(** C7. Round trip of the index store: the writer leaves in [index_metadata]
    exactly one row per key of the flat snapshot, whatever the table held
    before, and reading the path back gives the snapshot. *)
Theorem indexstore_round_trip `{Codec} (fs : filesystem) (p : path) (S : dict) :
writable fs p →
(∀ k v, S !! k = Some v → json_compatible v) →
∃ fs1 fs2 db,
  _write_indexstore p S fs = (Ok (), fs1)
  ∧ fs1 !! p = Some (File db)
  ∧ db !! "index_metadata" = Some (dumps <$> S)
  ∧ _read_indexstore p fs1 = (Ok S, fs2).
Proof.
intros Hw Hc.
destruct (write_indexstore_ok fs p S Hw) as (fs0 & _ & Hp & Ew).
eexists _, _, _. split; [exact Ew|].
split; [apply lookup_insert_eq|]. split; [apply lookup_insert_eq|].
rewrite read_indexstore_eq, node_at_nonempty, lookup_insert_eq by done.
f_equal. unfold table_of. rewrite lookup_insert_eq. simpl.
by apply decode_table_dumps.
Qed.

Lemma indexstore_round_trip_witness :
∃ fs1 fs2 db,
  _write_indexstore (H := Json.codec) indexstore_path scenario_C ∅ = (Ok (), fs1)
  ∧ fs1 !! indexstore_path = Some (File db)
  ∧ db !! "index_metadata" = Some (Json.dumps <$> scenario_C)
  ∧ _read_indexstore (H := Json.codec) indexstore_path fs1 = (Ok scenario_C, fs2).
Proof.
apply (indexstore_round_trip (H := Json.codec) ∅ indexstore_path scenario_C).
- by apply writable_empty.
- intros k v Hv. unfold scenario_C in Hv.
  apply lookup_singleton_Some in Hv as [<- <-]. by vm_compute.
Defined.

(** ** The empty store *)

Lemma snapshot_empty_store : snapshot empty_store.
Proof.
intros k v [-> | ->] E; vm_compute in E; injection E as <-; by eexists.
Qed.

Lemma payload_empty_store v : ¬ payload empty_store v.
Proof.
unfold empty_store.
intros [(k & d & id & Hk & Hd & Hid) | (k & Hk1 & Hk2 & Hv)].
- destruct Hk as [-> | ->]; by simplify_map_eq.
- by rewrite lookup_insert_ne, lookup_singleton_ne in Hv.
Qed.

(** C5. The empty snapshot is a valid store: on a writable path, writing
    [{documents: {}, ref_doc_info: {}}] succeeds and reading the path back
    returns that mapping, whereas reading a path where nothing exists raises
    [FileNotFoundError]. *)
Theorem empty_store_is_valid `{Codec} (fs : filesystem) (p : path) :
writable fs p →
(∃ fs1 fs2,
   _write_docstore p empty_store fs = (Ok (), fs1)
   ∧ _read_docstore p fs1 = (Ok empty_store, fs2))
∧ (node_at fs p = None → _read_docstore p fs = (Err (FileNotFoundError p), fs)).
Proof.
intros Hw. split.
- destruct (write_then_read_docstore fs p empty_store Hw snapshot_empty_store)
    as (fs0 & _ & _ & Ew & Er).
  { intros v Hv. by destruct (payload_empty_store v). }
  eexists _, _. split; [exact Ew|].
  rewrite Er by apply lookup_insert_eq.
  by rewrite (map_union_idemp empty_store).
- intros Hnone. by rewrite read_docstore_eq, Hnone.
Qed.

Lemma empty_store_is_valid_witness :
(∃ fs1 fs2,
   _write_docstore (H := Json.codec) docstore_path empty_store ∅ = (Ok (), fs1)
   ∧ _read_docstore (H := Json.codec) docstore_path fs1 = (Ok empty_store, fs2))
∧ (node_at ∅ docstore_path = None →
   _read_docstore (H := Json.codec) docstore_path ∅
   = (Err (FileNotFoundError docstore_path), ∅)).
Proof.
apply (empty_store_is_valid (H := Json.codec) ∅ docstore_path).
by apply writable_empty.
Defined.

(** ** Snapshots without [documents] or [ref_doc_info] *)

Lemma mapping_of_absent (S : dict) k : S !! k = None → mapping_of S k = ∅.
Proof. intros E. unfold mapping_of. by rewrite E. Qed.

(** C10. The writer accepts snapshots that lack [documents] or
    [ref_doc_info]: on a writable path the write succeeds, the table of a
    missing key is left empty, the table of a present key holds its entries,
    and every other top-level key is stored in [metadata]. *)
Theorem write_docstore_missing_keys `{Codec}
  (fs : filesystem) (p : path) (S : dict) :
writable fs p →
snapshot S →
S !! "documents" = None ∨ S !! "ref_doc_info" = None →
∃ fs1 db,
  _write_docstore p S fs = (Ok (), fs1)
  ∧ fs1 !! p = Some (File db)
  ∧ (S !! "documents" = None → db !! "documents" = Some ∅)
  ∧ (S !! "ref_doc_info" = None → db !! "ref_doc_info" = Some ∅)
  ∧ db !! "documents" = Some (dumps <$> mapping_of S "documents")
  ∧ db !! "ref_doc_info" = Some (dumps <$> mapping_of S "ref_doc_info")
  ∧ db !! "metadata" = Some (dumps <$> extra_of S)
  ∧ (∀ k v, k ≠ "documents" → k ≠ "ref_doc_info" → S !! k = Some v →
       table_of db "metadata" !! k = Some (dumps v)).
Proof.
intros Hw HS _.
destruct (write_docstore_ok fs p S (mapping_of S "documents")
            (mapping_of S "ref_doc_info") Hw) as (fs0 & _ & Hp & Ew);
  [apply rows_of_snapshot; auto..|].
eexists _, _. split; [exact Ew|]. split; [apply lookup_insert_eq|].
unfold written, table_of.
split_and!; try by simplify_map_eq.
- intros E. rewrite (mapping_of_absent S _ E). by simplify_map_eq.
- intros E. rewrite (mapping_of_absent S _ E). by simplify_map_eq.
- intros k v Hk1 Hk2 E. rewrite lookup_insert_eq. simpl.
  rewrite lookup_fmap, lookup_extra_of, decide_False, E by tauto. done.
Qed.

Lemma write_docstore_missing_keys_witness :
∃ fs1 db,
  _write_docstore (H := Json.codec) docstore_path scenario_partial ∅ = (Ok (), fs1)
  ∧ fs1 !! docstore_path = Some (File db)
  ∧ (scenario_partial !! "documents" = None → db !! "documents" = Some ∅)
  ∧ (scenario_partial !! "ref_doc_info" = None → db !! "ref_doc_info" = Some ∅)
  ∧ db !! "documents" = Some (Json.dumps <$> mapping_of scenario_partial "documents")
  ∧ db !! "ref_doc_info"
    = Some (Json.dumps <$> mapping_of scenario_partial "ref_doc_info")
  ∧ db !! "metadata" = Some (Json.dumps <$> extra_of scenario_partial)
  ∧ (∀ k v, k ≠ "documents" → k ≠ "ref_doc_info" →
       scenario_partial !! k = Some v →
       table_of db "metadata" !! k = Some (Json.dumps v)).
Proof.
apply (write_docstore_missing_keys (H := Json.codec) ∅ docstore_path
         scenario_partial).
- by apply writable_empty.
- intros k v [-> | ->] E; vm_compute in E; [injection E as <-; by eexists|done].
- right. by vm_compute.
Defined.

(** ** The outcomes of a write *)

Lemma open_db_stored fs p db : open_db fs p = Ok db → db = stored fs p ∧ p ≠ [].
Proof.
unfold open_db, stored. intros E. split.
- destruct (node_at fs p) as [[|db']|]; simplify_eq; [done|].
  by destruct (node_at fs (parent p)) as [[|?]|]; simplify_eq.
- by intros ->.
Qed.

Lemma open_db_error fs p e :
open_db fs p = Err e → e = OperationalError unable_to_open_database_file.
Proof.
unfold open_db. intros E.
destruct (node_at fs p) as [[|db']|]; simplify_eq; [done|].
by destruct (node_at fs (parent p)) as [[|?]|]; simplify_eq.
Qed.

Lemma node_at_mkdir fs p fs1 :
mkdir fs (parent p) = Ok fs1 → node_at fs1 p = node_at fs p.
Proof.
intros E. destruct (decide (p = [])) as [->|Hp]; [done|].
rewrite !node_at_nonempty by done. by apply mkdir_lookup_child.
Qed.

Lemma stored_mkdir fs p fs1 :
mkdir fs (parent p) = Ok fs1 → stored fs1 p = stored fs p.
Proof. intros E. unfold stored. by rewrite (node_at_mkdir fs p fs1). Qed.

Lemma rows_of_error v e : rows_of v = Err e → e = AttributeError.
Proof.
unfold rows_of. destruct v; try (destruct (truthy _)); by intros [=].
Qed.

Section Outcomes.
Context `{Codec}.

(** A document-store write either replaces the three tables, or fails and
    leaves the path as it was, or fails after the schema was created. *)
Lemma write_docstore_cases p (S : dict) fs :
(∃ fs1 docs ref_docs,
   mkdir fs (parent p) = Ok fs1 ∧ p ≠ []
   ∧ open_db fs1 p = Ok (stored fs p)
   ∧ rows_of (get S "documents" (VDict ∅)) = Ok docs
   ∧ rows_of (get S "ref_doc_info" (VDict ∅)) = Ok ref_docs
   ∧ _write_docstore p S fs
     = (Ok (), <[p := File (written (stored fs p) docs ref_docs (extra_of S))]> fs1))
∨ (∃ e fs',
     _write_docstore p S fs = (Err e, fs')
     ∧ (∀ q, e ≠ FileNotFoundError q)
     ∧ (∀ t, e ≠ OperationalError (table_already_exists t))
     ∧ (node_at fs' p = node_at fs p
        ∨ ∃ fs1, mkdir fs (parent p) = Ok fs1 ∧ p ≠ []
                 ∧ open_db fs1 p = Ok (stored fs p)
                 ∧ fs' = <[p := File (with_docstore_schema (stored fs p))]> fs1)).
Proof.
rewrite write_docstore_eq.
destruct (mkdir fs (parent p)) as [fs1|e] eqn:Emk.
2:{ right. exists e, fs. split_and!; [done| | |by left];
    intros q ->; by destruct (mkdir_from_error _ _ _ _ Emk) as [[??]|[??]]. }
destruct (open_db fs1 p) as [db|e] eqn:Eopen.
2:{ right. exists e, fs1. apply open_db_error in Eopen as ->.
    split_and!; [done..|]. left. by apply node_at_mkdir. }
destruct (open_db_stored _ _ _ Eopen) as [Hdb Hp].
rewrite (stored_mkdir fs p fs1 Emk) in Hdb. subst db.
destruct (rows_of (get S "documents" _)) as [docs|e] eqn:Edocs.
2:{ right. apply rows_of_error in Edocs as ->. eexists _, _.
    split_and!; [done..|]. right. by exists fs1. }
destruct (rows_of (get S "ref_doc_info" _)) as [refs|e] eqn:Erefs.
2:{ right. apply rows_of_error in Erefs as ->. eexists _, _.
    split_and!; [done..|]. right. by exists fs1. }
left. by exists fs1, docs, refs.
Qed.

(** An index-store write either replaces [index_metadata], or fails and
    leaves the path as it was. *)
Lemma write_indexstore_cases p (S : dict) fs :
(∃ fs1,
   mkdir fs (parent p) = Ok fs1 ∧ p ≠ []
   ∧ open_db fs1 p = Ok (stored fs p)
   ∧ _write_indexstore p S fs
     = (Ok (), <[p := File (<["index_metadata" := dumps <$> S]> (stored fs p))]> fs1))
∨ (∃ e fs',
     _write_indexstore p S fs = (Err e, fs')
     ∧ (∀ q, e ≠ FileNotFoundError q)
     ∧ (∀ t, e ≠ OperationalError (table_already_exists t))
     ∧ node_at fs' p = node_at fs p).
Proof.
rewrite write_indexstore_eq.
destruct (mkdir fs (parent p)) as [fs1|e] eqn:Emk.
2:{ right. exists e, fs. split_and!; [done| | |done];
    intros q ->; by destruct (mkdir_from_error _ _ _ _ Emk) as [[??]|[??]]. }
destruct (open_db fs1 p) as [db|e] eqn:Eopen.
2:{ right. exists e, fs1. apply open_db_error in Eopen as ->.
    split_and!; [done..|]. by apply node_at_mkdir. }
destruct (open_db_stored _ _ _ Eopen) as [Hdb Hp].
rewrite (stored_mkdir fs p fs1 Emk) in Hdb. subst db.
left. by exists fs1.
Qed.

Lemma decode_table_error tbl e :
decode_table tbl = Err e → ∃ k s, tbl !! k = Some s ∧ loads s = None
                                  ∧ e = JSONDecodeError s.
Proof.
intros E. destruct (decodable_dec tbl) as [Hd|Hd].
- by rewrite decode_table_ok in E.
- destruct (decode_table_err tbl Hd) as (k & s & Hk & Hs & E').
  exists k, s. split_and!; [done..|congruence].
Qed.
End Outcomes.

(** ** Missing files *)

Lemma parent_ne p : p ≠ [] → parent p ≠ p.
Proof.
intros Hp Heq. apply (f_equal length) in Heq.
rewrite (parent_length p Hp) in Heq. lia.
Qed.

Lemma node_at_after_close fs p fs1 db :
mkdir fs (parent p) = Ok fs1 → p ≠ [] →
node_at (<[p := File db]> fs1) (parent p) = Some Dir
∧ node_at (<[p := File db]> fs1) p = Some (File db).
Proof.
intros Emk Hp. split.
- destruct (decide (parent p = [])) as [->|Hpar]; [done|].
  rewrite node_at_nonempty by done.
  rewrite lookup_insert_ne by (intros Heq; by apply (parent_ne p Hp)).
  rewrite <- (node_at_nonempty fs1) by done. by eapply mkdir_node_at_parent.
- by rewrite node_at_nonempty, lookup_insert_eq.
Qed.

Section NotFound.
Context `{Codec}.

Lemma decode_docstore_not_missing db q :
decode_docstore db ≠ Err (FileNotFoundError q).
Proof.
unfold decode_docstore. intros E.
destruct (decode_table (table_of db "documents")) as [docs|e] eqn:E1; simpl in E.
2:{ apply decode_table_error in E1 as (? & ? & _ & _ & ->). done. }
destruct (decode_table (table_of db "ref_doc_info")) as [refs|e] eqn:E2;
  simpl in E.
2:{ apply decode_table_error in E2 as (? & ? & _ & _ & ->). done. }
destruct (decode_table (table_of db "metadata")) as [extra|e] eqn:E3;
  simpl in E; [done|].
apply decode_table_error in E3 as (? & ? & _ & _ & ->). done.
Qed.

Lemma read_docstore_not_found p fs q :
(_read_docstore p fs).1 = Err (FileNotFoundError q) → node_at fs p = None.
Proof.
rewrite read_docstore_eq.
destruct (node_at fs p) as [[|db]|]; simpl; [done| |done].
intros E. by destruct (decode_docstore_not_missing _ _ E).
Qed.

Lemma read_indexstore_not_found p fs q :
(_read_indexstore p fs).1 = Err (FileNotFoundError q) → node_at fs p = None.
Proof.
rewrite read_indexstore_eq.
destruct (node_at fs p) as [[|db]|]; simpl; [done| |done].
intros E. by apply decode_table_error in E as (? & ? & _ & _ & ?).
Qed.

Lemma write_docstore_creates p (S : dict) fs :
writable fs p →
node_at (_write_docstore p S fs).2 (parent p) = Some Dir
∧ ∃ db, node_at (_write_docstore p S fs).2 p = Some (File db).
Proof.
intros (fs1 & Emk & Eopen & _ & Hp)%writable_open.
rewrite write_docstore_eq, Emk, Eopen.
destruct (rows_of (get S "documents" _)); [destruct (rows_of (get S "ref_doc_info" _))|];
  simpl; (split; [|eexists]; by eapply node_at_after_close).
Qed.

Lemma write_indexstore_creates p (S : dict) fs :
writable fs p →
node_at (_write_indexstore p S fs).2 (parent p) = Some Dir
∧ ∃ db, node_at (_write_indexstore p S fs).2 p = Some (File db).
Proof.
intros (fs1 & Emk & Eopen & _ & Hp)%writable_open.
rewrite write_indexstore_eq, Emk, Eopen. simpl.
split; [|eexists]; by eapply node_at_after_close.
Qed.
End NotFound.

(** C3. The readers raise [FileNotFoundError] exactly when nothing exists
    at the path; the writers never raise it, and on a writable path they
    leave the parent directory and the database file in place, whatever the
    snapshot. *)
Theorem not_found_iff_missing `{Codec} (fs : filesystem) (p : path) (S : dict) :
((_read_docstore p fs).1 = Err (FileNotFoundError p) ↔ node_at fs p = None)
∧ ((_read_indexstore p fs).1 = Err (FileNotFoundError p) ↔ node_at fs p = None)
∧ (∀ q, (_read_docstore p fs).1 = Err (FileNotFoundError q) → node_at fs p = None)
∧ (∀ q, (_read_indexstore p fs).1 = Err (FileNotFoundError q) → node_at fs p = None)
∧ (∀ q, (_write_docstore p S fs).1 ≠ Err (FileNotFoundError q))
∧ (∀ q, (_write_indexstore p S fs).1 ≠ Err (FileNotFoundError q))
∧ (writable fs p →
   (node_at (_write_docstore p S fs).2 (parent p) = Some Dir
    ∧ ∃ db, node_at (_write_docstore p S fs).2 p = Some (File db))
   ∧ (node_at (_write_indexstore p S fs).2 (parent p) = Some Dir
      ∧ ∃ db, node_at (_write_indexstore p S fs).2 p = Some (File db))).
Proof.
split_and!.
- split; [apply read_docstore_not_found|].
  intros E. by rewrite read_docstore_eq, E.
- split; [apply read_indexstore_not_found|].
  intros E. by rewrite read_indexstore_eq, E.
- apply read_docstore_not_found.
- apply read_indexstore_not_found.
- intros q E.
  destruct (write_docstore_cases p S fs)
    as [(? & ? & ? & _ & _ & _ & _ & _ & Ew)|(e & fs' & Ew & Hnf & _)];
    rewrite Ew in E; simpl in E; [done|]. simplify_eq. by eapply Hnf.
- intros q E.
  destruct (write_indexstore_cases p S fs)
    as [(? & _ & _ & _ & Ew)|(e & fs' & Ew & Hnf & _)];
    rewrite Ew in E; simpl in E; [done|]. simplify_eq. by eapply Hnf.
- intros Hw. split; [by apply write_docstore_creates|by apply write_indexstore_creates].
Qed.

Lemma not_found_iff_missing_witness :
(node_at (_write_docstore (H := Json.codec) docstore_path scenario_A ∅).2
   (parent docstore_path) = Some Dir
 ∧ ∃ db, node_at (_write_docstore (H := Json.codec) docstore_path scenario_A ∅).2
           docstore_path = Some (File db))
∧ (node_at (_write_indexstore (H := Json.codec) docstore_path scenario_A ∅).2
     (parent docstore_path) = Some Dir
   ∧ ∃ db, node_at (_write_indexstore (H := Json.codec) docstore_path scenario_A ∅).2
             docstore_path = Some (File db)).
Proof.
apply (not_found_iff_missing (H := Json.codec) ∅ docstore_path scenario_A).
by apply writable_empty.
Defined.

(** ** Malformed payloads *)

Section Malformed.
Context `{Codec}.

Lemma table_of_with_docstore_schema db t :
table_of (with_docstore_schema db) t = table_of db t.
Proof.
unfold table_of.
destruct (decide (docstore_table t)) as [Ht|Ht].
- by rewrite with_docstore_schema_lookup.
- rewrite with_docstore_schema_lookup_ne; [done|..];
    intros ->; apply Ht; unfold docstore_table; auto.
Qed.

Lemma decodable_malformed (tbl : table) k s :
tbl !! k = Some s → loads s = None → ¬ decodable tbl.
Proof. intros Hk Hs Hd. destruct (Hd k s Hk) as [v Hv]. congruence. Qed.

(** Decoding a document-store database fails with the decoder's error as
    soon as one of its three tables holds a malformed payload. *)
Lemma decode_docstore_malformed db t k s :
docstore_table t →
table_of db t !! k = Some s → loads s = None →
∃ t' k' s', docstore_table t' ∧ table_of db t' !! k' = Some s'
            ∧ loads s' = None
            ∧ decode_docstore db = Err (JSONDecodeError s').
Proof.
intros Ht Hk Hs. unfold decode_docstore.
destruct (decode_table (table_of db "documents")) as [docs|e] eqn:E1; simpl.
2:{ apply decode_table_error in E1 as (k' & s' & ? & ? & ->).
    exists "documents", k', s'. unfold docstore_table. auto. }
destruct (decode_table (table_of db "ref_doc_info")) as [refs|e] eqn:E2; simpl.
2:{ apply decode_table_error in E2 as (k' & s' & ? & ? & ->).
    exists "ref_doc_info", k', s'. unfold docstore_table. auto 6. }
destruct (decode_table (table_of db "metadata")) as [extra|e] eqn:E3; simpl.
2:{ apply decode_table_error in E3 as (k' & s' & ? & ? & ->).
    exists "metadata", k', s'. unfold docstore_table. auto 6. }
exfalso.
destruct (decode_table_err (table_of db t)) as (? & ? & _ & _ & E);
  [by eapply decodable_malformed|].
destruct Ht as [-> | [-> | ->]]; congruence.
Qed.
End Malformed.

(** C8. A malformed payload makes the read fail with the decoder's error:
    when one of the three document-store tables holds a payload that [loads]
    rejects, [_read_docstore] raises [JSONDecodeError] for a stored malformed
    payload, and so does [_read_indexstore] for [index_metadata]; no row is
    skipped and no mapping is returned. *)
Theorem malformed_payload_raises `{Codec}
  (fs : filesystem) (p : path) (db : database) (t k s k2 s2 : string) :
node_at fs p = Some (File db) →
(docstore_table t → table_of db t !! k = Some s → loads s = None →
 ∃ t' k' s', docstore_table t' ∧ table_of db t' !! k' = Some s'
             ∧ loads s' = None
             ∧ (_read_docstore p fs).1 = Err (JSONDecodeError s'))
∧ (table_of db "index_metadata" !! k2 = Some s2 → loads s2 = None →
   ∃ k' s', table_of db "index_metadata" !! k' = Some s' ∧ loads s' = None
            ∧ (_read_indexstore p fs).1 = Err (JSONDecodeError s')).
Proof.
intros Hfs. split.
- intros Ht Hk Hs. rewrite read_docstore_eq, Hfs. simpl.
  destruct (decode_docstore_malformed (with_docstore_schema db) t k s)
    as (t' & k' & s' & Ht' & Hk' & Hs' & E);
    [done|by rewrite table_of_with_docstore_schema|done|].
  rewrite table_of_with_docstore_schema in Hk'. by exists t', k', s'.
- intros Hk Hs. rewrite read_indexstore_eq, Hfs. simpl.
  destruct (decode_table_err (table_of db "index_metadata"))
    as (k' & s' & Hk' & Hs' & E); [by eapply decodable_malformed|].
  by exists k', s'.
Qed.

Lemma malformed_payload_raises_witness :
(∃ t' k' s', docstore_table t' ∧ table_of corrupt_db t' !! k' = Some s'
             ∧ Json.loads s' = None
             ∧ (_read_docstore (H := Json.codec) docstore_path
                  {[ docstore_path := File corrupt_db ]}).1
               = Err (JSONDecodeError s'))
∧ (∃ k' s', table_of corrupt_db "index_metadata" !! k' = Some s'
            ∧ Json.loads s' = None
            ∧ (_read_indexstore (H := Json.codec) docstore_path
                 {[ docstore_path := File corrupt_db ]}).1
              = Err (JSONDecodeError s')).
Proof.
destruct (malformed_payload_raises (H := Json.codec)
            {[ docstore_path := File corrupt_db ]} docstore_path corrupt_db
            "documents" "d1" "{bad" "index_1" "{bad") as [Hdoc Hidx].
- by vm_compute.
- split.
  + apply Hdoc; [left; reflexivity|by vm_compute|by vm_compute].
  + apply Hidx; by vm_compute.
Defined.

(** ** Writing twice *)

Lemma mkdir_after_close fs p fs1 n :
mkdir fs (parent p) = Ok fs1 → p ≠ [] →
mkdir (<[p := n]> fs1) (parent p) = Ok (<[p := n]> fs1).
Proof.
intros Emk Hp. apply mkdir_from_stable. intros k1 k2 Hk Hne. simpl.
rewrite lookup_insert_ne.
- by apply (mkdir_from_dirs fs [] (parent p) fs1 k1 k2).
- intros ->. apply (f_equal length) in Hk.
  pose proof (parent_length k1 Hp). rewrite length_app in Hk. lia.
Qed.

Lemma open_db_after_close (fs1 : filesystem) p db :
p ≠ [] → open_db (<[p := File db]> fs1) p = Ok db.
Proof.
intros Hp. unfold open_db. by rewrite node_at_nonempty, lookup_insert_eq.
Qed.

Section Overwrite.
Context `{Codec}.

Lemma written_written db d1 r1 e1 d2 r2 e2 :
written (written db d1 r1 e1) d2 r2 e2 = written db d2 r2 e2.
Proof.
unfold written. apply map_eq. intros t.
destruct (decide (t = "metadata")) as [->|?]; [by simplify_map_eq|].
destruct (decide (t = "ref_doc_info")) as [->|?]; [by simplify_map_eq|].
destruct (decide (t = "documents")) as [->|?]; by simplify_map_eq.
Qed.

(** A second document-store write on the file a first one closed. *)
Lemma write_docstore_again fs p fs1 db (S : dict) docs ref_docs :
mkdir fs (parent p) = Ok fs1 → p ≠ [] →
rows_of (get S "documents" (VDict ∅)) = Ok docs →
rows_of (get S "ref_doc_info" (VDict ∅)) = Ok ref_docs →
_write_docstore p S (<[p := File db]> fs1)
= (Ok (), <[p := File (written db docs ref_docs (extra_of S))]> fs1).
Proof.
intros Emk Hp Hdocs Hrefs.
rewrite write_docstore_eq, (mkdir_after_close fs p fs1) by done.
rewrite open_db_after_close, Hdocs, Hrefs by done.
by rewrite insert_insert_eq.
Qed.

Lemma write_indexstore_again fs p fs1 db (S : dict) :
mkdir fs (parent p) = Ok fs1 → p ≠ [] →
_write_indexstore p S (<[p := File db]> fs1)
= (Ok (), <[p := File (<["index_metadata" := dumps <$> S]> db)]> fs1).
Proof.
intros Emk Hp.
rewrite write_indexstore_eq, (mkdir_after_close fs p fs1) by done.
rewrite open_db_after_close by done.
by rewrite insert_insert_eq.
Qed.

Lemma overwrite_docstore p (S1 S2 : dict) fs :
(_write_docstore p S2 fs).1 = Ok () →
_write_docstore p S2 (_write_docstore p S1 fs).2 = _write_docstore p S2 fs
∧ ∃ docs ref_docs,
    rows_of (get S2 "documents" (VDict ∅)) = Ok docs
    ∧ rows_of (get S2 "ref_doc_info" (VDict ∅)) = Ok ref_docs
    ∧ table_of (stored (_write_docstore p S2 fs).2 p) "documents" = dumps <$> docs
    ∧ table_of (stored (_write_docstore p S2 fs).2 p) "ref_doc_info"
      = dumps <$> ref_docs
    ∧ table_of (stored (_write_docstore p S2 fs).2 p) "metadata"
      = dumps <$> extra_of S2.
Proof.
intros Hok.
destruct (write_docstore_cases p S2 fs)
  as [(fs1 & docs & refs & Emk & Hp & Eopen & Hdocs & Hrefs & Ew)
     |(e & fs' & Ew & _)]; [|by rewrite Ew in Hok].
split.
- rewrite Ew. rewrite (write_docstore_eq p S1), Emk, Eopen.
  destruct (rows_of (get S1 "documents" _));
    [destruct (rows_of (get S1 "ref_doc_info" _))|]; simpl;
    erewrite write_docstore_again by done;
    by rewrite ?written_written, ?written_with_docstore_schema.
- exists docs, refs. rewrite Ew. simpl. unfold stored.
  rewrite node_at_nonempty, lookup_insert_eq by done.
  split_and!; [done..| | |]; apply table_of_written.
Qed.

Lemma overwrite_indexstore p (S1 S2 : dict) fs :
(_write_indexstore p S2 fs).1 = Ok () →
_write_indexstore p S2 (_write_indexstore p S1 fs).2 = _write_indexstore p S2 fs
∧ table_of (stored (_write_indexstore p S2 fs).2 p) "index_metadata"
  = dumps <$> S2.
Proof.
intros Hok.
destruct (write_indexstore_cases p S2 fs)
  as [(fs1 & Emk & Hp & Eopen & Ew)|(e & fs' & Ew & _)];
  [|by rewrite Ew in Hok].
split.
- rewrite Ew. rewrite (write_indexstore_eq p S1), Emk, Eopen. simpl.
  erewrite write_indexstore_again by done. by rewrite insert_insert_eq.
- rewrite Ew. simpl. unfold stored, table_of.
  by rewrite node_at_nonempty, !lookup_insert_eq by done.
Qed.
End Overwrite.

(** C2. Overwrite, not union: when writing [S2] succeeds, writing [S1] first
    changes nothing: the second write leaves the same files and a read
    returns the same result as after writing [S2] alone, and the stored
    tables hold exactly the rows of [S2]. *)
Theorem overwrite_not_union `{Codec} (fs : filesystem) (p : path) (S1 S2 : dict) :
((_write_docstore p S2 fs).1 = Ok () →
 _write_docstore p S2 (_write_docstore p S1 fs).2 = _write_docstore p S2 fs
 ∧ _read_docstore p (_write_docstore p S2 (_write_docstore p S1 fs).2).2
   = _read_docstore p (_write_docstore p S2 fs).2
 ∧ ∃ docs ref_docs,
     rows_of (get S2 "documents" (VDict ∅)) = Ok docs
     ∧ rows_of (get S2 "ref_doc_info" (VDict ∅)) = Ok ref_docs
     ∧ table_of (stored (_write_docstore p S2 fs).2 p) "documents" = dumps <$> docs
     ∧ table_of (stored (_write_docstore p S2 fs).2 p) "ref_doc_info"
       = dumps <$> ref_docs
     ∧ table_of (stored (_write_docstore p S2 fs).2 p) "metadata"
       = dumps <$> extra_of S2)
∧ ((_write_indexstore p S2 fs).1 = Ok () →
   _write_indexstore p S2 (_write_indexstore p S1 fs).2 = _write_indexstore p S2 fs
   ∧ _read_indexstore p (_write_indexstore p S2 (_write_indexstore p S1 fs).2).2
     = _read_indexstore p (_write_indexstore p S2 fs).2
   ∧ table_of (stored (_write_indexstore p S2 fs).2 p) "index_metadata"
     = dumps <$> S2).
Proof.
split; intros Hok.
- destruct (overwrite_docstore p S1 S2 fs Hok) as [E Htables].
  by rewrite E.
- destruct (overwrite_indexstore p S1 S2 fs Hok) as [E Htable].
  by rewrite E.
Qed.

Lemma overwrite_not_union_witness :
(_write_docstore (H := Json.codec) docstore_path scenario_B
   (_write_docstore (H := Json.codec) docstore_path scenario_A ∅).2
 = _write_docstore (H := Json.codec) docstore_path scenario_B ∅
 ∧ _read_docstore (H := Json.codec) docstore_path
     (_write_docstore (H := Json.codec) docstore_path scenario_B
        (_write_docstore (H := Json.codec) docstore_path scenario_A ∅).2).2
   = _read_docstore (H := Json.codec) docstore_path
       (_write_docstore (H := Json.codec) docstore_path scenario_B ∅).2
 ∧ ∃ docs ref_docs,
     rows_of (get scenario_B "documents" (VDict ∅)) = Ok docs
     ∧ rows_of (get scenario_B "ref_doc_info" (VDict ∅)) = Ok ref_docs
     ∧ table_of (stored (_write_docstore (H := Json.codec) docstore_path
                           scenario_B ∅).2 docstore_path) "documents"
       = @dumps Json.codec <$> docs
     ∧ table_of (stored (_write_docstore (H := Json.codec) docstore_path
                           scenario_B ∅).2 docstore_path) "ref_doc_info"
       = @dumps Json.codec <$> ref_docs
     ∧ table_of (stored (_write_docstore (H := Json.codec) docstore_path
                           scenario_B ∅).2 docstore_path) "metadata"
       = @dumps Json.codec <$> extra_of scenario_B)
∧ (_write_indexstore (H := Json.codec) indexstore_path scenario_C
     (_write_indexstore (H := Json.codec) indexstore_path scenario_B ∅).2
   = _write_indexstore (H := Json.codec) indexstore_path scenario_C ∅
   ∧ _read_indexstore (H := Json.codec) indexstore_path
       (_write_indexstore (H := Json.codec) indexstore_path scenario_C
          (_write_indexstore (H := Json.codec) indexstore_path scenario_B ∅).2).2
     = _read_indexstore (H := Json.codec) indexstore_path
         (_write_indexstore (H := Json.codec) indexstore_path scenario_C ∅).2
   ∧ table_of (stored (_write_indexstore (H := Json.codec) indexstore_path
                         scenario_C ∅).2 indexstore_path) "index_metadata"
     = @dumps Json.codec <$> scenario_C).
Proof.
split.
- refine (proj1 (overwrite_not_union (H := Json.codec) ∅ docstore_path
                   scenario_A scenario_B) _).
  vm_compute. reflexivity.
- refine (proj2 (overwrite_not_union (H := Json.codec) ∅ indexstore_path
                   scenario_B scenario_C) _).
  vm_compute. reflexivity.
Defined.

(** After Scenario A and then Scenario B, the document of Scenario A is gone. *)
Example scenario_A_then_B :
(_read_docstore (H := Json.codec) docstore_path
   (_write_docstore (H := Json.codec) docstore_path scenario_B
      (_write_docstore (H := Json.codec) docstore_path scenario_A ∅).2).2).1
= Ok scenario_B.
Proof. vm_compute. reflexivity. Qed.

(** ** Failed writes *)

Section Atomic.
Context `{Codec}.

Lemma read_docstore_result p fs fs' :
node_at fs' p = node_at fs p → (_read_docstore p fs').1 = (_read_docstore p fs).1.
Proof.
intros E. rewrite !read_docstore_eq, E. by destruct (node_at fs p) as [[|?]|].
Qed.

Lemma write_docstore_failed p (S : dict) fs e :
(_write_docstore p S fs).1 = Err e →
(∀ t, table_of (stored (_write_docstore p S fs).2 p) t = table_of (stored fs p) t)
∧ (∀ db, node_at fs p = Some (File db) →
     (_read_docstore p (_write_docstore p S fs).2).1 = (_read_docstore p fs).1).
Proof.
intros Herr.
destruct (write_docstore_cases p S fs)
  as [(? & ? & ? & _ & _ & _ & _ & _ & Ew)
     |(e' & fs' & Ew & _ & _ & [Hsame|(fs1 & Emk & Hp & Eopen & ->)])];
  rewrite Ew in *; simpl in *; [done| |].
- split.
  + intros t. unfold stored. by rewrite Hsame.
  + intros db _. by apply read_docstore_result.
- split.
  + intros t. unfold stored at 1.
    rewrite node_at_nonempty, lookup_insert_eq by done.
    apply table_of_with_docstore_schema.
  + intros db Hdb. rewrite !read_docstore_eq, Hdb.
    rewrite node_at_nonempty, lookup_insert_eq by done. simpl.
    unfold stored. rewrite Hdb. by rewrite with_docstore_schema_idemp.
Qed.

Lemma write_docstore_succeeded p (S : dict) fs :
(_write_docstore p S fs).1 = Ok () →
∃ docs ref_docs,
  rows_of (get S "documents" (VDict ∅)) = Ok docs
  ∧ rows_of (get S "ref_doc_info" (VDict ∅)) = Ok ref_docs
  ∧ stored (_write_docstore p S fs).2 p
    = written (stored fs p) docs ref_docs (extra_of S).
Proof.
intros Hok.
destruct (write_docstore_cases p S fs)
  as [(fs1 & docs & refs & Emk & Hp & Eopen & Hdocs & Hrefs & Ew)
     |(e & fs' & Ew & _)]; rewrite Ew in *; [|done].
exists docs, refs. split_and!; [done..|]. simpl. unfold stored at 1.
by rewrite node_at_nonempty, lookup_insert_eq.
Qed.

Lemma write_indexstore_failed p (S : dict) fs e :
(_write_indexstore p S fs).1 = Err e →
node_at (_write_indexstore p S fs).2 p = node_at fs p.
Proof.
intros Herr.
destruct (write_indexstore_cases p S fs)
  as [(? & _ & _ & _ & Ew)|(e' & fs' & Ew & _ & _ & Hsame)];
  rewrite Ew in *; simpl in *; done.
Qed.

Lemma write_indexstore_succeeded p (S : dict) fs :
(_write_indexstore p S fs).1 = Ok () →
stored (_write_indexstore p S fs).2 p
= <["index_metadata" := dumps <$> S]> (stored fs p).
Proof.
intros Hok.
destruct (write_indexstore_cases p S fs)
  as [(fs1 & Emk & Hp & Eopen & Ew)|(e & fs' & Ew & _)];
  rewrite Ew in *; [|done].
simpl. unfold stored at 1. by rewrite node_at_nonempty, lookup_insert_eq.
Qed.
End Atomic.

(** Until [commit], statements change the view of the connection only. *)
Lemma execute_keeps_committed t key payload c :
committed (execute (DELETE_FROM t) c).2 = committed c
∧ committed (execute (INSERT_OR_REPLACE_INTO t key payload) c).2 = committed c.
Proof. unfold execute. by destruct (view c !! t). Qed.

Lemma executemany_keeps_committed t rows c :
committed (executemany t rows c).2 = committed c.
Proof.
revert c. induction rows as [|[k s] rows IH]; intros c; simpl; [done|].
unfold mbind, sql_bind.
pose proof (proj2 (execute_keeps_committed t k s c)) as Hc.
destruct (execute (INSERT_OR_REPLACE_INTO t k s) c) as [[[]|e] c1]; simpl in *;
  [|done].
by rewrite IH.
Qed.

(** C4. A write is all or nothing.  A document-store write that returns has
    replaced [documents], [ref_doc_info] and [metadata] together, by the rows
    of the new snapshot; one that raises leaves every table with the rows it
    had, so that a read of an existing store returns what it returned
    before.  An index-store write that returns has replaced
    [index_metadata]; one that raises leaves the path as it was.  Clearing
    and filling a table never touches the committed content: it becomes
    visible at [commit] only. *)
Theorem write_all_or_nothing `{Codec} (fs : filesystem) (p : path) (S : dict)
  (c : connection) (t : string) (rows : list (string * string)) :
match (_write_docstore p S fs).1 with
| Ok _ =>
    ∃ docs ref_docs,
      rows_of (get S "documents" (VDict ∅)) = Ok docs
      ∧ rows_of (get S "ref_doc_info" (VDict ∅)) = Ok ref_docs
      ∧ stored (_write_docstore p S fs).2 p
        = written (stored fs p) docs ref_docs (extra_of S)
| Err _ =>
    (∀ t, table_of (stored (_write_docstore p S fs).2 p) t
          = table_of (stored fs p) t)
    ∧ (∀ db, node_at fs p = Some (File db) →
         (_read_docstore p (_write_docstore p S fs).2).1 = (_read_docstore p fs).1)
end
∧ match (_write_indexstore p S fs).1 with
  | Ok _ =>
      stored (_write_indexstore p S fs).2 p
      = <["index_metadata" := dumps <$> S]> (stored fs p)
  | Err _ => node_at (_write_indexstore p S fs).2 p = node_at fs p
  end
∧ committed (execute (DELETE_FROM t) c).2 = committed c
∧ committed (executemany t rows c).2 = committed c
∧ close fs p (executemany t rows c).2 = close fs p c.
Proof.
split_and!.
- destruct (_write_docstore p S fs).1 as [[]|e] eqn:E.
  + by apply write_docstore_succeeded.
  + by eapply write_docstore_failed.
- destruct (_write_indexstore p S fs).1 as [[]|e] eqn:E.
  + by apply write_indexstore_succeeded.
  + by eapply write_indexstore_failed.
- apply (execute_keeps_committed t "" "" c).
- apply executemany_keeps_committed.
- unfold close. by rewrite executemany_keeps_committed.
Qed.

Lemma write_all_or_nothing_witness :
(_read_docstore (H := Json.codec) docstore_path
   (_write_docstore (H := Json.codec) docstore_path scenario_bad
      {[ docstore_path := File corrupt_db ]}).2).1
= (_read_docstore (H := Json.codec) docstore_path
     {[ docstore_path := File corrupt_db ]}).1.
Proof.
pose proof (write_all_or_nothing (H := Json.codec)
              {[ docstore_path := File corrupt_db ]} docstore_path scenario_bad
              (clean ∅) "documents" []) as Hw.
assert (Herr : (_write_docstore (H := Json.codec) docstore_path scenario_bad
                  {[ docstore_path := File corrupt_db ]}).1 = Err AttributeError)
  by (vm_compute; reflexivity).
rewrite Herr in Hw. apply (proj2 (proj1 Hw) corrupt_db).
vm_compute. reflexivity.
Defined.

(** A write that fails half way: after Scenario A, writing a snapshot whose
    [ref_doc_info] is a list raises [AttributeError], and the store still
    reads as Scenario A. *)
Example failed_write_keeps_snapshot :
(_write_docstore (H := Json.codec) docstore_path scenario_bad
   (_write_docstore (H := Json.codec) docstore_path scenario_A ∅).2).1
= Err AttributeError
∧ (_read_docstore (H := Json.codec) docstore_path
     (_write_docstore (H := Json.codec) docstore_path scenario_bad
        (_write_docstore (H := Json.codec) docstore_path scenario_A ∅).2).2).1
  = Ok scenario_A.
Proof. split; vm_compute; reflexivity. Qed.

(** A failed write to a path where nothing exists leaves an empty store. *)
Example failed_write_on_fresh_path :
(_write_docstore (H := Json.codec) docstore_path scenario_bad ∅).1
= Err AttributeError
∧ (_read_docstore (H := Json.codec) docstore_path
     (_write_docstore (H := Json.codec) docstore_path scenario_bad ∅).2).1
  = Ok empty_store.
Proof. split; vm_compute; reflexivity. Qed.

(** ** Schema creation *)

Lemma execute_create_if_not_exists t c :
∃ c', execute (CREATE_TABLE true t) c = (Ok (), c')
      ∧ view c' = create_if_absent t (view c)
      ∧ in_transaction c' = in_transaction c.
Proof.
unfold execute, create_if_absent.
destruct (view c !! t) eqn:E; [by eexists|].
destruct (in_transaction c) eqn:Etx; eexists; split_and!; done.
Qed.

Section Schema.
Context `{Codec}.

Lemma ensure_docstore_schema_view c :
∃ c', _ensure_docstore_schema c = (Ok (), c')
      ∧ view c' = with_docstore_schema (view c).
Proof.
unfold _ensure_docstore_schema, with_docstore_schema.
destruct (execute_create_if_not_exists "documents" c) as (c1 & E1 & V1 & _).
destruct (execute_create_if_not_exists "ref_doc_info" c1) as (c2 & E2 & V2 & _).
destruct (execute_create_if_not_exists "metadata" c2) as (c3 & E3 & V3 & _).
exists c3. erewrite sql_bind_ok by done. erewrite sql_bind_ok by done.
split; [done|]. by rewrite V3, V2, V1.
Qed.

Lemma decode_docstore_error db e :
decode_docstore db = Err e → ∃ s, e = JSONDecodeError s.
Proof.
unfold decode_docstore. intros E.
destruct (decode_table (table_of db "documents")) as [docs|e1] eqn:E1; simpl in E.
2:{ apply decode_table_error in E1 as (? & s & _ & _ & ->). exists s. congruence. }
destruct (decode_table (table_of db "ref_doc_info")) as [refs|e2] eqn:E2;
  simpl in E.
2:{ apply decode_table_error in E2 as (? & s & _ & _ & ->). exists s. congruence. }
destruct (decode_table (table_of db "metadata")) as [extra|e3] eqn:E3;
  simpl in E; [done|].
apply decode_table_error in E3 as (? & s & _ & _ & ->). exists s. congruence.
Qed.

(** The database a call leaves at the path. *)
Lemma run_call_stored p c fs :
stored (run_call p c fs).2 p = stored fs p
∨ stored (run_call p c fs).2 p = with_docstore_schema (stored fs p)
∨ stored (run_call p c fs).2 p = create_if_absent "index_metadata" (stored fs p)
∨ ¬ is_read c
  ∧ ((∃ docs ref_docs extra,
        stored (run_call p c fs).2 p = written (stored fs p) docs ref_docs extra)
     ∨ ∃ tbl, stored (run_call p c fs).2 p
              = <["index_metadata" := tbl]> (stored fs p)).
Proof.
destruct c as [S| |S|]; simpl.
- destruct (write_docstore_cases p S fs)
    as [(fs1 & docs & refs & _ & Hp & _ & _ & _ & Ew)
       |(e' & fs' & Ew & _ & _ & [Hsame|(fs1 & _ & Hp & _ & ->)])];
    rewrite Ew; simpl.
  + do 3 right. split; [tauto|]. left. exists docs, refs, (extra_of S).
    unfold stored at 1. by rewrite node_at_nonempty, lookup_insert_eq.
  + left. unfold stored. by rewrite Hsame.
  + right. left. unfold stored at 1.
    by rewrite node_at_nonempty, lookup_insert_eq.
- rewrite read_docstore_eq.
  destruct (node_at fs p) as [[|db]|] eqn:E; simpl; [by left| |by left].
  right. left. assert (p ≠ []) by (by intros ->).
  unfold stored. by rewrite E, node_at_nonempty, lookup_insert_eq.
- destruct (write_indexstore_cases p S fs)
    as [(fs1 & _ & Hp & _ & Ew)|(e' & fs' & Ew & _ & _ & Hsame)];
    rewrite Ew; simpl.
  + do 3 right. split; [tauto|]. right. exists (dumps <$> S).
    unfold stored at 1. by rewrite node_at_nonempty, lookup_insert_eq.
  + left. unfold stored. by rewrite Hsame.
- rewrite read_indexstore_eq.
  destruct (node_at fs p) as [[|db]|] eqn:E; simpl; [by left| |by left].
  do 2 right. left. assert (p ≠ []) by (by intros ->).
  unfold stored. by rewrite E, node_at_nonempty, lookup_insert_eq.
Qed.

Lemma run_call_no_table_exists p c fs t :
(run_call p c fs).1 ≠ Some (OperationalError (table_already_exists t)).
Proof.
destruct c as [S| |S|]; simpl.
- destruct (write_docstore_cases p S fs)
    as [(? & ? & ? & _ & _ & _ & _ & _ & Ew)|(e' & fs' & Ew & _ & Hne & _)];
    rewrite Ew; simpl; [done|]. intros [= ->]. by eapply Hne.
- rewrite read_docstore_eq.
  destruct (node_at fs p) as [[|db]|] eqn:E; simpl; [done| |done].
  destruct (decode_docstore _) as [|e] eqn:Ed; simpl; [done|].
  by apply decode_docstore_error in Ed as [s ->].
- destruct (write_indexstore_cases p S fs)
    as [(? & _ & _ & _ & Ew)|(e' & fs' & Ew & _ & Hne & _)];
    rewrite Ew; simpl; [done|]. intros [= ->]. by eapply Hne.
- rewrite read_indexstore_eq.
  destruct (node_at fs p) as [[|db]|] eqn:E; simpl; [done| |done].
  destruct (decode_table _) as [|e] eqn:Ed; simpl; [done|].
  by apply decode_table_error in Ed as (? & s & _ & _ & ->).
Qed.

Lemma run_call_keeps_tables p c fs :
dom (stored fs p) ⊆ dom (stored (run_call p c fs).2 p)
∧ (is_read c → stored fs p ⊆ stored (run_call p c fs).2 p)
∧ (∀ t, ¬ store_table t →
     stored (run_call p c fs).2 p !! t = stored fs p !! t).
Proof.
destruct (run_call_stored p c fs)
  as [-> | [-> | [-> | [Hw [(docs & refs & extra & ->) | (tbl & ->)]]]]].
- done.
- split_and!.
  + apply subseteq_dom, with_docstore_schema_subseteq.
  + intros _. apply with_docstore_schema_subseteq.
  + intros t Ht. apply with_docstore_schema_lookup_ne;
      intros ->; apply Ht; unfold store_table; auto.
- split_and!.
  + apply subseteq_dom, create_if_absent_subseteq.
  + intros _. apply create_if_absent_subseteq.
  + intros t Ht. rewrite lookup_create_if_absent, decide_False; [done|].
    intros <-. apply Ht. unfold store_table. auto.
- split_and!; [|done|].
  + unfold written. rewrite !dom_insert. set_solver.
  + intros t Ht. unfold written.
    rewrite !lookup_insert_ne; [done|..];
      intros <-; apply Ht; unfold store_table; auto.
- split_and!; [|done|].
  + rewrite dom_insert. set_solver.
  + intros t Ht. rewrite lookup_insert_ne; [done|].
    intros <-. apply Ht. unfold store_table. auto.
Qed.
End Schema.

Section Calls.
Context `{Codec}.

Lemma run_calls_keep_tables p cs fs :
(∀ t, Some (OperationalError (table_already_exists t)) ∉ (run_calls p cs fs).1)
∧ dom (stored fs p) ⊆ dom (stored (run_calls p cs fs).2 p)
∧ (∀ t, ¬ store_table t → stored (run_calls p cs fs).2 p !! t = stored fs p !! t)
∧ (Forall is_read cs → stored fs p ⊆ stored (run_calls p cs fs).2 p).
Proof.
revert fs. induction cs as [|c cs IH]; intros fs; simpl.
- split_and!; [|done..]. intros t Hin. by apply elem_of_nil in Hin.
- destruct (IH (run_call p c fs).2) as (IH1 & IH2 & IH3 & IH4).
  destruct (run_call_keeps_tables p c fs) as (Hc1 & Hc2 & Hc3).
  split_and!.
  + intros t [Heq|Hin]%elem_of_cons.
    * by eapply run_call_no_table_exists.
    * by eapply IH1.
  + by etrans.
  + intros t Ht. by rewrite IH3, Hc3.
  + intros [Hr Hrs]%Forall_cons. etrans; [by apply Hc2|by apply IH4].
Qed.
End Calls.

(** C6. Schema creation is idempotent.  In any sequence of writes and reads
    of the two stores on one path, no call fails because a table already
    exists, no table is dropped, and a table that is not one of the stores'
    own is never changed; reads lose no row of any table.  The schema step
    itself succeeds on every connection, keeps every existing table with its
    rows, and doing it twice is doing it once. *)
Theorem schema_creation_idempotent `{Codec}
  (p : path) (cs : list call) (fs : filesystem) (c : connection) (db : database) :
(∀ t, Some (OperationalError (table_already_exists t)) ∉ (run_calls p cs fs).1)
∧ dom (stored fs p) ⊆ dom (stored (run_calls p cs fs).2 p)
∧ (∀ t, ¬ store_table t → stored (run_calls p cs fs).2 p !! t = stored fs p !! t)
∧ (Forall is_read cs → stored fs p ⊆ stored (run_calls p cs fs).2 p)
∧ (∃ c', _ensure_docstore_schema c = (Ok (), c') ∧ view c ⊆ view c')
∧ (∃ c', execute (CREATE_TABLE true "index_metadata") c = (Ok (), c')
         ∧ view c ⊆ view c')
∧ _ensure_docstore_schema (clean db) = (Ok (), clean (with_docstore_schema db))
∧ db ⊆ with_docstore_schema db
∧ with_docstore_schema (with_docstore_schema db) = with_docstore_schema db
∧ execute (CREATE_TABLE true "index_metadata") (clean db)
  = (Ok (), clean (create_if_absent "index_metadata" db))
∧ db ⊆ create_if_absent "index_metadata" db
∧ create_if_absent "index_metadata" (create_if_absent "index_metadata" db)
  = create_if_absent "index_metadata" db.
Proof.
destruct (run_calls_keep_tables p cs fs) as (H1 & H2 & H3 & H4).
split_and!; try done.
- destruct (ensure_docstore_schema_view c) as (c' & E & V).
  exists c'. split; [done|]. rewrite V. apply with_docstore_schema_subseteq.
- destruct (execute_create_if_not_exists "index_metadata" c) as (c' & E & V & _).
  exists c'. split; [done|]. rewrite V. apply create_if_absent_subseteq.
- apply ensure_docstore_schema_clean.
- apply with_docstore_schema_subseteq.
- apply with_docstore_schema_idemp.
- apply execute_create_clean.
- apply create_if_absent_subseteq.
- apply create_if_absent_idemp.
Qed.

Lemma schema_creation_idempotent_witness :
stored {[ docstore_path := File corrupt_db ]} docstore_path
⊆ stored (run_calls (H := Json.codec) docstore_path
            [Read_docstore; Read_indexstore; Read_docstore]
            {[ docstore_path := File corrupt_db ]}).2 docstore_path.
Proof.
refine (proj1 (proj2 (proj2 (proj2
  (schema_creation_idempotent (H := Json.codec) docstore_path
     [Read_docstore; Read_indexstore; Read_docstore]
     {[ docstore_path := File corrupt_db ]} (clean ∅) ∅)))) _).
repeat constructor.
Defined.

(** ** The adapters *)

Lemma or_default_spec (db_name : option string) (default : string) :
or_default db_name default =
  match db_name with
  | Some name => if decide (name = "") then default else name
  | None => default
  end.
Proof.
destruct db_name as [name|]; [|done]. simpl.
case_decide as Hn.
- by rewrite bool_decide_eq_true_2.
- by rewrite bool_decide_eq_false_2.
Qed.

(** C9. Both adapters resolve the database file as the directory joined
    with the override name when one is given (a name that is not the empty
    string) and with [docstore.sqlite], respectively [indexstore.sqlite],
    otherwise; [from_persist_dir] reads that path and [persist] writes it,
    and when they return the instance carries the path in [_db_path]. *)
Theorem adapters_resolve_path `{Codec} {D I : Type} {HD : SimpleStore D}
  {HI : SimpleStore I} (persist_dir : path) (db_name : option string)
  (fs : filesystem) (doc : SqliteDocumentStore.t D) (idx : SqliteIndexStore.t I) :
let name default :=
  match db_name with
  | Some name => if decide (name = "") then default else name
  | None => default
  end in
let doc_path := joinpath persist_dir (name "docstore.sqlite") in
let idx_path := joinpath persist_dir (name "indexstore.sqlite") in
(∀ inst fs',
   SqliteDocumentStore.from_persist_dir persist_dir db_name fs = (Ok inst, fs') →
   SqliteDocumentStore._db_path inst = Some doc_path
   ∧ ∃ data, _read_docstore doc_path fs = (Ok data, fs')
             ∧ from_dict data = Ok (SqliteDocumentStore.base inst))
∧ (∀ inst fs',
     SqliteDocumentStore.persist doc persist_dir db_name fs = (Ok inst, fs') →
     SqliteDocumentStore._db_path inst = Some doc_path
     ∧ SqliteDocumentStore.base inst = SqliteDocumentStore.base doc
     ∧ _write_docstore doc_path (to_dict (SqliteDocumentStore.base doc)) fs
       = (Ok (), fs'))
∧ (∀ inst fs',
     SqliteIndexStore.from_persist_dir persist_dir db_name fs = (Ok inst, fs') →
     SqliteIndexStore._db_path inst = Some idx_path
     ∧ ∃ data, _read_indexstore idx_path fs = (Ok data, fs')
               ∧ from_dict data = Ok (SqliteIndexStore.base inst))
∧ (∀ inst fs',
     SqliteIndexStore.persist idx persist_dir db_name fs = (Ok inst, fs') →
     SqliteIndexStore._db_path inst = Some idx_path
     ∧ SqliteIndexStore.base inst = SqliteIndexStore.base idx
     ∧ _write_indexstore idx_path (to_dict (SqliteIndexStore.base idx)) fs
       = (Ok (), fs')).
Proof.
intros name doc_path idx_path.
assert (Hdoc : joinpath persist_dir (or_default db_name DOCSTORE_DB) = doc_path)
  by (by rewrite or_default_spec).
assert (Hidx : joinpath persist_dir (or_default db_name INDEXSTORE_DB) = idx_path)
  by (by rewrite or_default_spec).
split_and!; intros inst fs'.
- unfold SqliteDocumentStore.from_persist_dir. rewrite Hdoc.
  unfold mbind, io_bind, mret, io_ret.
  destruct (_read_docstore doc_path fs) as [[data|e] fs1]; [|done].
  destruct (from_dict data) as [base_store|e] eqn:E; [|done].
  intros [= <- <-]. simpl. split; [done|]. by exists data.
- unfold SqliteDocumentStore.persist. rewrite Hdoc.
  unfold mbind, io_bind, mret, io_ret.
  destruct (_write_docstore doc_path _ fs) as [[[]|e] fs1]; [|done].
  by intros [= <- <-].
- unfold SqliteIndexStore.from_persist_dir. rewrite Hidx.
  unfold mbind, io_bind, mret, io_ret.
  destruct (_read_indexstore idx_path fs) as [[data|e] fs1]; [|done].
  destruct (from_dict data) as [base_store|e] eqn:E; [|done].
  intros [= <- <-]. simpl. split; [done|]. by exists data.
- unfold SqliteIndexStore.persist. rewrite Hidx.
  unfold mbind, io_bind, mret, io_ret.
  destruct (_write_indexstore idx_path _ fs) as [[[]|e] fs1]; [|done].
  by intros [= <- <-].
Qed.

Lemma adapters_resolve_path_witness :
let doc := {| SqliteDocumentStore.base := scenario_A;
              SqliteDocumentStore._db_path := None |} in
let db_path := joinpath persist_dir "nodes.db" in
let inst := {| SqliteDocumentStore.base := scenario_A;
               SqliteDocumentStore._db_path := Some db_path |} in
let fs1 := (_write_docstore (H := Json.codec) db_path scenario_A ∅).2 in
SqliteDocumentStore._db_path inst = Some db_path
∧ SqliteDocumentStore.base inst = SqliteDocumentStore.base doc
∧ _write_docstore (H := Json.codec) db_path
    (to_dict (SimpleStore := dict_store) (SqliteDocumentStore.base doc)) ∅
  = (Ok (), fs1).
Proof.
intros doc db_path inst fs1.
refine (proj1 (proj2 (adapters_resolve_path (H := Json.codec)
         (HD := dict_store) (HI := dict_store) persist_dir (Some "nodes.db") ∅
         doc {| SqliteIndexStore.base := scenario_C;
                SqliteIndexStore._db_path := None |})) inst fs1 _).
assert (Hok : (_write_docstore (H := Json.codec) db_path scenario_A ∅).1 = Ok ())
  by (vm_compute; reflexivity).
unfold SqliteDocumentStore.persist, mbind, io_bind, mret, io_ret.
change (joinpath persist_dir (or_default (Some "nodes.db") DOCSTORE_DB))
  with db_path.
change (to_dict (SqliteDocumentStore.base doc)) with scenario_A.
subst fs1. destruct (_write_docstore db_path scenario_A ∅) as [[[]|e] fs'];
  [reflexivity|discriminate Hok].
Defined.

(** * Further properties of the stores *)

(** ** Stores at different paths *)


Section Frame.
Context `{Codec}.



End Frame.



(** ** Both stores in one file *)

Section SharedFile.
Context `{Codec}.

(** Decoding depends on the three document-store tables only. *)
Lemma decode_docstore_tables (S : dict) db :
snapshot S →
(∀ v, payload S v → json_compatible v) →
table_of db "documents" = dumps <$> mapping_of S "documents" →
table_of db "ref_doc_info" = dumps <$> mapping_of S "ref_doc_info" →
table_of db "metadata" = dumps <$> extra_of S →
decode_docstore db = Ok (S ∪ empty_store).
Proof.
intros HS Hc Hd Hr Hm. unfold decode_docstore. rewrite Hd, Hr, Hm.
assert (Hmap : ∀ k, k = "documents" ∨ k = "ref_doc_info" →
          ∀ id v, mapping_of S k !! id = Some v → json_compatible v).
{ intros k Hk id v. unfold mapping_of.
  destruct (S !! k) as [[| | | | |d]|] eqn:E; try by rewrite lookup_empty.
  intros Hid. apply Hc. left. by exists k, d, id. }
rewrite !decode_table_dumps; simpl.
- unfold mret, result_ret. by rewrite assemble_snapshot.
- apply Hmap. auto.
- apply Hmap. auto.
- intros k v. rewrite lookup_extra_of. case_decide as Hk; [done|].
  intros E. apply Hc. right. exists k. split_and!; [tauto..|done].
Qed.

Lemma read_docstore_file (p : path) (fs : filesystem) db :
p ≠ [] → fs !! p = Some (File db) →
(_read_docstore p fs).1 = decode_docstore (with_docstore_schema db).
Proof. intros Hp E. by rewrite read_docstore_eq, node_at_nonempty, E. Qed.

Lemma read_indexstore_file (p : path) (fs : filesystem) db :
p ≠ [] → fs !! p = Some (File db) →
(_read_indexstore p fs).1 = decode_table (table_of db "index_metadata").
Proof. intros Hp E. by rewrite read_indexstore_eq, node_at_nonempty, E. Qed.
End SharedFile.

(** X2. The two stores can share one database file: after a document-store
    write and an index-store write to the same writable path, in either
    order, the document-store reader returns the document snapshot and the
    index-store reader the index snapshot. *)
Theorem stores_share_a_file `{Codec}
  (fs : filesystem) (p : path) (S I : dict) :
writable fs p →
snapshot S →
(∀ v, payload S v → json_compatible v) →
(∀ k v, I !! k = Some v → json_compatible v) →
(_read_docstore p (_write_indexstore p I (_write_docstore p S fs).2).2).1
= Ok (S ∪ empty_store)
∧ (_read_indexstore p (_write_indexstore p I (_write_docstore p S fs).2).2).1
  = Ok I
∧ (_read_docstore p (_write_docstore p S (_write_indexstore p I fs).2).2).1
  = Ok (S ∪ empty_store)
∧ (_read_indexstore p (_write_docstore p S (_write_indexstore p I fs).2).2).1
  = Ok I.
Proof.
intros Hw HS Hc HcI.
destruct (write_docstore_ok fs p S (mapping_of S "documents")
            (mapping_of S "ref_doc_info") Hw) as (fs1 & Emk & Hp & Ew);
  [apply rows_of_snapshot; auto..|].
destruct (write_indexstore_ok fs p I Hw) as (fs1' & Emk' & _ & Ewi).
assert (fs1' = fs1) as -> by congruence.
rewrite Ew, Ewi. simpl.
erewrite write_indexstore_again, write_docstore_again;
  [|done|done|apply rows_of_snapshot; auto..|done|done].
simpl.
set (W := written (stored fs p) (mapping_of S "documents")
            (mapping_of S "ref_doc_info") (extra_of S)).
set (W' := written (<["index_metadata" := dumps <$> I]> (stored fs p))
             (mapping_of S "documents") (mapping_of S "ref_doc_info")
             (extra_of S)).
destruct (table_of_written (stored fs p) (mapping_of S "documents")
            (mapping_of S "ref_doc_info") (extra_of S)) as (Td & Tr & Tm).
destruct (table_of_written (<["index_metadata" := dumps <$> I]> (stored fs p))
            (mapping_of S "documents") (mapping_of S "ref_doc_info")
            (extra_of S)) as (Td' & Tr' & Tm').
split_and!.
- erewrite read_docstore_file by (done || apply lookup_insert_eq).
  apply decode_docstore_tables; [done..| | |];
    rewrite table_of_with_docstore_schema; unfold table_of;
    rewrite lookup_insert_ne by done; [apply Td|apply Tr|apply Tm].
- erewrite read_indexstore_file by (done || apply lookup_insert_eq).
  unfold table_of. rewrite lookup_insert_eq. simpl.
  by apply decode_table_dumps.
- erewrite read_docstore_file by (done || apply lookup_insert_eq).
  apply decode_docstore_tables; [done..| | |];
    by rewrite table_of_with_docstore_schema.
- erewrite read_indexstore_file by (done || apply lookup_insert_eq).
  subst W'. unfold table_of, written.
  rewrite !lookup_insert_ne, lookup_insert_eq by done. simpl.
  by apply decode_table_dumps.
Qed.

Lemma compatible_scenario_A v :
payload scenario_A v → json_compatible (H := Json.codec) v.
Proof.
intros [(k & d & id & Hk & Hd & Hid) | (k & Hk1 & Hk2 & Hv)].
- unfold scenario_A in Hd. destruct Hk as [-> | ->]; simplify_map_eq.
  by vm_compute.
- unfold scenario_A in Hv.
  by rewrite lookup_insert_ne, lookup_singleton_ne in Hv.
Qed.

Lemma snapshot_scenario_A : snapshot scenario_A.
Proof.
intros k v [-> | ->] E; vm_compute in E; injection E as <-; by eexists.
Qed.

Lemma compatible_scenario_C k v :
scenario_C !! k = Some v → json_compatible (H := Json.codec) v.
Proof.
intros Hv. unfold scenario_C in Hv.
apply lookup_singleton_Some in Hv as [<- <-]. by vm_compute.
Qed.

Lemma stores_share_a_file_witness :
(_read_docstore (H := Json.codec) docstore_path
   (_write_indexstore (H := Json.codec) docstore_path scenario_C
      (_write_docstore (H := Json.codec) docstore_path scenario_A ∅).2).2).1
= Ok (scenario_A ∪ empty_store)
∧ (_read_indexstore (H := Json.codec) docstore_path
     (_write_indexstore (H := Json.codec) docstore_path scenario_C
        (_write_docstore (H := Json.codec) docstore_path scenario_A ∅).2).2).1
  = Ok scenario_C.
Proof.
pose proof (stores_share_a_file (H := Json.codec) ∅ docstore_path
              scenario_A scenario_C (writable_empty docstore_path ltac:(done))
              snapshot_scenario_A compatible_scenario_A compatible_scenario_C)
  as (H1 & H2 & _).
exact (conj H1 H2).
Defined.

(** ** Reading again, and reading files that lack tables *)

Section Repeat.
Context `{Codec}.

Lemma file_not_root (fs : filesystem) p db : node_at fs p = Some (File db) → p ≠ [].
Proof. by intros E ->. Qed.

Lemma decode_table_empty : decode_table ∅ = Ok ∅.
Proof. unfold decode_table. by rewrite map_to_list_empty. Qed.

Lemma decode_docstore_with_schema db :
decode_docstore (with_docstore_schema db) = decode_docstore db.
Proof. unfold decode_docstore. by rewrite !table_of_with_docstore_schema. Qed.

Lemma table_of_create_if_absent t t' db :
table_of (create_if_absent t db) t' = table_of db t'.
Proof.
unfold table_of. rewrite lookup_create_if_absent.
case_decide as Ht; [subst|done]. by destruct (db !! t').
Qed.
End Repeat.

(** X3. Reading is repeatable: a second read returns the same result and
    leaves the files exactly as the first read left them, for both stores;
    and a read of one store does not change what a read of the other store
    returns at the same path. *)
Theorem read_is_repeatable `{Codec} (fs : filesystem) (p : path) :
_read_docstore p (_read_docstore p fs).2 = _read_docstore p fs
∧ _read_indexstore p (_read_indexstore p fs).2 = _read_indexstore p fs
∧ (_read_indexstore p (_read_docstore p fs).2).1 = (_read_indexstore p fs).1
∧ (_read_docstore p (_read_indexstore p fs).2).1 = (_read_docstore p fs).1.
Proof.
rewrite !(read_docstore_eq p fs), !(read_indexstore_eq p fs).
destruct (node_at fs p) as [[|db]|] eqn:E; simpl.
- rewrite read_docstore_eq, read_indexstore_eq, E. done.
- pose proof (file_not_root fs p db E) as Hp.
  rewrite !read_docstore_eq, !read_indexstore_eq.
  rewrite !node_at_nonempty, !lookup_insert_eq by done.
  rewrite with_docstore_schema_idemp, create_if_absent_idemp.
  rewrite !insert_insert_eq.
  rewrite table_of_with_docstore_schema, table_of_create_if_absent.
  split_and!; try done.
  rewrite !decode_docstore_with_schema. unfold decode_docstore.
  by rewrite !table_of_create_if_absent.
- rewrite read_docstore_eq, read_indexstore_eq, E. done.
Qed.

(** X4. An existing database file whose tables are missing or empty is an
    empty store, not an error: the document-store reader returns
    [{documents: {}, ref_doc_info: {}}] and leaves the file with the schema
    created, and the index-store reader returns the empty mapping.  This is
    what reading a file written by the other store gives. *)
Theorem read_file_without_tables `{Codec}
  (fs : filesystem) (p : path) (db : database) :
node_at fs p = Some (File db) →
((∀ t, docstore_table t → table_of db t = ∅) →
 _read_docstore p fs
 = (Ok empty_store, <[p := File (with_docstore_schema db)]> fs))
∧ (table_of db "index_metadata" = ∅ →
   _read_indexstore p fs
   = (Ok ∅, <[p := File (create_if_absent "index_metadata" db)]> fs)).
Proof.
intros E. split.
- intros Hempty. rewrite read_docstore_eq, E. f_equal.
  rewrite decode_docstore_with_schema. unfold decode_docstore, docstore_table in *.
  rewrite !Hempty by auto. rewrite decode_table_empty. simpl.
  unfold mret, result_ret. by rewrite (left_id_L ∅ (∪)).
- intros Hempty. rewrite read_indexstore_eq, E, Hempty.
  by rewrite decode_table_empty.
Qed.

Lemma read_file_without_tables_witness :
let fs := (_write_indexstore (H := Json.codec) docstore_path scenario_C ∅).2 in
_read_docstore (H := Json.codec) docstore_path fs
= (Ok empty_store,
   <[docstore_path := File (with_docstore_schema (stored fs docstore_path))]> fs).
Proof.
intros fs.
refine (proj1 (read_file_without_tables (H := Json.codec) fs docstore_path
                 (stored fs docstore_path) _) _).
- vm_compute. reflexivity.
- intros t [-> | [-> | ->]]; vm_compute; reflexivity.
Defined.

(** ** Values under [documents] that are not mappings *)

Lemma rows_of_non_mapping v :
(∀ d, v ≠ VDict d) →
rows_of v = if truthy v then Err AttributeError else Ok ∅.
Proof. intros Hv. destruct v; try done. by destruct (Hv d). Qed.

(** X5. When the value under [documents] is not a mapping, the writer
    either raises or silently stores nothing: a value that is true
    (a non-empty list or string, a non-zero number, [True]) makes the write
    raise [AttributeError] with every table keeping its rows, and a value
    that is false ([None], [0], [False], the empty string or list) is
    written as an empty [documents] table. *)
Theorem write_docstore_non_mapping `{Codec}
  (fs : filesystem) (p : path) (S ref_docs : dict) (v : value) :
writable fs p →
S !! "documents" = Some v →
(∀ d, v ≠ VDict d) →
(truthy v = true →
 (_write_docstore p S fs).1 = Err AttributeError
 ∧ ∀ t, table_of (stored (_write_docstore p S fs).2 p) t
        = table_of (stored fs p) t)
∧ (truthy v = false →
   rows_of (get S "ref_doc_info" (VDict ∅)) = Ok ref_docs →
   (_write_docstore p S fs).1 = Ok ()
   ∧ table_of (stored (_write_docstore p S fs).2 p) "documents" = ∅).
Proof.
intros Hw Hv Hnd.
assert (Hrows : rows_of (get S "documents" (VDict ∅))
                = if truthy v then Err AttributeError else Ok ∅).
{ unfold get. rewrite Hv. by apply rows_of_non_mapping. }
split.
- intros Htrue. rewrite Htrue in Hrows.
  destruct (writable_open fs p Hw) as (fs1 & Emk & Eopen & _ & Hp).
  assert (Herr : (_write_docstore p S fs).1 = Err AttributeError)
    by (by rewrite write_docstore_eq, Emk, Eopen, Hrows).
  split; [done|]. by eapply write_docstore_failed.
- intros Hfalse Hrefs. rewrite Hfalse in Hrows.
  destruct (write_docstore_ok fs p S ∅ ref_docs Hw Hrows Hrefs)
    as (fs1 & _ & Hp & Ew).
  rewrite Ew. simpl. split; [done|]. unfold stored at 1.
  rewrite node_at_nonempty, lookup_insert_eq by done.
  destruct (table_of_written (stored fs p) ∅ ref_docs (extra_of S)) as (-> & _).
  by rewrite fmap_empty.
Qed.

Lemma write_docstore_non_mapping_witness :
((_write_docstore (H := Json.codec) docstore_path
    {[ "documents" := VList [VInt 1] ]} ∅).1 = Err AttributeError
 ∧ ∀ t, table_of (stored (_write_docstore (H := Json.codec) docstore_path
                            {[ "documents" := VList [VInt 1] ]} ∅).2
                    docstore_path) t
        = table_of (stored ∅ docstore_path) t)
∧ ((_write_docstore (H := Json.codec) docstore_path
      {[ "documents" := VNone ]} ∅).1 = Ok ()
   ∧ table_of (stored (_write_docstore (H := Json.codec) docstore_path
                         {[ "documents" := VNone ]} ∅).2 docstore_path)
       "documents" = ∅).
Proof.
split.
- refine (proj1 (write_docstore_non_mapping (H := Json.codec) ∅ docstore_path
                   {[ "documents" := VList [VInt 1] ]} ∅ (VList [VInt 1])
                   (writable_empty docstore_path ltac:(done)) _ _) _);
    [by vm_compute|done|by vm_compute].
- refine (proj2 (write_docstore_non_mapping (H := Json.codec) ∅ docstore_path
                   {[ "documents" := VNone ]} ∅ VNone
                   (writable_empty docstore_path ltac:(done)) _ _) _ _);
    [by vm_compute|done|by vm_compute|by vm_compute].
Defined.

(** ** Metadata rows *)

Section Metadata.
Context `{Codec}.

Lemma decode_docstore_ok db :
decodable (table_of db "documents") →
decodable (table_of db "ref_doc_info") →
decodable (table_of db "metadata") →
decode_docstore db
= Ok (omap loads (table_of db "metadata")
      ∪ {[ "documents" := VDict (omap loads (table_of db "documents"));
           "ref_doc_info" := VDict (omap loads (table_of db "ref_doc_info")) ]}).
Proof.
intros Hd Hr Hm. unfold decode_docstore.
by rewrite !decode_table_ok by done.
Qed.
End Metadata.

(** X6. Rows of [metadata] take precedence when a store is read: every
    decodable metadata row appears at the top level of the result under its
    key, also under the keys [documents] and [ref_doc_info], where it
    replaces the mapping built from the table of that name.  The writer
    never produces such a row: after a successful write [metadata] has no
    row keyed [documents] or [ref_doc_info]. *)
Theorem metadata_rows_take_precedence `{Codec}
  (fs : filesystem) (p : path) (db : database) (S : dict) (k s : string) (v : value) :
(node_at fs p = Some (File db) →
 decodable (table_of db "documents") →
 decodable (table_of db "ref_doc_info") →
 decodable (table_of db "metadata") →
 table_of db "metadata" !! k = Some s →
 loads s = Some v →
 ∃ data, (_read_docstore p fs).1 = Ok data ∧ data !! k = Some v)
∧ ((_write_docstore p S fs).1 = Ok () →
   table_of (stored (_write_docstore p S fs).2 p) "metadata" !! "documents" = None
   ∧ table_of (stored (_write_docstore p S fs).2 p) "metadata" !! "ref_doc_info"
     = None).
Proof.
split.
- intros E Hd Hr Hm Hk Hs.
  rewrite read_docstore_eq, E. simpl.
  rewrite decode_docstore_with_schema, decode_docstore_ok by done.
  eexists. split; [done|].
  apply lookup_union_Some_l. by rewrite lookup_omap, Hk.
- intros Hok.
  destruct (write_docstore_succeeded p S fs Hok) as (docs & refs & _ & _ & ->).
  destruct (table_of_written (stored fs p) docs refs (extra_of S))
    as (_ & _ & ->).
  rewrite !lookup_fmap, !lookup_extra_of.
  by rewrite !decide_True by auto.
Qed.

Lemma decodable_singleton `{Codec} (k s : string) :
is_Some (loads s) → decodable {[ k := s ]}.
Proof. intros Hs k' s' [_ <-]%lookup_singleton_Some. done. Qed.

Lemma decodable_empty `{Codec} : decodable ∅.
Proof. intros k s. by rewrite lookup_empty. Qed.

Lemma metadata_rows_take_precedence_witness :
(∃ data, (_read_docstore (H := Json.codec) docstore_path
            {[ docstore_path := File shadow_db ]}).1 = Ok data
         ∧ data !! "documents" = Some VNone)
∧ (table_of (stored (_write_docstore (H := Json.codec) docstore_path
                       scenario_A ∅).2 docstore_path) "metadata"
     !! "documents" = None
   ∧ table_of (stored (_write_docstore (H := Json.codec) docstore_path
                         scenario_A ∅).2 docstore_path) "metadata"
       !! "ref_doc_info" = None).
Proof.
pose proof (metadata_rows_take_precedence (H := Json.codec)
              {[ docstore_path := File shadow_db ]} docstore_path shadow_db
              scenario_A "documents" "null" VNone) as [Hread _].
pose proof (metadata_rows_take_precedence (H := Json.codec)
              ∅ docstore_path shadow_db
              scenario_A "documents" "null" VNone) as [_ Hwrite].
split.
- apply Hread.
  + by vm_compute.
  + change (table_of shadow_db "documents") with ({[ "d1" := "1" ]} : table).
    apply (decodable_singleton (H := Json.codec)).
    eexists. vm_compute. reflexivity.
  + change (table_of shadow_db "ref_doc_info") with (∅ : table).
    apply (decodable_empty (H := Json.codec)).
  + change (table_of shadow_db "metadata") with ({[ "documents" := "null" ]} : table).
    apply (decodable_singleton (H := Json.codec)).
    eexists. vm_compute. reflexivity.
  + by vm_compute.
  + by vm_compute.
- apply Hwrite. by vm_compute.
Defined.

(** ** The adapters, end to end *)

(** X7. Persisting and hydrating through the adapters: on a writable path,
    [persist] succeeds and records the path, and [from_persist_dir] on the
    same directory and name then builds its instance with [from_dict]
    applied to the snapshot [to_dict] gave, completed with empty
    [documents] and [ref_doc_info] for the document store and unchanged for
    the index store; an error of [from_dict] is returned as it is. *)
Theorem persist_then_hydrate `{Codec} {D I : Type} {HD : SimpleStore D}
  {HI : SimpleStore I} (persist_dir : path) (db_name : option string)
  (fs : filesystem) (doc : SqliteDocumentStore.t D) (idx : SqliteIndexStore.t I) :
let doc_path := joinpath persist_dir (or_default db_name DOCSTORE_DB) in
let idx_path := joinpath persist_dir (or_default db_name INDEXSTORE_DB) in
(writable fs doc_path →
 snapshot (to_dict (SqliteDocumentStore.base doc)) →
 (∀ v, payload (to_dict (SqliteDocumentStore.base doc)) v → json_compatible v) →
 ∃ fs1,
   SqliteDocumentStore.persist doc persist_dir db_name fs
   = (Ok {| SqliteDocumentStore.base := SqliteDocumentStore.base doc;
            SqliteDocumentStore._db_path := Some doc_path |}, fs1)
   ∧ SqliteDocumentStore.from_persist_dir persist_dir db_name fs1
     = match from_dict (to_dict (SqliteDocumentStore.base doc) ∪ empty_store) with
       | Ok b => (Ok {| SqliteDocumentStore.base := b;
                        SqliteDocumentStore._db_path := Some doc_path |}, fs1)
       | Err e => (Err e, fs1)
       end)
∧ (writable fs idx_path →
   (∀ k v, to_dict (SqliteIndexStore.base idx) !! k = Some v → json_compatible v) →
   ∃ fs1,
     SqliteIndexStore.persist idx persist_dir db_name fs
     = (Ok {| SqliteIndexStore.base := SqliteIndexStore.base idx;
              SqliteIndexStore._db_path := Some idx_path |}, fs1)
     ∧ SqliteIndexStore.from_persist_dir persist_dir db_name fs1
       = match from_dict (to_dict (SqliteIndexStore.base idx)) with
         | Ok b => (Ok {| SqliteIndexStore.base := b;
                          SqliteIndexStore._db_path := Some idx_path |}, fs1)
         | Err e => (Err e, fs1)
         end).
Proof.
intros doc_path idx_path. split.
- intros Hw HS Hc.
  destruct (write_then_read_docstore fs doc_path _ Hw HS Hc)
    as (fs0 & _ & Hp & Ew & Er).
  eexists. unfold SqliteDocumentStore.persist, SqliteDocumentStore.from_persist_dir.
  fold doc_path. unfold mbind, io_bind, mret, io_ret. rewrite Ew.
  split; [done|]. rewrite Er by apply lookup_insert_eq.
  by destruct (from_dict _).
- intros Hw Hc.
  destruct (write_indexstore_ok fs idx_path
              (to_dict (SqliteIndexStore.base idx)) Hw) as (fs0 & _ & Hp & Ew).
  eexists. unfold SqliteIndexStore.persist, SqliteIndexStore.from_persist_dir.
  fold idx_path. unfold mbind, io_bind, mret, io_ret. rewrite Ew.
  split; [done|].
  rewrite read_indexstore_eq, node_at_nonempty, lookup_insert_eq by done.
  unfold table_of. rewrite lookup_insert_eq. simpl.
  rewrite decode_table_dumps by done.
  unfold create_if_absent. rewrite lookup_insert_eq, insert_insert_eq.
  by destruct (from_dict _).
Qed.

(** X8. Hydrating from a directory that holds no database file under the
    resolved name raises [FileNotFoundError] with the resolved path, for
    both adapters; nothing is created and [from_dict] is not reached. *)
Theorem hydrate_missing_file `{Codec} {D I : Type} {HD : SimpleStore D}
  {HI : SimpleStore I} (persist_dir : path) (db_name : option string)
  (fs : filesystem) :
let doc_path := joinpath persist_dir (or_default db_name DOCSTORE_DB) in
let idx_path := joinpath persist_dir (or_default db_name INDEXSTORE_DB) in
(node_at fs doc_path = None →
 SqliteDocumentStore.from_persist_dir (SimpleDocumentStore := D)
   persist_dir db_name fs
 = (Err (FileNotFoundError doc_path), fs))
∧ (node_at fs idx_path = None →
   SqliteIndexStore.from_persist_dir (SimpleIndexStore := I)
     persist_dir db_name fs
   = (Err (FileNotFoundError idx_path), fs)).
Proof.
intros doc_path idx_path. split; intros Hnone.
- unfold SqliteDocumentStore.from_persist_dir. fold doc_path.
  unfold mbind, io_bind. by rewrite read_docstore_eq, Hnone.
- unfold SqliteIndexStore.from_persist_dir. fold idx_path.
  unfold mbind, io_bind. by rewrite read_indexstore_eq, Hnone.
Qed.

Lemma hydrate_missing_file_witness :
SqliteDocumentStore.from_persist_dir (H := Json.codec) (SimpleDocumentStore := dict)
  (H0 := dict_store) persist_dir None ∅
= (Err (FileNotFoundError (joinpath persist_dir (or_default None DOCSTORE_DB))), ∅)
∧ SqliteIndexStore.from_persist_dir (H := Json.codec) (SimpleIndexStore := dict)
    (H0 := dict_store) persist_dir (Some "nodes.db") ∅
  = (Err (FileNotFoundError
            (joinpath persist_dir (or_default (Some "nodes.db") INDEXSTORE_DB))), ∅).
Proof.
split.
- refine (proj1 (hydrate_missing_file (H := Json.codec) (HD := dict_store)
                   (HI := dict_store) persist_dir None ∅) _).
  reflexivity.
- refine (proj2 (hydrate_missing_file (H := Json.codec) (HD := dict_store)
                   (HI := dict_store) persist_dir (Some "nodes.db") ∅) _).
  reflexivity.
Defined.

Lemma persist_then_hydrate_witness :
let doc := {| SqliteDocumentStore.base := scenario_A;
              SqliteDocumentStore._db_path := None |} in
let doc_path := joinpath persist_dir (or_default None DOCSTORE_DB) in
∃ fs1,
  SqliteDocumentStore.persist (H := Json.codec) (H0 := dict_store)
    doc persist_dir None ∅
  = (Ok {| SqliteDocumentStore.base := scenario_A;
           SqliteDocumentStore._db_path := Some doc_path |}, fs1)
  ∧ SqliteDocumentStore.from_persist_dir (H := Json.codec) (H0 := dict_store)
      persist_dir None fs1
    = (Ok {| SqliteDocumentStore.base := scenario_A ∪ empty_store;
             SqliteDocumentStore._db_path := Some doc_path |}, fs1).
Proof.
intros doc doc_path.
exact (proj1 (persist_then_hydrate (H := Json.codec) (HD := dict_store)
                (HI := dict_store) persist_dir None ∅ doc
                {| SqliteIndexStore.base := scenario_C;
                   SqliteIndexStore._db_path := None |})
         (writable_empty doc_path ltac:(done))
         snapshot_scenario_A compatible_scenario_A).
Defined.

(** * Properties of the chat service *)

(** ** Messages *)

Lemma last_cons_cons {A} (x y : A) l : last (x :: y :: l) = last (y :: l).
Proof. done. Qed.

Lemma removelast_snoc {A} (l : list A) x : last l = Some x → removelast l ++ [x] = l.
Proof.
intros (l' & ->)%last_Some. by rewrite removelast_last.
Qed.

(** [from_messages] never raises, and the history is [None] exactly when no
    message is left. *)
Lemma from_messages_history (messages : list ChatMessage) :
∃ input rest,
  from_messages messages = Some (input, rest)
  ∧ chat_history input = (if bool_decide (rest = []) then None else Some rest).
Proof.
unfold from_messages.
assert (Hhist : ∀ rest : list ChatMessage,
  (if bool_decide (0 < length rest) then Some rest else None)
  = (if bool_decide (rest = []) then None else Some rest)).
{ intros [|??]; [done|]. rewrite bool_decide_eq_true_2 by (simpl; lia).
  by rewrite bool_decide_eq_false_2. }
destruct messages as [|m l]; simpl; [by eexists _, _|].
destruct (last (m :: l)) as [x|] eqn:Elast; [|by apply last_None in Elast].
destruct (decide (role m = SYSTEM)), (decide (role x = USER)); simpl;
  try (eexists _, _; split; [done|first [done|apply Hhist]]).
destruct l as [|y l]; simpl; [simplify_eq/=; congruence|].
eexists _, _. split; [done|apply Hhist].
Qed.

(** X9. [from_messages] never raises and loses no message: the leading
    [SYSTEM] message (if the first message is one), the history and the
    trailing [USER] message (if the last message is one), in this order, are
    the messages it was given; the history is [None] exactly when nothing is
    left between them, and the caller's list is left holding the history. *)
Theorem from_messages_partition (messages : list ChatMessage) :
∃ input rest,
  from_messages messages = Some (input, rest)
  ∧ option_list (system_message input) ++ rest ++ option_list (last_message input)
    = messages
  ∧ chat_history input = (if bool_decide (rest = []) then None else Some rest)
  ∧ (∀ m, system_message input = Some m ↔ head messages = Some m ∧ role m = SYSTEM)
  ∧ (∀ m, last_message input = Some m ↔ last messages = Some m ∧ role m = USER).
Proof.
unfold from_messages.
assert (Hhist : ∀ rest : list ChatMessage,
  (if bool_decide (0 < length rest) then Some rest else None)
  = (if bool_decide (rest = []) then None else Some rest)).
{ intros [|??]; [done|]. rewrite bool_decide_eq_true_2 by (simpl; lia).
  by rewrite bool_decide_eq_false_2. }
destruct messages as [|m l]; simpl.
{ eexists _, _. split; [done|]. simpl. split_and!; try done; naive_solver. }
destruct (last (m :: l)) as [x|] eqn:Elast; [|by apply last_None in Elast].
destruct (decide (role m = SYSTEM)) as [Hs|Hs]; simpl.
- destruct (decide (role x = USER)) as [Hu|Hu]; simpl.
  + destruct l as [|y l]; simpl.
    { simplify_eq/=. congruence. }
    rewrite last_cons_cons in Elast.
    eexists _, _. split; [done|].
    split_and!; try done; try apply Hhist; try naive_solver.
    f_equal. by apply (removelast_snoc (y :: l)).
  + eexists _, _. split; [done|].
    split_and!; try done; try apply Hhist; try naive_solver.
    by rewrite app_nil_r.
- destruct (decide (role x = USER)) as [Hu|Hu]; simpl.
  + eexists _, _. split; [done|].
    split_and!; try done; try apply Hhist; try naive_solver.
    by apply (removelast_snoc (m :: l)).
  + eexists _, _. split; [done|].
    split_and!; try done; try apply Hhist; try naive_solver.
    by rewrite app_nil_r.
Qed.

(** ** Strings *)

Lemma append_cons (c : ascii) (s t : string) :
  String c s +:+ t = String c (s +:+ t).
Proof. reflexivity. Qed.

Lemma append_nil_r (s : string) : s +:+ "" = s.
Proof. induction s as [|c s IH]; [done|]. by rewrite append_cons, IH. Qed.

Lemma append_assoc (s1 s2 s3 : string) : (s1 +:+ s2) +:+ s3 = s1 +:+ s2 +:+ s3.
Proof. induction s1 as [|c s1 IH]; [done|]. by rewrite !append_cons, IH. Qed.

Lemma length_append (s1 s2 : string) :
  String.length (s1 +:+ s2) = String.length s1 + String.length s2.
Proof. induction s1 as [|c s1 IH]; [done|]. rewrite append_cons. simpl. by rewrite IH. Qed.

Lemma append_inj_r (t s1 s2 : string) : s1 +:+ t = s2 +:+ t → s1 = s2.
Proof.
revert s2. induction s1 as [|c s1 IH]; intros [|c' s2] Heq.
- done.
- apply (f_equal String.length) in Heq. change ("" +:+ t) with t in Heq.
  rewrite append_cons in Heq. simpl in Heq. rewrite length_append in Heq. lia.
- apply (f_equal String.length) in Heq. change ("" +:+ t) with t in Heq.
  rewrite append_cons in Heq. simpl in Heq. rewrite length_append in Heq. lia.
- rewrite !append_cons in Heq. injection Heq as -> Heq. f_equal. by apply IH.
Qed.

Lemma joined_app (l1 l2 : list string) :
  joined (l1 ++ l2) = joined l1 +:+ joined l2.
Proof.
induction l1 as [|s l1 IH]; simpl; [done|]. by rewrite IH, append_assoc.
Qed.

(** ** Inline citations *)

Lemma unique_chunks_elem seen l c :
  c ∈ unique_chunks seen l → (chunk_key c ∉ seen) ∧ c ∈ l.
Proof.
revert seen. induction l as [|x l IH]; intros seen; simpl.
{ by intros ?%elem_of_nil. }
destruct (decide (chunk_key x ∈ seen)) as [Hin|Hin].
- intros [??]%IH. split; [done|]. by apply list_elem_of_further.
- intros [->|[Hc ?]%IH]%elem_of_cons.
  + split; [done|]. apply list_elem_of_here.
  + split; [set_solver|]. by apply list_elem_of_further.
Qed.

Lemma unique_chunks_NoDup seen l : NoDup (chunk_key <$> unique_chunks seen l).
Proof.
revert seen. induction l as [|x l IH]; intros seen; simpl.
{ constructor. }
destruct (decide (chunk_key x ∈ seen)) as [Hin|Hin]; [apply IH|].
rewrite fmap_cons. constructor; [|apply IH].
intros (c & Hk & [Hc _]%unique_chunks_elem)%list_elem_of_fmap.
apply Hc, elem_of_union. left. by apply elem_of_singleton.
Qed.

Lemma unique_chunks_sublist seen l : unique_chunks seen l `sublist_of` l.
Proof.
revert seen. induction l as [|x l IH]; intros seen; simpl; [done|].
destruct (decide (chunk_key x ∈ seen)).
- by apply sublist_cons.
- by apply sublist_skip.
Qed.

Lemma unique_chunks_app seen l1 l2 :
  unique_chunks seen (l1 ++ l2)
  = unique_chunks seen l1
    ++ unique_chunks (list_to_set (chunk_key <$> l1) ∪ seen) l2.
Proof.
revert seen. induction l1 as [|x l1 IH]; intros seen; simpl.
{ f_equal. set_solver. }
destruct (decide (chunk_key x ∈ seen)) as [Hin|Hin].
- rewrite IH. do 2 f_equal. set_solver.
- rewrite IH. simpl. do 3 f_equal. set_solver.
Qed.

Lemma unique_chunks_first seen l1 c l2 :
  chunk_key c ∉ seen → chunk_key c ∉ chunk_key <$> l1 →
  c ∈ unique_chunks seen (l1 ++ c :: l2).
Proof.
intros Hseen Hl1. rewrite unique_chunks_app. apply elem_of_app. right.
simpl. rewrite decide_False; [apply list_elem_of_here|].
rewrite elem_of_union, elem_of_list_to_set. tauto.
Qed.

Lemma unique_chunks_covers seen l c :
  c ∈ l → chunk_key c ∈ seen ∨ chunk_key c ∈ chunk_key <$> unique_chunks seen l.
Proof.
revert seen. induction l as [|x l IH]; intros seen; simpl.
{ by intros ?%elem_of_nil. }
intros [->|Hc]%elem_of_cons.
- destruct (decide (chunk_key x ∈ seen)); [by left|]. right.
  rewrite fmap_cons. apply list_elem_of_here.
- destruct (decide (chunk_key x ∈ seen)); [by apply IH|].
  destruct (IH ({[chunk_key x]} ∪ seen) Hc) as [Hs|Hs].
  + apply elem_of_union in Hs as [->%elem_of_singleton|?]; [|by left].
    right. rewrite fmap_cons. apply list_elem_of_here.
  + right. rewrite fmap_cons. by apply list_elem_of_further.
Qed.

Lemma unique_chunks_nil seen l :
  unique_chunks seen l = [] ↔ ∀ c, c ∈ l → chunk_key c ∈ seen.
Proof.
split.
- intros Hnil c Hc. destruct (unique_chunks_covers seen l c Hc) as [|Hin]; [done|].
  rewrite Hnil in Hin. by apply elem_of_nil in Hin.
- intros Hall. destruct (unique_chunks seen l) as [|c u] eqn:E; [done|].
  assert (Hc : c ∈ unique_chunks seen l) by (rewrite E; apply list_elem_of_here).
  apply unique_chunks_elem in Hc as [Hn Hc]. by apply Hall in Hc.
Qed.

Section CitationProperties.
Context `{Format}.

Lemma details_chunks (sources : list Chunk) :
  chunk <$> _build_citation_details sources = unique_chunks ∅ sources.
Proof.
unfold _build_citation_details. rewrite fmap_imap.
rewrite (imap_ext _ (const id)) by done. by rewrite imap_const, list_fmap_id.
Qed.

Lemma details_indices (sources : list Chunk) :
  index <$> _build_citation_details sources
  = seq 1 (length (_build_citation_details sources)).
Proof.
unfold _build_citation_details. rewrite fmap_imap, length_imap.
rewrite (imap_ext _ (λ j _, S j)) by done.
by rewrite (imap_seq_0 _ S), fmap_S_seq.
Qed.

Lemma details_nil (sources : list Chunk) :
  _build_citation_details sources = [] ↔ sources = [].
Proof.
split; [|by intros ->].
intros Hnil. assert (Hu : unique_chunks ∅ sources = []).
{ by rewrite <- details_chunks, Hnil. }
destruct sources as [|c l]; [done|].
rewrite unique_chunks_nil in Hu. specialize (Hu c (list_elem_of_here _ _)).
set_solver.
Qed.

(** X10. The citation details are numbered 1, 2, ... in the order of the
    list, each labelled with its number in brackets, so no two share a label;
    no two cite the same (document id, text) pair; the cited chunks are taken
    from the sources in their order; a chunk whose pair no earlier source has
    is cited itself; and the pair of every source is cited. *)
Theorem citation_details_numbered (sources : list Chunk) :
  let details := _build_citation_details sources in
  index <$> details = seq 1 (length details)
  ∧ Forall (λ d, label d = "[" +:+ pretty (index d) +:+ "]") details
  ∧ NoDup (label <$> details)
  ∧ NoDup (chunk_key ∘ chunk <$> details)
  ∧ (chunk <$> details) `sublist_of` sources
  ∧ (∀ l1 c l2, chunk_key c ∈ chunk_key <$> l1
                 ∨ c ∈ chunk <$> _build_citation_details (l1 ++ c :: l2))
  ∧ Forall (λ c, chunk_key c ∈ chunk_key ∘ chunk <$> details) sources.
Proof.
intros details. subst details.
assert (Hlabel : Forall (λ d, label d = "[" +:+ pretty (index d) +:+ "]")
                   (_build_citation_details sources)).
{ apply Forall_forall. intros d (i & c & -> & _)%elem_of_lookup_imap. done. }
split_and!.
- apply details_indices.
- done.
- assert (Hl : label <$> _build_citation_details sources
             = (λ n, "[" +:+ pretty n +:+ "]") <$> (index <$> _build_citation_details sources)).
  { rewrite <- list_fmap_compose. apply Forall_fmap_ext_1.
    eapply Forall_impl; [exact Hlabel|]. done. }
  rewrite Hl, details_indices. apply NoDup_fmap_2; [|apply NoDup_seq].
  intros n m Hnm. simplify_eq/=.
  by apply append_inj_r, (inj pretty) in Hnm.
- rewrite list_fmap_compose, details_chunks. apply unique_chunks_NoDup.
- rewrite details_chunks. apply unique_chunks_sublist.
- intros l1 c l2. destruct (decide (chunk_key c ∈ chunk_key <$> l1)); [by left|].
  right. rewrite details_chunks. apply unique_chunks_first; [set_solver|done].
- apply Forall_forall. intros c Hc. rewrite list_fmap_compose, details_chunks.
  destruct (unique_chunks_covers ∅ sources c Hc); [set_solver|done].
Qed.


(** The suffix starts with the first marker, when there are sources. *)
Lemma build_suffix_shape (self : InlineCitationFormatter) (sources : list Chunk) :
  ∃ rest, build_suffix self sources
          = if bool_decide (sources = []) then "" else " [1]" +:+ rest.
Proof.
destruct (decide (sources = [])) as [->|Hs]; [by exists ""|].
rewrite (bool_decide_eq_false_2 (sources = [])) by done.
unfold build_suffix.
rewrite bool_decide_eq_false_2 by by rewrite details_nil.
unfold _build_citation_details.
destruct sources as [|c l]; [done|]. simpl unique_chunks.
rewrite decide_False by set_solver.
rewrite imap_cons, !fmap_cons.
destruct (label <$> imap _ _) as [|m ms]; simpl; eexists; reflexivity.
Qed.

Lemma build_suffix_empty (self : InlineCitationFormatter) (sources : list Chunk) :
  build_suffix self sources = "" ↔ sources = [].
Proof.
destruct (build_suffix_shape self sources) as [rest Hrest]. rewrite Hrest.
case_bool_decide; [done|]. split; [done|]. intros ->. done.
Qed.

Lemma decorate_spec (self : InlineCitationFormatter) (text : string)
  (sources : list Chunk) :
  decorate self text sources
  = (if bool_decide (sources = []) then text
     else rstrip text +:+ build_suffix self sources).
Proof.
unfold decorate. destruct (decide (sources = [])) as [->|Hs]; [done|].
rewrite (bool_decide_eq_false_2 (sources = [])) by done.
rewrite bool_decide_eq_false_2; [done|]. by rewrite build_suffix_empty.
Qed.

(** X11. The suffix is empty exactly when there are no sources; otherwise
    it starts with a space and the marker [[1]].  [decorate] returns the text
    unchanged when there are no sources, and otherwise the text without its
    trailing white space, followed by the suffix. *)
Theorem suffix_empty_iff_no_sources (self : InlineCitationFormatter)
  (text : string) (sources : list Chunk) :
  (build_suffix self sources = "" ↔ sources = [])
  ∧ (∃ rest, build_suffix self sources
             = if bool_decide (sources = []) then "" else " [1]" +:+ rest)
  ∧ decorate self text sources
    = (if bool_decide (sources = []) then text
       else rstrip text +:+ build_suffix self sources).
Proof.
split_and!.
- apply build_suffix_empty.
- apply build_suffix_shape.
- apply decorate_spec.
Qed.

(** X12. A source with the document id and text of an earlier one is
    ignored, whatever its metadata: the details, the suffix and the decorated
    text are those of the list without it. *)
Theorem duplicate_sources_ignored (self : InlineCitationFormatter)
  (text : string) (l1 l2 : list Chunk) (c : Chunk) :
  chunk_key c ∈ chunk_key <$> l1 →
  _build_citation_details (l1 ++ c :: l2) = _build_citation_details (l1 ++ l2)
  ∧ build_suffix self (l1 ++ c :: l2) = build_suffix self (l1 ++ l2)
  ∧ decorate self text (l1 ++ c :: l2) = decorate self text (l1 ++ l2).
Proof.
intros Hc.
assert (Hd : _build_citation_details (l1 ++ c :: l2)
             = _build_citation_details (l1 ++ l2)).
{ unfold _build_citation_details. f_equal. rewrite !unique_chunks_app. simpl.
  rewrite decide_True; [done|].
  apply elem_of_union. left. by apply elem_of_list_to_set. }
assert (Hs : build_suffix self (l1 ++ c :: l2) = build_suffix self (l1 ++ l2)).
{ unfold build_suffix. by rewrite Hd. }
split_and!; [done..|]. unfold decorate. by rewrite Hs.
Qed.
End CitationProperties.

Lemma duplicate_sources_ignored_witness :
  _build_citation_details (H := flat_format) ([report_page; notes] ++ report_again :: [])
  = _build_citation_details (H := flat_format) ([report_page; notes] ++ []).
Proof.
refine (proj1 (duplicate_sources_ignored (H := flat_format) default_formatter ""
                 [report_page; notes] [] report_again _)).
vm_compute. apply list_elem_of_here.
Defined.

(** ** The chat engine *)

Section RagWorkflowProperties.
Context {similarity context_filter : Type} (similarity_truthy : similarity → bool).

(** X13. With context the factory asks for a context engine with the
    system prompt, the filter and [similarity_top_k], whose postprocessors are
    the replacement of the [window] metadata first, then at most one
    similarity cutoff, present exactly when [similarity_value] is set and
    true, then at most one reranker, present exactly when reranking is
    enabled, with the model and [top_n] of the settings. *)
Theorem context_engine_postprocessors (rag : RagSettings similarity)
  (workflow_input : RagWorkflowInput context_filter) :
  use_context workflow_input = true →
  ∃ posts,
    build_chat_engine similarity_truthy rag workflow_input
    = ContextChatEngine (system_prompt workflow_input)
        (workflow_context_filter workflow_input) (similarity_top_k rag)
        (MetadataReplacementPostProcessor "window" :: posts)
    ∧ (∀ cutoff, SimilarityPostprocessor cutoff ∈ posts
                 ↔ similarity_value rag = Some cutoff
                   ∧ similarity_truthy cutoff = true)
    ∧ (∀ m n, SentenceTransformerRerank m n ∈ posts
              ↔ enabled (rerank rag) = true
                ∧ m = model (rerank rag) ∧ n = top_n (rerank rag))
    ∧ (∀ key, MetadataReplacementPostProcessor key ∉ posts)
    ∧ (∃ (similarities : list similarity) (reranks : list (string * Z)),
         posts = (SimilarityPostprocessor <$> similarities)
                 ++ (uncurry SentenceTransformerRerank <$> reranks)
         ∧ (length similarities ≤ 1)%nat ∧ (length reranks ≤ 1)%nat).
Proof.
intros Huse. unfold build_chat_engine. rewrite Huse. simpl.
destruct (similarity_value rag) as [v|] eqn:Hv;
  [destruct (similarity_truthy v) eqn:Ht|];
  destruct (enabled (rerank rag)) eqn:He; simpl;
  eexists; (split; [reflexivity|]); split_and!;
  try (intros; rewrite ?elem_of_cons, ?elem_of_nil; naive_solver congruence).
- exists [v]. exists [(model (rerank rag), top_n (rerank rag))]. simpl. split_and!; [done|lia..].
- exists [v]. exists (@nil (string * Z)). simpl. split_and!; [done|lia..].
- exists (@nil similarity). exists [(model (rerank rag), top_n (rerank rag))]. simpl. split_and!; [done|lia..].
- exists (@nil similarity). exists (@nil (string * Z)). simpl. split_and!; [done|lia..].
- exists (@nil similarity). exists [(model (rerank rag), top_n (rerank rag))]. simpl. split_and!; [done|lia..].
- exists (@nil similarity). exists (@nil (string * Z)). simpl. split_and!; [done|lia..].
Qed.
End RagWorkflowProperties.

Lemma context_engine_postprocessors_witness :
  ∃ posts,
    build_chat_engine (context_filter := unit) (λ v, negb (v =? 0)%Z) rag_settings
      {| system_prompt := None; use_context := true; workflow_context_filter := None |}
    = ContextChatEngine None None 2 (MetadataReplacementPostProcessor "window" :: posts)
    ∧ (∀ m n, SentenceTransformerRerank m n ∈ posts
              ↔ true = true ∧ m = "cross-encoder" ∧ n = 1%Z).
Proof.
destruct (context_engine_postprocessors (context_filter := unit)
            (λ v, negb (v =? 0)%Z) rag_settings
            {| system_prompt := None; use_context := true;
               workflow_context_filter := None |} eq_refl)
  as (posts & Heq & _ & Hr & _).
exists posts. split; [exact Heq|exact Hr].
Defined.

(** ** The chat service *)

Section ChatServiceProperties.
Context `{Format} {similarity context_filter node : Type}.
Context (similarity_truthy : similarity → bool).
Context (from_node : node → Chunk).
Context (engine_chat : chat_engine similarity context_filter → string →
                       option (list ChatMessage) → string * list node).
Context (engine_stream_chat : chat_engine similarity context_filter → string →
                              option (list ChatMessage) → list string * list node).

Lemma history_checked (input : ChatEngineInput) (rest : list ChatMessage) :
  chat_history input = (if bool_decide (rest = []) then None else Some rest) →
  match chat_history input with
  | Some h => if bool_decide (h = []) then None else Some h
  | None => None
  end = chat_history input.
Proof.
intros ->. case_bool_decide as Hr; [done|]. by rewrite bool_decide_eq_false_2.
Qed.

(** X14. Without context neither [chat] nor [stream_chat] raises, and the
    settings, the filter and the citation formatter play no part: a simple
    engine with the content of the [SYSTEM] message is asked the content of
    the trailing [USER] message (the empty string without one) with the
    history [from_messages] returns, and its answer and its tokens are
    passed on as they are. *)
Theorem chat_without_context (self : ChatService (similarity := similarity))
  (messages : list ChatMessage) (filter : option context_filter) :
  ∃ input rest,
    from_messages messages = Some (input, rest)
    ∧ let engine := SimpleChatEngine (system_message input ≫= content) in
      let message := default "" (last_message input ≫= content) in
      let answer := engine_chat engine message (chat_history input) in
      let stream := engine_stream_chat engine message (chat_history input) in
      chat similarity_truthy from_node engine_chat self messages false filter
      = Some {| response := answer.1; sources := Some (from_node <$> answer.2) |}
      ∧ stream_chat similarity_truthy from_node engine_stream_chat self messages
          false filter
        = Some {| response_gen := stream.1;
                  gen_sources := Some (from_node <$> stream.2) |}.
Proof.
destruct (from_messages_history messages) as (input & rest & Hfrom & Hhist).
exists input, rest. split; [done|].
unfold chat, stream_chat. rewrite Hfrom. simpl.
rewrite (history_checked _ _ Hhist).
destruct (system_message input), (last_message input); done.
Qed.

(** X15. For an engine whose answer is the text of the tokens it streams,
    with the same nodes, [chat] and [stream_chat] return the same sources.
    When context is used and there are sources, the stream is the tokens
    followed by the non-empty suffix as one more token, and the answer is the
    text of the tokens without its trailing white space, followed by the
    suffix; otherwise the stream is the tokens and the answer is their
    text. *)
Theorem stream_matches_chat (self : ChatService (similarity := similarity))
  (messages : list ChatMessage) (use_context : bool)
  (filter : option context_filter) :
  (∀ engine message history,
     engine_chat engine message history
     = (joined (engine_stream_chat engine message history).1,
        (engine_stream_chat engine message history).2)) →
  ∃ completion completion_gen tokens,
    chat similarity_truthy from_node engine_chat self messages use_context filter
    = Some completion
    ∧ stream_chat similarity_truthy from_node engine_stream_chat self messages
        use_context filter
      = Some completion_gen
    ∧ sources completion = gen_sources completion_gen
    ∧ let found := default [] (sources completion) in
      let suffix := build_suffix (citation_formatter self) found in
      if use_context && negb (bool_decide (found = []))
      then response_gen completion_gen = tokens ++ [suffix]
           ∧ response completion = rstrip (joined tokens) +:+ suffix
           ∧ suffix ≠ ""
      else response_gen completion_gen = tokens
           ∧ response completion = joined tokens.
Proof.
intros Hagree.
destruct (from_messages_history messages) as (input & rest & Hfrom & Hhist).
unfold chat, stream_chat. rewrite Hfrom. simpl.
rewrite (history_checked _ _ Hhist).
set (engine := build_chat_engine _ _ _).
set (message := default "" _).
rewrite Hagree. simpl.
set (stream := engine_stream_chat engine message (chat_history input)).
eexists _, _, stream.1. split; [reflexivity|]. split; [reflexivity|].
split; [reflexivity|]. simpl.
pose proof (build_suffix_empty (citation_formatter self)
              (from_node <$> stream.2)) as Hempty.
pose proof (decorate_spec (citation_formatter self) (joined stream.1)
              (from_node <$> stream.2)) as Hdec.
unfold _decorate_response.
destruct use_context; simpl; [|done].
destruct (decide (from_node <$> stream.2 = [])) as [Hs|Hs].
- rewrite Hs. simpl. rewrite Hs in Hdec. by rewrite Hdec.
- rewrite (bool_decide_eq_false_2 (from_node <$> stream.2 = [])) by done. simpl.
  rewrite bool_decide_eq_false_2 by by rewrite Hempty. simpl.
  rewrite Hdec, (bool_decide_eq_false_2 (from_node <$> stream.2 = [])) by done.
  split_and!; [done..|]. by rewrite Hempty.
Qed.
End ChatServiceProperties.

Lemma stream_matches_chat_witness :
  ∃ completion completion_gen tokens,
    chat (H := flat_format) (λ v, negb (v =? 0)%Z) id fixed_chat
      {| settings_rag := rag_settings; citation_formatter := default_formatter |}
      conversation true None
    = Some completion
    ∧ stream_chat (H := flat_format) (λ v, negb (v =? 0)%Z) id fixed_stream
        {| settings_rag := rag_settings; citation_formatter := default_formatter |}
        conversation true None
      = Some completion_gen
    ∧ sources completion = gen_sources completion_gen
    ∧ let found := default [] (sources completion) in
      let suffix := build_suffix (H := flat_format) default_formatter found in
      if true && negb (bool_decide (found = []))
      then response_gen completion_gen = tokens ++ [suffix]
           ∧ response completion = rstrip (joined tokens) +:+ suffix
           ∧ suffix ≠ ""
      else response_gen completion_gen = tokens
           ∧ response completion = joined tokens.
Proof.
exact (stream_matches_chat (H := flat_format) (λ v, negb (v =? 0)%Z) id
         fixed_chat fixed_stream
         {| settings_rag := rag_settings; citation_formatter := default_formatter |}
         conversation true None (λ _ _ _, eq_refl)).
Defined.

Section ChatWithContext.
Context `{Format} {similarity context_filter node : Type}.
Context (similarity_truthy : similarity → bool).
Context (from_node : node → Chunk).
Context (engine_chat : chat_engine similarity context_filter → string →
                       option (list ChatMessage) → string * list node).
Context (engine_stream_chat : chat_engine similarity context_filter → string →
                              option (list ChatMessage) → list string * list node).

(** X22. With context neither [chat] nor [stream_chat] raises: a context
    engine with the content of the [SYSTEM] message, the filter,
    [similarity_top_k] and postprocessors that start with the replacement of
    the [window] metadata is asked the content of the trailing [USER] message
    (the empty string without one) with the history [from_messages] returns.
    Without source nodes the answer and the tokens are passed on as they are;
    with source nodes the answer loses its trailing white space and gets the
    citation suffix, and the stream gets the suffix as one more token. *)
Theorem chat_with_context (self : ChatService (similarity := similarity))
  (messages : list ChatMessage) (filter : option context_filter) :
  ∃ input rest posts,
    from_messages messages = Some (input, rest)
    ∧ let engine :=
        ContextChatEngine (system_message input ≫= content) filter
          (similarity_top_k (settings_rag self))
          (MetadataReplacementPostProcessor "window" :: posts) in
      let message := default "" (last_message input ≫= content) in
      let answer := engine_chat engine message (chat_history input) in
      let stream := engine_stream_chat engine message (chat_history input) in
      let cited := from_node <$> answer.2 in
      let streamed := from_node <$> stream.2 in
      chat similarity_truthy from_node engine_chat self messages true filter
      = Some {| response :=
                  if bool_decide (cited = []) then answer.1
                  else rstrip answer.1
                       +:+ build_suffix (citation_formatter self) cited;
                sources := Some cited |}
      ∧ stream_chat similarity_truthy from_node engine_stream_chat self messages
          true filter
        = Some {| response_gen :=
                    if bool_decide (streamed = []) then stream.1
                    else stream.1
                         ++ [build_suffix (citation_formatter self) streamed];
                  gen_sources := Some streamed |}.
Proof.
destruct (from_messages_history messages) as (input & rest & Hfrom & Hhist).
assert (Hengine : ∃ posts,
  build_chat_engine similarity_truthy (settings_rag self)
    (_workflow_input (system_message input ≫= content) true filter)
  = ContextChatEngine (system_message input ≫= content) filter
      (similarity_top_k (settings_rag self))
      (MetadataReplacementPostProcessor "window" :: posts)).
{ unfold build_chat_engine. simpl.
  destruct (similarity_value _) as [v|]; [destruct (similarity_truthy v)|];
    destruct (enabled _); by eexists. }
destruct Hengine as [posts Hengine]. exists input, rest, posts. split; [done|].
assert (Hsys : match system_message input with
               | Some m => content m
               | None => None
               end = system_message input ≫= content).
{ by destruct (system_message input). }
assert (Hlast : match last_message input with
                | Some m => content m
                | None => None
                end = last_message input ≫= content).
{ by destruct (last_message input). }
unfold chat, stream_chat. rewrite Hfrom. simpl.
rewrite (history_checked _ _ Hhist), Hsys, Hlast, Hengine.
split.
- do 2 f_equal. unfold _decorate_response. simpl. apply decorate_spec.
- do 2 f_equal.
  set (streamed := from_node <$> _).
  pose proof (build_suffix_empty (citation_formatter self) streamed) as Hempty.
  destruct (decide (streamed = [])) as [Hs|Hs].
  + by rewrite Hs.
  + rewrite !(bool_decide_eq_false_2 (streamed = [])) by done. simpl.
    by rewrite bool_decide_eq_false_2 by by rewrite Hempty.
Qed.
End ChatWithContext.

(** * Properties of the ingestion helper *)

(** ** Strings *)

Lemma substring_nil (n m : nat) : String.substring n m "" = "".
Proof. by destruct n, m. Qed.

Lemma substring_cons_S (n m : nat) (c : ascii) (s : string) :
  String.substring (S n) m (String c s) = String.substring n m s.
Proof. done. Qed.

Lemma substring_0_S (m : nat) (c : ascii) (s : string) :
  String.substring 0 (S m) (String c s) = String c (String.substring 0 m s).
Proof. done. Qed.

Lemma substring_app (n m1 m2 : nat) (s : string) :
  String.substring n (m1 + m2) s
  = String.substring n m1 s +:+ String.substring (n + m1) m2 s.
Proof.
revert n m1. induction s as [|c s IH]; intros n m1.
{ by rewrite !substring_nil. }
destruct n as [|n].
- destruct m1 as [|m1]; [done|].
  change (0 + S m1) with (S m1). change (S m1 + m2) with (S (m1 + m2)).
  rewrite !substring_0_S, substring_cons_S, append_cons. f_equal. apply (IH 0).
- change (S n + m1) with (S (n + m1)). rewrite !substring_cons_S. apply IH.
Qed.

Lemma substring_all (s : string) : String.substring 0 (String.length s) s = s.
Proof. induction s as [|c s IH]; [done|]. simpl. by rewrite IH. Qed.

Lemma substring_get (n m : nat) (c : ascii) (s : string) :
  String.get n s = Some c →
  String.substring n (S m) s = String c (String.substring (S n) m s).
Proof.
revert n. induction s as [|c' s IH]; intros n; [by destruct n|].
destruct n as [|n]; simpl.
- by intros [= ->].
- intros Hget. rewrite (IH n Hget). done.
Qed.

Lemma get_lt (n : nat) (c : ascii) (s : string) :
  String.get n s = Some c → n < String.length s.
Proof.
revert n. induction s as [|c' s IH]; intros n; [by destruct n|].
destruct n as [|n]; simpl; [lia|]. intros ?%IH. lia.
Qed.

Lemma rstrip_cons_nonspace (c : ascii) (s : string) :
  isspace c = false → ∃ r, rstrip (String c s) = String c r.
Proof.
intros Hc. simpl. destruct (rstrip s); rewrite ?Hc; by eexists.
Qed.

Lemma rstrip_idemp (s : string) : rstrip (rstrip s) = rstrip s.
Proof.
induction s as [|c s IH]; [done|]. simpl.
destruct (rstrip s) as [|c' r] eqn:Hr.
- destruct (isspace c) eqn:Hc; [done|]. simpl. by rewrite Hc.
- simpl in IH |- *. by rewrite IH.
Qed.

Lemma strip_hash (s : string) :
  ∃ r, strip (String (ascii_of_N 35) s) = String (ascii_of_N 35) r
       ∧ rstrip (String (ascii_of_N 35) r) = String (ascii_of_N 35) r.
Proof.
destruct (rstrip_cons_nonspace (ascii_of_N 35) s eq_refl) as [r Hr].
exists r. unfold strip. rewrite Hr. split; [done|].
by rewrite <- Hr, rstrip_idemp.
Qed.

(** ** The heading pattern *)

Lemma heading_starts_with_hash (s rest : string) :
  _HEADING_PATTERN s = Some rest → ∃ s', s = String (ascii_of_N 35) s'.
Proof.
unfold _HEADING_PATTERN. destruct s as [|c s]; [done|]. simpl.
unfold is_hash at 1. case_bool_decide as Hc; [subst; by eexists|done].
Qed.

Lemma finditer_from_starts (pos : nat) (bol : bool) (skip : nat) (s : string) :
  Forall (λ m, ∃ k, start m = pos + k
                    ∧ String.get k s = Some (ascii_of_N 35))
         (finditer_from pos bol skip s)
  ∧ StronglySorted lt (start <$> finditer_from pos bol skip s).
Proof.
revert pos bol skip. induction s as [|c s IH]; intros pos bol skip.
{ split; constructor. }
assert (Hnext : ∀ b k,
  Forall (λ m, ∃ k, start m = pos + k
                    ∧ String.get k (String c s) = Some (ascii_of_N 35))
         (finditer_from (S pos) b k s)
  ∧ Forall (λ m, pos < start m) (finditer_from (S pos) b k s)).
{ intros b k. destruct (IH (S pos) b k) as [Hall _]. split.
  - eapply Forall_impl; [exact Hall|]. intros m (j & Hj & Hget).
    exists (S j). split; [lia|done].
  - eapply Forall_impl; [exact Hall|]. intros m (j & Hj & Hget). lia. }
simpl. destruct skip as [|skip].
- destruct (if bol then _HEADING_PATTERN (String c s) else None) as [rest|] eqn:Hm.
  + assert (Hc : c = ascii_of_N 35).
    { destruct bol; [|done].
      apply heading_starts_with_hash in Hm as [s' [= -> _]]. done. }
    split.
    * constructor; [exists 0; split; [simpl; lia|by rewrite Hc]|].
      apply Hnext.
    * rewrite fmap_cons. constructor; [apply IH|].
      apply Forall_fmap. apply Hnext.
  + split; [apply Hnext|apply IH].
- split; [apply Hnext|apply IH].
Qed.

Lemma substring_prefix (s1 s2 : string) :
  String.substring 0 (String.length s1) (s1 +:+ s2) = s1.
Proof.
induction s1 as [|c s1 IH]; [by destruct s2|].
rewrite append_cons. simpl. by rewrite IH.
Qed.

Lemma greedy_sound {A} (p : ascii → bool) (lo : nat) (hi : option nat)
  (s : string) (k : string → option A) (r : A) :
  greedy p lo hi s k = Some r →
  ∃ s1 s2, s = s1 +:+ s2 ∧ all_chars p s1 = true ∧ (lo ≤ String.length s1)%nat
           ∧ (∀ n, hi = Some n → (String.length s1 ≤ n)%nat) ∧ k s2 = Some r.
Proof.
revert lo hi. induction s as [|c s IH]; intros lo hi.
- simpl. destruct lo; [|done]. intros Hk. exists "", "".
  split_and!; simpl; try done; intros; lia.
- assert (Hstop : match lo with 0 => k (String c s) | S _ => None end = Some r →
    ∃ s1 s2, String c s = s1 +:+ s2 ∧ all_chars p s1 = true
             ∧ (lo ≤ String.length s1)%nat
             ∧ (∀ n, hi = Some n → (String.length s1 ≤ n)%nat) ∧ k s2 = Some r).
  { destruct lo; [|done]. intros Hk. exists "", (String c s).
    split_and!; simpl; try done; intros; lia. }
  simpl. destruct (p c) eqn:Hc; simpl; [|done].
  case_bool_decide as Hhi; simpl; [done|].
  destruct (greedy p (pred lo) (pred <$> hi) s k) as [r'|] eqn:Hg; [|done].
  intros [= ->]. apply IH in Hg as (s1 & s2 & -> & Hall & Hlo & Hhi' & Hk).
  exists (String c s1), s2. split_and!; simpl; try done.
  + by rewrite Hc.
  + lia.
  + intros n ->. destruct n as [|n]; [done|].
    specialize (Hhi' n eq_refl). lia.
Qed.

Lemma heading_shape (s rest : string) :
  _HEADING_PATTERN s = Some rest →
  ∃ heading, s = heading +:+ rest ∧ occurrence s "" heading rest.
Proof.
unfold _HEADING_PATTERN.
intros (hashes & s1 & -> & Hh & Hh1 & Hh6 & Hs)%greedy_sound.
apply greedy_sound in Hs as (spaces & s2 & -> & Hsp & Hsp1 & _ & Hs).
apply greedy_sound in Hs as (title & s3 & -> & Ht & Ht1 & _ & Hs).
destruct (at_end_of_line s3) eqn:Hend; [|done]. injection Hs as ->.
exists (hashes +:+ spaces +:+ title).
assert (Heq : hashes +:+ spaces +:+ title +:+ rest
              = (hashes +:+ spaces +:+ title) +:+ rest).
{ by rewrite !append_assoc. }
split; [done|]. split; [done|]. split; [by left|]. split; [done|].
exists hashes, spaces, title. split_and!; try done. by apply Hh6.
Qed.

Lemma ends_line_snoc (pre : string) (c : ascii) :
  ends_line (pre +:+ String c "") = is_linebreak c.
Proof.
induction pre as [|a pre IH]; [done|].
rewrite append_cons. simpl. rewrite IH. by destruct pre.
Qed.

Lemma finditer_from_cons (pos : nat) (bol : bool) (skip : nat) (c : ascii)
  (s : string) :
  finditer_from pos bol skip (String c s)
  = match skip with
    | S skip' => finditer_from (S pos) (is_linebreak c) skip' s
    | 0 =>
        match (if bol then _HEADING_PATTERN (String c s) else None) with
        | Some rest =>
            {| start := pos;
               group := String.substring 0
                          (String.length (String c s) - String.length rest)
                          (String c s) |}
              :: finditer_from (S pos) (is_linebreak c)
                   (pred (String.length (String c s) - String.length rest)) s
        | None => finditer_from (S pos) (is_linebreak c) 0 s
        end
    end.
Proof. reflexivity. Qed.

Lemma finditer_from_spec (text pre s : string) (pos : nat) (bol : bool) (skip : nat) :
  text = pre +:+ s →
  pos = String.length pre →
  (bol = true → pre = "" ∨ ends_line pre = true) →
  Forall (λ m, match_in text m ∧ (pos + skip ≤ start m)%nat)
    (finditer_from pos bol skip s)
  ∧ StronglySorted before_match (finditer_from pos bol skip s).
Proof.
revert pre pos bol skip. induction s as [|c s IH]; intros pre pos bol skip Htext Hpos Hbol.
{ split; constructor. }
assert (Hnext : ∀ k,
  Forall (λ m, match_in text m ∧ (S pos + k ≤ start m)%nat)
    (finditer_from (S pos) (is_linebreak c) k s)
  ∧ StronglySorted before_match (finditer_from (S pos) (is_linebreak c) k s)).
{ intros k. apply (IH (pre +:+ String c "")).
  - by rewrite append_assoc.
  - rewrite length_append. simpl. lia.
  - intros Hc. right. by rewrite ends_line_snoc. }
rewrite finditer_from_cons. destruct skip as [|skip].
- destruct (if bol then _HEADING_PATTERN (String c s) else None) as [rest|] eqn:Hm.
  + destruct bol; [|done].
    apply heading_shape in Hm as (heading & Hs & _ & _ & Hafter & Hshape).
    assert (Hlen : String.length (String c s) - String.length rest
                   = String.length heading).
    { rewrite Hs, length_append. lia. }
    assert (Hgroup : String.substring 0 (String.length (String c s) - String.length rest)
                       (String c s) = heading).
    { rewrite Hlen, Hs. apply substring_prefix. }
    assert (Hpos' : (1 ≤ String.length heading)%nat).
    { destruct Hshape as (hashes & spaces & title & -> & _ & ? & _).
      rewrite length_append. lia. }
    rewrite Hgroup, Hlen.
    destruct (Hnext (pred (String.length heading))) as [Hall Hsorted].
    split.
    * constructor.
      { split; [|simpl; lia]. exists pre, rest. split; [|done].
        split; [by rewrite Htext, Hs|]. split; [by apply Hbol|]. done. }
      eapply Forall_impl; [exact Hall|]. intros m [? ?]. split; [done|lia].
    * constructor; [done|].
      eapply Forall_impl; [exact Hall|]. intros m [_ Hle].
      unfold before_match. simpl. lia.
  + destruct (Hnext 0) as [Hall Hsorted]. split; [|done].
    eapply Forall_impl; [exact Hall|]. intros m [? ?]. split; [done|lia].
- destruct (Hnext skip) as [Hall Hsorted]. split; [|done].
  eapply Forall_impl; [exact Hall|]. intros m [? ?]. split; [done|lia].
Qed.

(** X16. Every match that [finditer] returns is an occurrence of the heading
    pattern in the text: it starts where the match says, at the beginning of
    a line, it ends at the end of a line, and it is one to six hashes, white
    space (which may hold line breaks) and a title without line break.  The
    matches come in the order of the text and do not overlap. *)
Theorem heading_matches_are_occurrences (text : string) :
  Forall (match_in text) (finditer text)
  ∧ StronglySorted before_match (finditer text).
Proof.
destruct (finditer_from_spec text "" text 0 true 0) as [Hocc Hsorted]; try done.
{ by left. }
split; [|done]. eapply Forall_impl; [exact Hocc|]. by intros m [? _].
Qed.

(** The chunks of a document: their texts and their ids. *)

Lemma greedy_complete {A} (p : ascii → bool) (lo : nat) (hi : option nat)
  (s1 s2 : string) (k : string → option A) :
  all_chars p s1 = true →
  (lo ≤ String.length s1)%nat →
  (∀ n, hi = Some n → (String.length s1 ≤ n)%nat) →
  is_Some (k s2) →
  is_Some (greedy p lo hi (s1 +:+ s2) k).
Proof.
revert lo hi. induction s1 as [|c s1 IH]; intros lo hi Hall Hlo Hhi Hk.
- simpl in Hlo. assert (lo = 0) as -> by lia.
  change ("" +:+ s2) with s2. destruct s2 as [|c s2]; [done|]. simpl.
  destruct (p c && negb (bool_decide (hi = Some 0))); [|done].
  by destruct (greedy p 0 (pred <$> hi) s2 k).
- rewrite append_cons. simpl in Hall |- *.
  apply andb_prop in Hall as [-> Hall]. simpl.
  rewrite bool_decide_eq_false_2.
  2:{ intros ->. specialize (Hhi 0 eq_refl). simpl in Hhi. lia. }
  simpl.
  destruct (IH (pred lo) (pred <$> hi)) as [r ->]; try done.
  + simpl in Hlo. lia.
  + intros n Hn. destruct hi as [h|]; [|done]. simpl in Hn. injection Hn as <-.
    specialize (Hhi h eq_refl). simpl in Hhi. lia.
Qed.

Lemma heading_complete (heading after : string) :
  occurrence (heading +:+ after) "" heading after →
  is_Some (_HEADING_PATTERN (heading +:+ after)).
Proof.
intros (_ & _ & Hafter & hashes & spaces & title & -> & Hh & [Hh1 Hh6] & Hs & Hs1
        & Ht & Ht1).
unfold _HEADING_PATTERN. rewrite !append_assoc.
apply greedy_complete; try done.
{ by intros n [= <-]. }
apply greedy_complete; try done.
apply greedy_complete; try done.
by rewrite Hafter.
Qed.

Lemma append_inv_length (a b c d : string) :
  a +:+ b = c +:+ d → String.length a = String.length c → a = c ∧ b = d.
Proof.
revert c. induction a as [|x a IH]; intros [|y c] Heq Hlen; try done.
rewrite !append_cons in Heq. injection Heq as -> Heq.
destruct (IH c Heq) as [-> ->]; [by injection Hlen|done].
Qed.

Lemma finditer_from_complete (text pre s : string) (pos : nat) (bol : bool)
  (skip : nat) (before heading after : string) :
  text = pre +:+ s →
  pos = String.length pre →
  (pre = "" ∨ ends_line pre = true → bol = true) →
  occurrence text before heading after →
  (pos + skip ≤ String.length before)%nat →
  ∃ m, m ∈ finditer_from pos bol skip s
       ∧ (start m ≤ String.length before)%nat
       ∧ String.length before < start m + String.length (group m).
Proof.
revert pre pos bol skip.
induction s as [|c s IH]; intros pre pos bol skip Htext Hpos Hbol Hocc Hle.
{ exfalso. destruct Hocc as (Heq & _ & _ & hashes & spaces & title & -> & _ & ? & _).
  rewrite Htext, append_nil_r in Heq. apply (f_equal String.length) in Heq.
  rewrite !length_append in Heq. lia. }
assert (Hnext : ∀ k, (S pos + k ≤ String.length before)%nat →
  ∃ m, m ∈ finditer_from (S pos) (is_linebreak c) k s
       ∧ (start m ≤ String.length before)%nat
       ∧ String.length before < start m + String.length (group m)).
{ intros k Hk. apply (IH (pre +:+ String c "")); try done.
  - by rewrite append_assoc.
  - rewrite length_append. simpl. lia.
  - rewrite ends_line_snoc. intros [Hnil|Hc]; [|done].
    by destruct pre. }
rewrite finditer_from_cons. destruct skip as [|skip].
2:{ apply Hnext. lia. }
destruct (decide (String.length before = pos)) as [Hat|Hlater].
- assert (Hpre : before = pre ∧ heading +:+ after = String c s).
  { destruct Hocc as (Heq & _). rewrite Htext in Heq. symmetry in Heq.
    apply append_inv_length in Heq; [done|lia]. }
  destruct Hpre as [-> Hs].
  rewrite Hbol by (destruct Hocc as (_ & ? & _); done).
  destruct (heading_complete heading after) as [rest Hrest].
  { destruct Hocc as (_ & _ & ? & ?). split; [done|]. split; [by left|]. done. }
  rewrite <- Hs, Hrest.
  apply heading_shape in Hrest as (heading' & Hs' & _ & _ & _ & Hshape).
  assert (Hlen : String.length (heading +:+ after) - String.length rest
                 = String.length heading').
  { rewrite Hs', length_append. lia. }
  assert (Hpos' : (1 ≤ String.length heading')%nat).
  { destruct Hshape as (hashes & spaces & title & -> & _ & ? & _).
    rewrite length_append. lia. }
  rewrite Hlen, Hs', substring_prefix.
  eexists. split; [apply list_elem_of_here|]. simpl. lia.
- destruct (if bol then _HEADING_PATTERN (String c s) else None) as [rest|] eqn:Hm.
  2:{ destruct (Hnext 0) as (m & ? & ?); [lia|]. by exists m. }
  assert (Hbol' : bol = true) by (by destruct bol). rewrite Hbol' in Hm.
  apply heading_shape in Hm as (heading' & Hs' & _ & _ & _ & Hshape).
  assert (Hlen : String.length (String c s) - String.length rest
                 = String.length heading').
  { rewrite Hs', length_append. lia. }
  rewrite Hlen, Hs', substring_prefix.
  destruct (decide (String.length before < pos + String.length heading'))
    as [Hin|Hout].
  + eexists. split; [apply list_elem_of_here|]. simpl. lia.
  + destruct (Hnext (pred (String.length heading'))) as (m & ? & ?); [lia|].
    exists m. split; [by apply list_elem_of_further|done].
Qed.

(** X17. No heading is missed: the place where an occurrence of the heading
    pattern starts lies in a match that [finditer] returns, so the occurrence
    is found itself or starts inside a match that begins before it. *)
Theorem every_heading_is_found (text before heading after : string) :
  occurrence text before heading after →
  ∃ m, m ∈ finditer text
       ∧ (start m ≤ String.length before)%nat
       ∧ String.length before < start m + String.length (group m).
Proof.
intros Hocc. apply (finditer_from_complete text "" text 0 true 0 before heading after);
  try done.
simpl. lia.
Qed.

Lemma every_heading_is_found_witness :
  ∃ m, m ∈ finditer handbook_text
       ∧ (start m ≤ String.length ("Intro" +:+ nl))%nat
       ∧ String.length ("Intro" +:+ nl) < start m + String.length (group m).
Proof.
refine (every_heading_is_found handbook_text ("Intro" +:+ nl) "# Setup"
          (nl +:+ "Install it." +:+ nl +:+ "## C# notes" +:+ nl) _).
split; [reflexivity|]. split; [by right|]. split; [reflexivity|].
exists "#", " ", "Setup". split_and!; try reflexivity; simpl; lia.
Defined.

(** ** Chunks *)

Lemma joined_cons (s : string) (l : list string) : joined (s :: l) = s +:+ joined l.
Proof. done. Qed.

Lemma cuts_joined (text : string) (a : nat) (l : list nat) :
  StronglySorted lt (a :: l) →
  Forall (λ b, b < String.length text) (a :: l) →
  joined (cuts text (a :: l))
  = String.substring a (String.length text - a) text.
Proof.
revert a. induction l as [|b l IH]; intros a Hsorted Hbound.
- simpl. by rewrite append_nil_r.
- apply StronglySorted_inv in Hsorted as [Hsorted Hlt].
  apply Forall_cons in Hbound as [Ha Hbound].
  apply Forall_cons in Hlt as [Hab _].
  pose proof Hbound as [Hb _]%Forall_cons.
  change (cuts text (a :: b :: l))
    with (slice text a b :: cuts text (b :: l)).
  rewrite joined_cons, (IH b Hsorted Hbound). unfold slice.
  replace (String.length text - a) with ((b - a) + (String.length text - b)) by lia.
  rewrite substring_app. do 2 f_equal. lia.
Qed.

Lemma text_cut (text : string) (a : nat) (l : list nat) :
  StronglySorted lt (a :: l) →
  Forall (λ b, b < String.length text) (a :: l) →
  text = slice text 0 a +:+ joined (cuts text (a :: l)).
Proof.
intros Hsorted Hbound. rewrite cuts_joined by done. unfold slice.
pose proof Hbound as [Ha _]%Forall_cons.
rewrite Nat.sub_0_r.
rewrite <- (substring_app 0 a (String.length text - a) text
            : _ = _ +:+ String.substring a _ _).
replace (a + (String.length text - a)) with (String.length text) by lia.
by rewrite substring_all.
Qed.

Lemma cuts_hash (text : string) (l : list nat) :
  StronglySorted lt l →
  Forall (λ b, String.get b text = Some (ascii_of_N 35)) l →
  Forall (λ segment, ∃ r, segment = String (ascii_of_N 35) r) (cuts text l).
Proof.
induction l as [|a l IH]; intros Hsorted Hget; [constructor|].
apply StronglySorted_inv in Hsorted as [Hsorted Hlt].
apply Forall_cons in Hget as [Ha Hget].
simpl. constructor; [|by apply IH].
assert (Hend : a < default (String.length text) (head l)).
{ destruct l as [|b l]; simpl; [by eapply get_lt|].
  by apply Forall_cons in Hlt as [? _]. }
unfold slice.
replace (default (String.length text) (head l) - a)
  with (S (default (String.length text) (head l) - a - 1)) by lia.
rewrite (substring_get _ _ _ _ Ha). by eexists.
Qed.

Lemma count_hash_pos (r : string) :
  (1 ≤ Z.of_nat (count (ascii_of_N 35) (String (ascii_of_N 35) r)))%Z.
Proof. simpl. lia. Qed.

(** What a chapter chunk is, for a match that starts at a hash before the
    next match. *)
Lemma chapter_chunk_hash (source : Document.t) (text : string)
  (heading_matches : list Match) (idx : nat) (m : Match) :
  String.get (start m) text = Some (ascii_of_N 35) →
  (∀ next, heading_matches !! (idx + 1) = Some next → start m < start next) →
  ∃ d r,
    chapter_chunk source text heading_matches idx m = Some d
    ∧ Document.text d
      = strip (slice text (start m)
                 (default (String.length text)
                    (start <$> heading_matches !! (idx + 1))))
    ∧ Document.text d = String (ascii_of_N 35) r
    ∧ rstrip (Document.text d) = Document.text d
    ∧ Document.doc_id d = Document.doc_id source +:+ "_chapter_" +:+ pretty idx
    ∧ Document.metadata d = chapter_metadata source m
    ∧ Document.excluded_embed_metadata_keys d = []
    ∧ Document.excluded_llm_metadata_keys d = [].
Proof.
intros Hget Hnext. unfold chapter_chunk.
set (end_ := match heading_matches !! (idx + 1) with
             | Some next => start next
             | None => String.length text
             end).
assert (Hend : end_ = default (String.length text)
                        (start <$> heading_matches !! (idx + 1))).
{ unfold end_. by destruct (heading_matches !! (idx + 1)). }
assert (Hlt : start m < end_).
{ unfold end_. destruct (heading_matches !! (idx + 1)) as [next|] eqn:E.
  - by apply Hnext.
  - by eapply get_lt. }
assert (Hslice : ∃ x, slice text (start m) end_ = String (ascii_of_N 35) x).
{ unfold slice. replace (end_ - start m) with (S (end_ - start m - 1)) by lia.
  rewrite (substring_get _ _ _ _ Hget). by eexists. }
destruct Hslice as [x Hx]. rewrite Hx.
destruct (strip_hash x) as (r & Hr & Hrr). rewrite Hr.
rewrite bool_decide_eq_false_2 by done.
eexists _, r. split; [reflexivity|]. simpl.
split_and!; try done. by rewrite <- Hend, Hx, Hr.
Qed.

Lemma omap_id_cons_Some {A} (x : A) (l : list (option A)) :
  omap id (Some x :: l) = x :: omap id l.
Proof. done. Qed.

Lemma chapters_spec (source : Document.t) (text : string)
  (heading_matches pre ms : list Match) :
  heading_matches = pre ++ ms →
  Forall (λ m, String.get (start m) text = Some (ascii_of_N 35)) ms →
  StronglySorted lt (start <$> ms) →
  Forall (λ m, ∃ r, group m = String (ascii_of_N 35) r) ms →
  let chapters :=
    omap id (imap (λ i, chapter_chunk source text heading_matches (length pre + i))
               ms) in
  Document.text <$> chapters = strip <$> cuts text (start <$> ms)
  ∧ Document.doc_id <$> chapters
    = imap (λ i _, Document.doc_id source +:+ "_chapter_" +:+ pretty (length pre + i))
        ms
  ∧ Document.metadata <$> chapters = chapter_metadata source <$> ms
  ∧ Forall (λ d, ∃ title level (idx : nat),
              Document.metadata d
              = <["chapter_level" := VInt level]>
                  (<["chapter_title" := VStr title]> (Document.metadata source))
              ∧ (1 ≤ level)%Z
              ∧ Document.doc_id d
                = Document.doc_id source +:+ "_chapter_" +:+ pretty idx
              ∧ Document.excluded_embed_metadata_keys d = []
              ∧ Document.excluded_llm_metadata_keys d = []) chapters.
Proof.
revert pre. induction ms as [|m ms IH]; intros pre Hall Hget Hsorted Hgroup.
{ simpl. split_and!; [done..|constructor]. }
apply Forall_cons in Hget as [Hm Hget].
pose proof Hgroup as [[g Hgm] _]%Forall_cons.
apply Forall_cons in Hgroup as [Hg Hgroup].
rewrite fmap_cons in Hsorted.
apply StronglySorted_inv in Hsorted as [Hsorted Hlt].
assert (Hlook : heading_matches !! (length pre + 0 + 1) = head ms).
{ rewrite Hall, Nat.add_0_r, Nat.add_1_r.
  rewrite (lookup_app_r pre) by lia.
  replace (S (length pre) - length pre) with 1 by lia. by destruct ms. }
destruct (chapter_chunk_hash source text heading_matches (length pre + 0) m Hm)
  as (d & r & Hd & Htext & _ & _ & Hid & Hmeta & He & Hl).
{ rewrite Hlook. intros next Hnext. destruct ms as [|m' ms]; [done|].
  injection Hnext as ->. rewrite fmap_cons in Hlt.
  by apply Forall_cons in Hlt as [? _]. }
intros chapters. subst chapters. rewrite imap_cons, Nat.add_0_r in *.
rewrite (imap_ext (_ ∘ S) (λ i, chapter_chunk source text heading_matches
                                   (length (pre ++ [m]) + i))).
2:{ intros i x _. simpl. f_equal. rewrite length_app. simpl. lia. }
rewrite Hd, omap_id_cons_Some, !fmap_cons, imap_cons.
destruct (IH (pre ++ [m])) as (IHtext & IHid & IHmetas & IHmeta); try done.
{ by rewrite <- app_assoc. }
split_and!.
- rewrite IHtext, Htext, Hlook. simpl cuts. rewrite fmap_cons.
  do 3 f_equal. by destruct ms.
- rewrite IHid, Hid, Nat.add_0_r. f_equal. apply imap_ext. intros i x _. simpl.
  do 3 f_equal. rewrite length_app. simpl. lia.
- by rewrite IHmetas, Hmeta.
- constructor; [|done]. eexists _, _, (length pre). split; [exact Hmeta|].
  split_and!; try done. rewrite Hgm. apply count_hash_pos.
Qed.

Lemma occurrence_hash (text before heading after : string) :
  occurrence text before heading after → ∃ r, heading = String (ascii_of_N 35) r.
Proof.
intros (_ & _ & _ & hashes & spaces & title & -> & Hh & [Hh1 _] & _).
destruct hashes as [|c hashes]; [simpl in Hh1; lia|].
simpl in Hh. apply andb_prop in Hh as [Hc _].
unfold is_hash in Hc. apply bool_decide_eq_true in Hc as ->.
rewrite append_cons. by eexists.
Qed.

Lemma finditer_facts (text : string) :
  Forall (λ m, String.get (start m) text = Some (ascii_of_N 35)) (finditer text)
  ∧ StronglySorted lt (start <$> finditer text)
  ∧ Forall (λ m, ∃ r, group m = String (ascii_of_N 35) r) (finditer text)
  ∧ Forall (λ b, b < String.length text) (start <$> finditer text).
Proof.
unfold finditer.
destruct (finditer_from_starts 0 true 0 text) as [Hget Hsorted].
destruct (finditer_from_spec text "" text 0 true 0) as [Hocc _]; try done.
{ by left. }
assert (Hget' : Forall (λ m, String.get (start m) text = Some (ascii_of_N 35))
                  (finditer_from 0 true 0 text)).
{ eapply Forall_impl; [exact Hget|]. by intros m (k & -> & ?). }
split_and!; try done.
- eapply Forall_impl; [exact Hocc|].
  intros m [(before & after & Hocc' & _) _]. by eapply occurrence_hash.
- apply Forall_fmap. eapply Forall_impl; [exact Hget'|].
  intros m Hm. exact (get_lt _ _ _ Hm).
Qed.

Lemma get_count (k : nat) (c : ascii) (s : string) :
  String.get k s = Some c → 0 < count c s.
Proof.
revert k. induction s as [|c' s IH]; intros k; [by destruct k|].
destruct k as [|k]; simpl.
- intros [= ->]. rewrite bool_decide_eq_true_2 by done. lia.
- intros ?%IH. lia.
Qed.

Lemma chapter_id_inj (doc_id : string) :
  Inj (=) (=) (λ idx : nat, doc_id +:+ "_chapter_" +:+ pretty idx).
Proof.
intros i j Heq. apply (inj (String.app doc_id)) in Heq.
apply (inj (String.app "_chapter_")) in Heq. by apply (inj pretty) in Heq.
Qed.

Lemma preamble_id_ne (doc_id : string) (idx : nat) :
  doc_id +:+ "_preamble" ≠ doc_id +:+ "_chapter_" +:+ pretty idx.
Proof.
intros Heq. apply (inj (String.app doc_id)) in Heq. discriminate Heq.
Qed.

(** X18. Chunking loses nothing but white space and skips no heading: the
    text is a prefix followed by segments that each start with a hash.
    Without a segment the only chunk is the whole text under the id of the
    document; otherwise the chunks are the stripped prefix under the id
    [_preamble], when it is not blank, and the stripped segments under the
    ids [_chapter_0], [_chapter_1], ... one for every segment. *)
Theorem chunks_cover_text (source : Document.t) :
  let chunks := _chunk_document_by_markdown_heading source in
  ∃ prefix segments,
    Document.text source = prefix +:+ joined segments
    ∧ Forall (λ segment, ∃ r, segment = String (ascii_of_N 35) r) segments
    ∧ Document.text <$> chunks
      = match segments with
        | [] => [prefix]
        | _ => (if bool_decide (strip prefix = "") then [] else [strip prefix])
               ++ (strip <$> segments)
        end
    ∧ Document.doc_id <$> chunks
      = match segments with
        | [] => [Document.doc_id source]
        | _ => (if bool_decide (strip prefix = "") then []
                else [Document.doc_id source +:+ "_preamble"])
               ++ ((λ idx, Document.doc_id source +:+ "_chapter_" +:+ pretty idx)
                   <$> seq 0 (length segments))
        end.
Proof.
intros chunks. subst chunks. unfold _chunk_document_by_markdown_heading.
destruct (finditer_facts (Document.text source)) as (Hget & Hsorted & Hgroup & Hbound).
destruct (finditer (Document.text source)) as [|first ms] eqn:Hms.
{ exists (Document.text source), []. simpl. by rewrite append_nil_r. }
set (text := Document.text source) in *.
destruct (chapters_spec source text (first :: ms) [] (first :: ms))
  as (Htext & Hid & _ & _); try done.
exists (slice text 0 (start first)), (cuts text (start <$> first :: ms)).
split; [by apply text_cut|]. split.
{ apply cuts_hash; [done|]. by apply Forall_fmap. }
rewrite !fmap_app. simpl length in Htext, Hid.
change (λ i : nat, chapter_chunk source text (first :: ms) (0 + i))
  with (chapter_chunk source text (first :: ms)) in Htext, Hid.
rewrite Htext, Hid. rewrite fmap_cons. simpl cuts.
split.
- f_equal. by case_bool_decide.
- f_equal; [by case_bool_decide|].
  rewrite (imap_seq_0 (first :: ms)
             (λ idx, Document.doc_id source +:+ "_chapter_" +:+ pretty idx)).
  do 2 f_equal. simpl. f_equal.
  clear. induction ms as [|m ms IH]; [done|]. simpl. by rewrite IH.
Qed.

(** X19. The ids of the chunks of a document are pairwise distinct, and no
    chunk has excluded metadata keys.  A chunk either is the only one, with
    the id and the metadata of the document, or has the metadata of the
    document with [chapter_title] and [chapter_level] set: level 0, title
    [Preamble] and the id [_preamble], or a level of at least 1 and an id
    [_chapter_idx]. *)
Theorem chunk_ids_and_metadata (source : Document.t) :
  let chunks := _chunk_document_by_markdown_heading source in
  NoDup (Document.doc_id <$> chunks)
  ∧ Forall (λ chunk,
      Document.excluded_embed_metadata_keys chunk = []
      ∧ Document.excluded_llm_metadata_keys chunk = []
      ∧ ((Document.doc_id chunk = Document.doc_id source
          ∧ Document.metadata chunk = Document.metadata source
          ∧ chunks = [chunk])
         ∨ ∃ title level,
             Document.metadata chunk
             = <["chapter_level" := VInt level]>
                 (<["chapter_title" := VStr title]> (Document.metadata source))
             ∧ ((level = 0%Z ∧ title = "Preamble"
                 ∧ Document.doc_id chunk = Document.doc_id source +:+ "_preamble")
                ∨ ((1 ≤ level)%Z
                   ∧ ∃ idx : nat,
                       Document.doc_id chunk
                       = Document.doc_id source +:+ "_chapter_" +:+ pretty idx))))
      chunks.
Proof.
intros chunks.
split.
{ subst chunks. unfold _chunk_document_by_markdown_heading.
  destruct (finditer_facts (Document.text source))
    as (Hget & Hsorted & Hgroup & Hbound).
  destruct (finditer (Document.text source)) as [|first ms] eqn:Hms.
  { apply NoDup_singleton. }
  destruct (chapters_spec source (Document.text source) (first :: ms) []
              (first :: ms)) as (_ & Hid & _ & _); try done.
  simpl length in Hid.
  change (λ i : nat, chapter_chunk source (Document.text source) (first :: ms)
                       (0 + i))
    with (chapter_chunk source (Document.text source) (first :: ms)) in Hid.
  rewrite fmap_app, Hid.
  rewrite (imap_seq_0 (first :: ms)
             (λ idx, Document.doc_id source +:+ "_chapter_" +:+ pretty idx)).
  apply NoDup_app. split_and!.
  - case_bool_decide; [constructor|apply NoDup_singleton].
  - intros id Hpre (idx & -> & _)%list_elem_of_fmap.
    case_bool_decide; [by apply elem_of_nil in Hpre|].
    apply list_elem_of_singleton in Hpre. symmetry in Hpre.
    by apply preamble_id_ne in Hpre.
  - apply NoDup_fmap_2; [apply chapter_id_inj|apply NoDup_seq]. }
subst chunks. unfold _chunk_document_by_markdown_heading.
destruct (finditer_facts (Document.text source)) as (Hget & Hsorted & Hgroup & Hbound).
destruct (finditer (Document.text source)) as [|first ms] eqn:Hms.
{ constructor; [|constructor]. split_and!; try done. by left. }
set (text := Document.text source) in *.
destruct (chapters_spec source text (first :: ms) [] (first :: ms))
  as (_ & _ & _ & Hmeta); try done.
apply (Forall_impl (λ chunk,
  Document.excluded_embed_metadata_keys chunk = []
  ∧ Document.excluded_llm_metadata_keys chunk = []
  ∧ ∃ title level,
      Document.metadata chunk
      = <["chapter_level" := VInt level]>
          (<["chapter_title" := VStr title]> (Document.metadata source))
      ∧ ((level = 0%Z ∧ title = "Preamble"
          ∧ Document.doc_id chunk = Document.doc_id source +:+ "_preamble")
         ∨ ((1 ≤ level)%Z
            ∧ ∃ idx : nat,
                Document.doc_id chunk
                = Document.doc_id source +:+ "_chapter_" +:+ pretty idx)))).
2:{ intros chunk (? & ? & ?). split_and!; try done. by right. }
apply Forall_app. split.
- destruct (bool_decide _); constructor; [|constructor].
  split_and!; try done. exists "Preamble", 0%Z. split; [done|]. by left.
- eapply Forall_impl; [exact Hmeta|].
  intros d (title & level & idx & ? & ? & ? & ? & ?).
  split_and!; try done. exists title, level. split; [done|].
  right. split; [done|]. by exists idx.
Qed.

(** X20. A text that holds no hash is returned as one chunk, not stripped,
    with the id and the metadata of the document and no excluded keys. *)
Theorem text_without_hash_is_one_chunk (source : Document.t) :
  count (ascii_of_N 35) (Document.text source) = 0 →
  _chunk_document_by_markdown_heading source
  = [ {| Document.doc_id := Document.doc_id source;
         Document.text := Document.text source;
         Document.metadata := Document.metadata source;
         Document.excluded_embed_metadata_keys := [];
         Document.excluded_llm_metadata_keys := [] |} ].
Proof.
intros Hcount. unfold _chunk_document_by_markdown_heading.
destruct (finditer_facts (Document.text source)) as (Hget & _).
destruct (finditer (Document.text source)) as [|first ms]; [done|].
apply Forall_cons in Hget as [Hfirst%get_count _]. lia.
Qed.

Lemma text_without_hash_is_one_chunk_witness :
  _chunk_document_by_markdown_heading plain_note
  = [ {| Document.doc_id := "note";
         Document.text := "No heading here.";
         Document.metadata := ∅;
         Document.excluded_embed_metadata_keys := [];
         Document.excluded_llm_metadata_keys := [] |} ].
Proof.
exact (text_without_hash_is_one_chunk plain_note eq_refl).
Defined.

Section ReaderProperties.
Context (load_data : path → list Document.t).


End ReaderProperties.

(** ** Titles and levels *)

Lemma count_append (c : ascii) (s1 s2 : string) :
  count c (s1 +:+ s2) = count c s1 + count c s2.
Proof.
induction s1 as [|c' s1 IH]; [done|]. rewrite append_cons. simpl.
rewrite IH. lia.
Qed.

Lemma count_hashes (hashes : string) :
  all_chars is_hash hashes = true →
  count (ascii_of_N 35) hashes = String.length hashes.
Proof.
induction hashes as [|c hashes IH]; [done|]. cbn [count all_chars String.length].
intros [Hc Hall]%andb_prop. apply bool_decide_eq_true in Hc as ->.
rewrite bool_decide_eq_true_2 by done. by rewrite IH.
Qed.

Lemma isspace_not_hash (c : ascii) : isspace c = true → c ≠ ascii_of_N 35.
Proof. by intros Hc ->. Qed.

Lemma count_spaces (spaces : string) :
  all_chars isspace spaces = true → count (ascii_of_N 35) spaces = 0.
Proof.
induction spaces as [|c spaces IH]; [done|]. cbn [count all_chars].
intros [Hc%isspace_not_hash Hall]%andb_prop.
rewrite bool_decide_eq_false_2 by done. by rewrite IH.
Qed.

Lemma lstrip_chars_hashes (hashes spaces rest : string) :
  all_chars is_hash hashes = true →
  all_chars isspace spaces = true →
  (1 ≤ String.length spaces)%nat →
  lstrip_chars [ascii_of_N 35] (hashes +:+ spaces +:+ rest) = spaces +:+ rest.
Proof.
intros Hh Hs Hs1. induction hashes as [|c hashes IH].
- change ("" +:+ spaces +:+ rest) with (spaces +:+ rest).
  destruct spaces as [|c spaces]; [simpl in Hs1; lia|].
  cbn [all_chars] in Hs. apply andb_prop in Hs as [Hc%isspace_not_hash _].
  rewrite append_cons. cbn [lstrip_chars]. rewrite bool_decide_eq_false_2; [done|].
  by intros ->%list_elem_of_singleton.
- cbn [all_chars] in Hh. apply andb_prop in Hh as [Hc Hh].
  apply bool_decide_eq_true in Hc as ->.
  rewrite append_cons. cbn [lstrip_chars]. rewrite bool_decide_eq_true_2; [by apply IH|].
  apply list_elem_of_here.
Qed.

Lemma lstrip_spaces (spaces s : string) :
  all_chars isspace spaces = true → lstrip (spaces +:+ s) = lstrip s.
Proof.
induction spaces as [|c spaces IH]; [done|]. cbn [all_chars].
intros [Hc Hall]%andb_prop. rewrite append_cons. cbn [lstrip]. rewrite Hc. by apply IH.
Qed.

Lemma rstrip_spaces (spaces : string) :
  all_chars isspace spaces = true → rstrip spaces = "".
Proof.
induction spaces as [|c spaces IH]; [done|]. cbn [all_chars rstrip].
intros [Hc Hall]%andb_prop. by rewrite IH, Hc.
Qed.

Lemma rstrip_append (s1 s2 : string) :
  rstrip (s1 +:+ s2)
  = if bool_decide (rstrip s2 = "") then rstrip s1 else s1 +:+ rstrip s2.
Proof.
induction s1 as [|c s1 IH].
- change ("" +:+ s2) with s2. case_bool_decide as Hs; [by rewrite Hs|done].
- rewrite append_cons. cbn [rstrip]. rewrite IH.
  case_bool_decide as Hs; [done|].
  rewrite append_cons. destruct (s1 +:+ rstrip s2) as [|c' r] eqn:Hr; [|done].
  destruct s1; [|done]. by destruct (rstrip s2).
Qed.

Lemma strip_spaces (spaces s : string) :
  all_chars isspace spaces = true → strip (spaces +:+ s) = strip s.
Proof.
intros Hs. unfold strip. rewrite rstrip_append.
case_bool_decide as Hr.
- by rewrite Hr, rstrip_spaces.
- by apply lstrip_spaces.
Qed.

Lemma finditer_occurrences (text : string) :
  Forall (match_in text) (finditer text).
Proof.
destruct (finditer_from_spec text "" text 0 true 0) as [Hocc _]; try done.
{ by left. }
eapply Forall_impl; [exact Hocc|]. by intros m [? _].
Qed.

Lemma chapter_metadata_spec (source : Document.t) (text : string)
  (chapters : list Document.t) (ms : list Match) :
  Document.metadata <$> chapters = chapter_metadata source <$> ms →
  Forall (match_in text) ms →
  Forall2 (λ chunk m, ∃ hashes spaces title,
      group m = hashes +:+ spaces +:+ title
      ∧ all_chars is_hash hashes = true
      ∧ all_chars isspace spaces = true
      ∧ all_chars (λ c, negb (is_linebreak c)) title = true
      ∧ Document.metadata chunk !! "chapter_title" = Some (VStr (strip title))
      ∧ Document.metadata chunk !! "chapter_level"
        = Some (VInt (Z.of_nat (String.length hashes
                                + count (ascii_of_N 35) title))))
    chapters ms.
Proof.
revert ms. induction chapters as [|d chapters IH]; intros [|m l] Hmetas Hocc;
  try done.
rewrite !fmap_cons in Hmetas. injection Hmetas as Hd Hmetas.
apply Forall_cons in Hocc as [(before & after & Hm & _) Hocc].
constructor; [|by apply IH].
destruct Hm as (_ & _ & _ & hashes & spaces & title & Hg & Hh & _ & Hs & Hs1 & Ht & _).
exists hashes, spaces, title. split_and!; try done.
- rewrite Hd. unfold chapter_metadata.
  rewrite lookup_insert_ne, lookup_insert_eq by done.
  by rewrite Hg, lstrip_chars_hashes, strip_spaces.
- rewrite Hd. unfold chapter_metadata. rewrite lookup_insert_eq.
  rewrite Hg, !count_append, count_hashes, count_spaces by done.
  do 3 f_equal.
Qed.

(** X23. The chunks are at most one chunk followed by one chunk for every
    match, in order.  The chunk of a match made of hashes, white space and a
    title has the stripped title as [chapter_title], and as [chapter_level]
    the number of the leading hashes plus the number of hashes in the title:
    the level is the depth of the heading only when the title holds no
    hash. *)
Theorem chapter_title_and_level (source : Document.t) :
  ∃ preamble chapters,
    _chunk_document_by_markdown_heading source = preamble ++ chapters
    ∧ (length preamble ≤ 1)%nat
    ∧ Forall2 (λ chunk m, ∃ hashes spaces title,
        group m = hashes +:+ spaces +:+ title
        ∧ all_chars is_hash hashes = true
        ∧ all_chars isspace spaces = true
        ∧ all_chars (λ c, negb (is_linebreak c)) title = true
        ∧ Document.metadata chunk !! "chapter_title" = Some (VStr (strip title))
        ∧ Document.metadata chunk !! "chapter_level"
          = Some (VInt (Z.of_nat (String.length hashes
                                  + count (ascii_of_N 35) title))))
      chapters (finditer (Document.text source)).
Proof.
unfold _chunk_document_by_markdown_heading.
destruct (finditer_facts (Document.text source)) as (Hget & Hsorted & Hgroup & Hbound).
pose proof (finditer_occurrences (Document.text source)) as Hocc.
destruct (finditer (Document.text source)) as [|first ms] eqn:Hms.
{ eexists [_], []. split_and!; [done|simpl; lia|constructor]. }
set (text := Document.text source) in *.
destruct (chapters_spec source text (first :: ms) [] (first :: ms))
  as (_ & _ & Hmetas & _); try done.
eexists _, _. split; [reflexivity|]. split.
{ case_bool_decide; simpl; lia. }
by apply (chapter_metadata_spec source text).
Qed.
